(** * MonteCarlo: dice, games and their analysis

    A shallow embedding of [montecarlo/MonteCarlo.py] (classes [Die], [Game]
    and [Analyzer]) together with the parts of Python, NumPy and pandas the
    three classes call, followed by the properties of the specification.

    - weights are IEEE 754 binary64 numbers ([spec_float] at precision 53),
      so infinities, NaN and overflow are present as in NumPy;
    - faces are integers, as in [np.array([1, 2, 3])] of the test-suite
      (string faces differ by their order only);
    - objects live in a store and are referred to by address, since a [Game]
      keeps references to its dice and an [Analyzer] a private copy of a
      frame;
    - a method is a computation in a state-and-exception monad over the
      store, which also carries NumPy's global random generator. *)

From Stdlib Require Import ZArith Floats.SpecFloat.
From stdpp Require Import gmap strings list sorting.

Local Open Scope Z_scope.

(** ** Python exceptions *)

Inductive exn_class :=
  | TypeError | ValueError | IndexError | OverflowError | AttributeError.

Record exn := Raise { exn_cls : exn_class; exn_msg : string }.

(** ** binary64 arithmetic *)

Module F64.
Definition prec : Z := 53.
Definition emax : Z := 1024.

Definition add := SFadd prec emax.
Definition sub := SFsub prec emax.
Definition div := SFdiv prec emax.
Definition abs := SFabs.
Definition ltb := SFltb.
Definition of_Z (z : Z) := binary_normalize prec emax z 0 false.

Definition zero := S754_zero false.
Definition one := S754_finite false 4503599627370496 (-52).
Definition inf := S754_infinity false.
Definition nan := S754_nan.

Definition is_nan (x : spec_float) : bool :=
  match x with S754_nan => true | _ => false end.
Definition is_zero (x : spec_float) : bool :=
  match x with S754_zero _ => true | _ => false end.
Definition is_finite (x : spec_float) : bool :=
  match x with S754_zero _ | S754_finite _ _ _ => true | _ => false end.

(** [np.sqrt(np.finfo(np.float64).eps)]: the square root of [2^-52]. *)
Definition sqrt_eps := S754_finite false 4503599627370496 (-78).

(** The double [k / 2^53]. *)
Definition of_53bits (k : Z) := binary_normalize prec emax k (-53) false.
End F64.

Abbreviation float := spec_float.
Abbreviation label := Z.
Abbreviation addr := nat.

(** ** Python values handed to the methods *)

(** An argument of [change_weight].  A [str] is represented by what the
    builtin [float] reads in it: the number it spells, or nothing. *)
Inductive pyobj :=
  | PyFloat (f : float)      (* 3.5, float('inf'), float('nan') *)
  | PyInt (z : Z)            (* 3, 10**400 *)
  | PyNumStr (f : float)     (* '2.5', 'inf', 'nan': a str spelling [f] *)
  | PyBadStr                 (* any other str *)
  | PyNone.                  (* None, or any object float() does not accept *)

(** An argument of [Die.__init__]. *)
Inductive pyseq :=
  | NdArray (xs : list label)
  | PyList (xs : list label).

(** An argument of [Analyzer.__init__]. *)
Inductive pyref :=
  | GameRef (a : addr)
  | DieRef (a : addr)
  | NoneRef.

(** The builtin [float(v)]. *)
Definition py_float (v : pyobj) : exn + float :=
  match v with
  | PyFloat f => inr f
  | PyInt z =>
      let f := F64.of_Z z in
      if F64.is_finite f then inr f
      else inl (Raise OverflowError "int too large to convert to float")
  | PyNumStr f => inr f
  | PyBadStr => inl (Raise ValueError "could not convert string to float")
  | PyNone =>
      inl (Raise TypeError "float() argument must be a string or a real number")
  end.

(** ** Objects and the store *)

(** [Die.__df]: the frame indexed by face with the column ['weight'], as its
    rows in index order. *)
Record Die := { __df : list (label * float) }.

(** A pandas frame with a default row index: the column keys and the rows. *)
Record frame (A : Type) := Frame { columns : list Z; rows : list (list A) }.
Arguments Frame {A} _ _.
Arguments columns {A} _.
Arguments rows {A} _.

Abbreviation DataFrame := (frame label).

Record Game := { dice : list addr; _play_df : option addr }.

Record Analyzer := { game : addr; results : addr }.

(** [np.random]'s global generator: the 53-bit integers behind its uniform
    doubles, and how many were consumed. *)
Record rng := { rng_stream : nat -> Z; rng_pos : nat }.

Record store := Store {
  st_dice : gmap addr Die;
  st_games : gmap addr Game;
  st_frames : gmap addr DataFrame;
  st_rng : rng }.

(** ** The monad of methods: store passing with exceptions *)

Definition M (A : Type) : Type := store -> (exn + A) * store.

Definition ret {A} (a : A) : M A := fun s => (inr a, s).

Definition bind {A B} (m : M A) (k : A -> M B) : M B :=
  fun s =>
    match m s with
    | (inl e, s') => (inl e, s')
    | (inr a, s') => k a s'
    end.

Definition raise {A} (c : exn_class) (msg : string) : M A :=
  fun s => (inl (Raise c msg), s).

Definition lift {A} (r : exn + A) : M A := fun s => (r, s).

Notation "'let!' x ':=' m 'in' k" := (bind m (fun x => k))
  (at level 10, x pattern, m at level 100, k at level 200).

Definition get_die (a : addr) : M Die :=
  fun s =>
    match st_dice s !! a with
    | Some d => (inr d, s)
    | None => (inl (Raise AttributeError "object is not a Die"), s)
    end.

Definition put_die (a : addr) (d : Die) : M unit :=
  fun s => (inr tt, Store (<[a := d]> (st_dice s)) (st_games s) (st_frames s) (st_rng s)).

Definition new_die (d : Die) : M addr :=
  fun s =>
    let a := fresh (dom (st_dice s)) in
    (inr a, Store (<[a := d]> (st_dice s)) (st_games s) (st_frames s) (st_rng s)).

Definition get_game (a : addr) : M Game :=
  fun s =>
    match st_games s !! a with
    | Some g => (inr g, s)
    | None => (inl (Raise AttributeError "object is not a Game"), s)
    end.

Definition put_game (a : addr) (g : Game) : M unit :=
  fun s => (inr tt, Store (st_dice s) (<[a := g]> (st_games s)) (st_frames s) (st_rng s)).

Definition new_game (g : Game) : M addr :=
  fun s =>
    let a := fresh (dom (st_games s)) in
    (inr a, Store (st_dice s) (<[a := g]> (st_games s)) (st_frames s) (st_rng s)).

Definition get_frame (a : addr) : M DataFrame :=
  fun s =>
    match st_frames s !! a with
    | Some df => (inr df, s)
    | None => (inl (Raise AttributeError "object is not a DataFrame"), s)
    end.

(** A frame object that did not exist before: [pd.DataFrame(...)] and
    [DataFrame.copy()]. *)
Definition new_frame (df : DataFrame) : M addr :=
  fun s =>
    let a := fresh (dom (st_frames s)) in
    (inr a, Store (st_dice s) (st_games s) (<[a := df]> (st_frames s)) (st_rng s)).

Definition copy (a : addr) : M addr :=
  let! df := get_frame a in new_frame df.

(** ** NumPy *)

(** [ndarray.sum()] of a float array is NumPy's pairwise summation
    ([DOUBLE_pairwise_sum]), added to the initial value [0.0] of the
    reduction.

    The block for 8 to 128 elements: eight accumulators start from the
    first eight elements and take every eighth element after them; they
    are added up as [((r0 + r1) + (r2 + r3)) + ((r4 + r5) + (r6 + r7))], and
    the [n % 8] elements left are added one by one. *)
Fixpoint pairwise_block (r0 r1 r2 r3 r4 r5 r6 r7 : float) (a : list float) : float :=
  match a with
  | x0 :: x1 :: x2 :: x3 :: x4 :: x5 :: x6 :: x7 :: a' =>
      pairwise_block (F64.add r0 x0) (F64.add r1 x1) (F64.add r2 x2) (F64.add r3 x3)
                     (F64.add r4 x4) (F64.add r5 x5) (F64.add r6 x6) (F64.add r7 x7) a'
  | _ =>
      fold_left F64.add a
        (F64.add (F64.add (F64.add r0 r1) (F64.add r2 r3))
                 (F64.add (F64.add r4 r5) (F64.add r6 r7)))
  end.

(** Up to 128 elements: fewer than eight are added from the left, starting
    from [-0.0]; eight and more go through the block. *)
Definition pairwise_small (a : list float) : float :=
  match a with
  | r0 :: r1 :: r2 :: r3 :: r4 :: r5 :: r6 :: r7 :: a' =>
      pairwise_block r0 r1 r2 r3 r4 r5 r6 r7 a'
  | _ => fold_left F64.add a (S754_zero true)
  end.

(** More than 128 elements are cut in two, the first part of
    [n / 2 - (n / 2) % 8] elements, and the sums of the parts added.  Every
    cut gives shorter parts, so [length a] levels are enough. *)
Fixpoint pairwise_sum_rec (fuel : nat) (a : list float) : float :=
  match fuel with
  | S fuel' =>
      if decide (128 < length a)%nat then
        let n2 := (length a / 2 - (length a / 2) mod 8)%nat in
        F64.add (pairwise_sum_rec fuel' (firstn n2 a))
                (pairwise_sum_rec fuel' (skipn n2 a))
      else pairwise_small a
  | O => pairwise_small a
  end.

Definition pairwise_sum (a : list float) : float := pairwise_sum_rec (length a) a.

Definition np_sum (xs : list float) : float := F64.add F64.zero (pairwise_sum xs).

(** [xs / d], element by element.  A division by zero is no exception in
    NumPy: it gives an infinity or NaN. *)
Definition np_divide (xs : list float) (d : float) : list float :=
  map (fun x => F64.div x d) xs.

(** [len(np.unique(xs))] is all [Die.__init__] uses. *)
Definition np_unique (xs : list label) : list label :=
  merge_sort Z.le (remove_dups xs).

Fixpoint kahan_loop (sum c : float) (xs : list float) : float :=
  match xs with
  | [] => sum
  | x :: xs' =>
      let y := F64.sub x c in
      let t := F64.add sum y in
      kahan_loop t (F64.sub (F64.sub t sum) y) xs'
  end.

(** [kahan_sum] of [numpy/random], which starts from the first element.  On
    an empty buffer the C code reads a double that is not there; it is zero
    here. *)
Definition kahan_sum (xs : list float) : float :=
  match xs with
  | [] => F64.zero
  | x :: xs' => kahan_loop x F64.zero xs'
  end.

Fixpoint cumsum_from (acc : float) (xs : list float) : list float :=
  match xs with
  | [] => []
  | x :: xs' => F64.add acc x :: cumsum_from (F64.add acc x) xs'
  end.

Definition np_cumsum (xs : list float) : list float :=
  match xs with
  | [] => []
  | x :: xs' => x :: cumsum_from x xs'
  end.

(** The order of [searchsorted], which puts NaN last. *)
Definition np_less (a b : float) : bool :=
  F64.ltb a b || (F64.is_nan b && negb (F64.is_nan a)).

(** The bisection of [searchsorted(..., side='right')].  The interval shrinks
    at every step, so [length arr] steps are enough. *)
Fixpoint binsearch_right (fuel : nat) (arr : list float) (key : float)
    (min_idx max_idx : nat) : nat :=
  match fuel with
  | O => min_idx
  | S fuel' =>
      if decide (min_idx < max_idx)%nat then
        let mid_idx := (min_idx + Nat.div2 (max_idx - min_idx))%nat in
        match arr !! mid_idx with
        | Some mid_val =>
            if np_less key mid_val
            then binsearch_right fuel' arr key min_idx mid_idx
            else binsearch_right fuel' arr key (S mid_idx) max_idx
        | None => min_idx
        end
      else min_idx
  end.

Definition searchsorted_right (arr : list float) (key : float) : nat :=
  binsearch_right (length arr) arr key 0 (length arr).

(** [random_sample(n)]: [n] doubles of [[0, 1)], each a 53-bit integer over
    [2^53]. *)
Definition random_sample (n : nat) : M (list float) :=
  fun s =>
    let g := st_rng s in
    (inr (map (fun i => F64.of_53bits (rng_stream g (rng_pos g + i)%nat `mod` 2 ^ 53))
              (seq 0 n)),
     Store (st_dice s) (st_games s) (st_frames s)
           {| rng_stream := rng_stream g; rng_pos := (rng_pos g + n)%nat |}).

(** [a[idx]] for an array of indices. *)
Fixpoint take (a : list label) (idx : list nat) : M (list label) :=
  match idx with
  | [] => ret []
  | i :: idx' =>
      match a !! i with
      | Some x => let! xs := take a idx' in ret (x :: xs)
      | None => raise IndexError "index is out of bounds for axis 0"
      end
  end.

(** [np.random.choice(a, size=size, replace=True, p=p)]. *)
Definition np_random_choice (a : list label) (size : Z) (p : list float)
    : M (list label) :=
  if decide (a = [] /\ size <> 0) then
    raise ValueError "'a' cannot be empty unless no samples are taken"
  else if decide (length p <> length a) then
    raise ValueError "'a' and 'p' must have same size"
  else
    let p_sum := kahan_sum p in
    if F64.is_nan p_sum then
      raise ValueError "probabilities contain NaN"
    else if existsb (fun x => F64.ltb x F64.zero) p then
      raise ValueError "probabilities are not non-negative"
    else if F64.ltb F64.sqrt_eps (F64.abs (F64.sub p_sum F64.one)) then
      raise ValueError "probabilities do not sum to 1"
    else
      let cdf := np_cumsum p in
      match last cdf with
      | None => raise IndexError "index -1 is out of bounds for axis 0 with size 0"
      | Some total =>
          let cdf := np_divide cdf total in
          if decide (size < 0) then
            raise ValueError "negative dimensions are not allowed"
          else
            let! uniform_samples := random_sample (Z.to_nat size) in
            take a (map (searchsorted_right cdf) uniform_samples)
      end.

(** ** pandas *)

(** Row [i] of the frame built from columns of [n] values each. *)
Definition transpose (n : nat) (cols : list (list label)) : list (list label) :=
  map (fun i => omap (fun c => c !! i) cols) (seq 0 n).

(** [pd.DataFrame(data)] for a dict of lists, in insertion order.  An empty
    dict gives the frame with no column and no row. *)
Definition pd_DataFrame (data : list (Z * list label)) : M DataFrame :=
  match data with
  | [] => ret (Frame [] [])
  | (_, c) :: _ =>
      if forallb (fun kc => bool_decide (length kc.2 = length c)) data then
        ret (Frame (data.*1) (transpose (length c) (data.*2)))
      else raise ValueError "All arrays must be of the same length"
  end.

(** [DataFrame.stack()] with the index names ['Roll'] and ['Die'] and the
    value column ['Outcome']: one entry per cell, row after row.  (The cells
    it would drop are the missing ones; a face is never missing.) *)
Definition stack (df : DataFrame) : list (Z * Z * label) :=
  concat (imap (fun i row => zip_with (fun j v => (Z.of_nat i, j, v)) (columns df) row)
               (rows df)).

(** [Series.nunique()]. *)
Definition nunique (row : list label) : nat := length (remove_dups row).

(** [Series.value_counts()]: every distinct value with its number of
    occurrences.  The order of the entries (by falling count) is not kept. *)
Definition value_counts `{Countable K} (xs : list K) : gmap K nat :=
  foldr (fun x m => <[x := S (default 0%nat (m !! x))]> m) ∅ xs.

(** [DataFrame.apply(func, axis=1)] when [func] returns neither a Series nor
    a frame: the Series of the results, row by row.  (pandas raises for a
    frame with rows and no column when [func] returns a tuple;
    [pd_DataFrame] builds no such frame.) *)
Definition apply_reduce {B} (func : list label -> B) (df : DataFrame) : list B :=
  map func (rows df).

(** The index of the Series [Series.value_counts()] returns: the distinct
    values by falling count, and values of one count in the order of their
    first occurrence (the sort of pandas keeps them so).  A value goes in
    front of the first value with a smaller count. *)
Fixpoint insert_by_count (count : label -> nat) (x : label) (idx : list label)
    : list label :=
  match idx with
  | [] => [x]
  | y :: idx' =>
      if decide (count y < count x)%nat then x :: idx
      else y :: insert_by_count count x idx'
  end.

Definition value_counts_index (xs : list label) : list label :=
  foldl (fun idx x =>
           insert_by_count (fun y => length (filter (fun z => z = y) xs)) x idx)
        [] (rev (remove_dups (rev xs))).

(** A Series of counts: its index, in order, and the count at each label. *)
Record series := Series { s_index : list label; s_values : gmap label nat }.

Definition value_counts_series (xs : list label) : series :=
  Series (value_counts_index xs) (value_counts xs).

(** [DataFrame.apply(func, axis=1)] when [func] returns a Series of counts.
    When an axis of the frame is empty pandas does not call [func] on rows:
    it returns a copy of the frame ([apply_empty_result]).  Otherwise the
    results are aligned.  When they all have one index, in one order, that
    index gives the columns; otherwise the columns are the union of the
    indexes, in ascending order.  A value a row does not have is missing
    ([None], pandas' NaN). *)
Definition apply_series (func : list label -> series) (df : DataFrame)
    : frame (option nat) :=
  if decide (columns df = [] \/ rows df = []) then
    Frame (columns df) (map (fun _ => []) (rows df))
  else
    let res := map func (rows df) in
    let cols :=
      match res with
      | r :: rest =>
          if forallb (fun r' => bool_decide (s_index r' = s_index r)) rest
          then s_index r
          else merge_sort Z.le
                 (elements (⋃ ((fun r' => list_to_set (s_index r') : gset label) <$> res)))
      | [] => []
      end in
    Frame cols (map (fun r => map (fun c => s_values r !! c) cols) res).

Definition fillna {A} (v : A) (df : frame (option A)) : frame A :=
  Frame (columns df) (map (map (default v)) (rows df)).

Definition astype_int (df : frame nat) : frame Z :=
  Frame (columns df) (map (map Z.of_nat) (rows df)).

(** ** class Die *)

(** [df.loc[face, 'weight'] = w]. *)
Definition loc_set (df : list (label * float)) (face : label) (w : float)
    : list (label * float) :=
  map (fun r => if decide (r.1 = face) then (r.1, w) else r) df.

Definition Die_init (faces : pyseq) : M addr :=
  match faces with
  | PyList _ => raise TypeError "Faces must be a NumPy array."
  | NdArray xs =>
      if decide (length (np_unique xs) <> length xs) then
        raise ValueError "All face values must be unique."
      else new_die {| __df := map (fun f => (f, F64.one)) xs |}
  end.

Definition change_weight (self : addr) (face : label) (new_weight : pyobj) : M unit :=
  let! d := get_die self in
  if decide (face ∉ (__df d).*1) then raise IndexError "Not a valid face."
  else
    match py_float new_weight with
    | inr w => put_die self {| __df := loc_set (__df d) face w |}
    | inl e =>
        match exn_cls e with
        | ValueError | TypeError => raise TypeError "Weight must be numeric."
        | _ => lift (inl e)
        end
    end.

Definition roll (self : addr) (times : Z) : M (list label) :=
  let! d := get_die self in
  let faces := (__df d).*1 in
  let weights := (__df d).*2 in
  np_random_choice faces times (np_divide weights (np_sum weights)).

Definition Die_show (self : addr) : M (list (label * float)) :=
  let! d := get_die self in ret (__df d).

(** ** class Game *)

Definition Game_init (dice_list : list addr) : M addr :=
  new_game {| dice := dice_list; _play_df := None |}.

(** The loop of [play]: [res] is the dict [results] filled so far, [i] the
    position [enumerate] has reached. *)
Fixpoint play_loop (i : Z) (ds : list addr) (num_rolls : Z)
    (res : list (Z * list label)) : M (list (Z * list label)) :=
  match ds with
  | [] => ret res
  | die :: ds' =>
      let! rolls := roll die num_rolls in
      play_loop (i + 1) ds' num_rolls (res ++ [(i, rolls)])
  end.

(** [self._play_df] is assigned once the loop is over and the frame built.
    (The name ['Roll'] given to the index of the frame is not kept.) *)
Definition play (self : addr) (num_rolls : Z) : M unit :=
  let! g := get_game self in
  let! res := play_loop 0 (dice g) num_rolls [] in
  let! df := pd_DataFrame res in
  let! a := new_frame df in
  let! g := get_game self in
  put_game self {| dice := dice g; _play_df := Some a |}.

(** What [show] returns: a new wide frame, or the narrow table. *)
Inductive shown :=
  | Wide (a : addr)
  | Narrow (t : list (Z * Z * label)).

Definition show (self : addr) (form : string) : M shown :=
  let! g := get_game self in
  match _play_df g with
  | None => raise ValueError "No game has been played yet."
  | Some df =>
      if decide (form = "wide") then
        let! a := copy df in ret (Wide a)
      else if decide (form = "narrow") then
        let! wide := get_frame df in ret (Narrow (stack wide))
      else raise ValueError "Invalid form. Use 'wide' or 'narrow'."
  end.

(** ** class Analyzer *)

Definition Analyzer_init (g : pyref) : M Analyzer :=
  match g with
  | GameRef ga =>
      let! w := show ga "wide" in
      match w with
      | Wide a => let! r := copy a in ret {| game := ga; results := r |}
      | Narrow _ => raise TypeError "not a frame"  (* not reached: form is 'wide' *)
      end
  | _ => raise ValueError "Input must be a Game object."
  end.

(** The four queries, as functions of the frame [self.results]. *)

Definition jackpot_of (res : DataFrame) : Z :=
  Z.of_nat (length (filter (fun n => n = 1%nat) (apply_reduce nunique res))).

Definition face_counts_per_roll_of (res : DataFrame) : frame Z :=
  let counts := apply_series (fun row => value_counts_series row) res in
  astype_int (fillna 0%nat counts).

Definition combo_count_of (res : DataFrame) : gmap (list label) nat :=
  let combos := apply_reduce (fun row => merge_sort Z.le row) res in
  value_counts combos.

Definition permutation_count_of (res : DataFrame) : gmap (list label) nat :=
  let perms := apply_reduce (fun row => row) res in
  value_counts perms.

Definition jackpot (self : Analyzer) : M Z :=
  let! res := get_frame (results self) in ret (jackpot_of res).

Definition face_counts_per_roll (self : Analyzer) : M (frame Z) :=
  let! res := get_frame (results self) in ret (face_counts_per_roll_of res).

Definition combo_count (self : Analyzer) : M (gmap (list label) nat) :=
  let! res := get_frame (results self) in ret (combo_count_of res).

Definition permutation_count (self : Analyzer) : M (gmap (list label) nat) :=
  let! res := get_frame (results self) in ret (permutation_count_of res).

(** ** Notions the properties are stated with *)

(** The weight mapping of a die. *)
Definition weight_map (d : Die) : gmap label float := list_to_map (__df d).

(** The probabilities [roll] hands to [np.random.choice]. *)
Definition probabilities (d : Die) : list float :=
  np_divide (__df d).*2 (np_sum (__df d).*2).

(** The three tests of [np.random.choice] on [p], all passed. *)
Definition accepted (p : list float) : bool :=
  negb (F64.is_nan (kahan_sum p))
  && negb (existsb (fun x => F64.ltb x F64.zero) p)
  && negb (F64.ltb F64.sqrt_eps (F64.abs (F64.sub (kahan_sum p) F64.one))).

(** The running total of [p] ends on a finite number other than zero, so
    that dividing the totals by it ends on 1. *)
Definition normalisable (p : list float) : bool :=
  match last (np_cumsum p) with
  | Some (S754_finite _ _ _) => true
  | _ => false
  end.

(** What [play] stores: the columns are the positions 0, 1, ... of the dice,
    every row has a cell for every column, and there is no row when there
    is no die. *)
Definition results_table (df : DataFrame) : Prop :=
  columns df = Z.of_nat <$> seq 0 (length (columns df))
  /\ Forall (fun row => length row = length (columns df)) (rows df)
  /\ (columns df = [] -> rows df = []).

(** The way back from the narrow table, in the words of the specification:
    "grouping by round, ordering by generator index". *)
Definition by_generator (a b : Z * Z * label) : Prop := a.1.2 <= b.1.2.

#[global] Instance by_generator_dec : RelDecision by_generator :=
  fun a b => decide (a.1.2 <= b.1.2).

Definition regroup_by_round (t : list (Z * Z * label)) : list (list label) :=
  let rounds := merge_sort Z.le (remove_dups (map (fun e => e.1.1) t)) in
  map (fun r => map snd (merge_sort by_generator (filter (fun e => e.1.1 = r) t)))
      rounds.

(** The counts of a frequency table, added up. *)
Definition total `{Countable K} (m : gmap K nat) : nat :=
  map_fold (fun _ c acc => (c + acc)%nat) 0%nat m.

(** A history of calls on one game and its dice.  The caller goes on after
    an exception: [run] gives the outcome of every call and the store the
    calls leave. *)
Inductive call :=
  | Play (num_rolls : Z)
  | Show (form : string)
  | ChangeWeight (die : addr) (face : label) (new_weight : pyobj)
  | Roll (die : addr) (times : Z).

Definition exec (g : addr) (c : call) : M unit :=
  match c with
  | Play num_rolls => play g num_rolls
  | Show form => let! _ := show g form in ret tt
  | ChangeWeight die face new_weight => change_weight die face new_weight
  | Roll die times => let! _ := roll die times in ret tt
  end.

Fixpoint run (g : addr) (cs : list call) (s : store) : list (exn + unit) * store :=
  match cs with
  | [] => ([], s)
  | c :: cs' =>
      let '(r, s') := exec g c s in
      let '(rs, s'') := run g cs' s' in
      (r :: rs, s'')
  end.

(** Some [play] of the history returned. *)
Definition played (cs : list call) (outs : list (exn + unit)) : Prop :=
  exists i n, cs !! i = Some (Play n) /\ outs !! i = Some (inr tt).

(** The two exceptions of [Game.show]. *)
Definition no_results_yet : exn := Raise ValueError "No game has been played yet.".
Definition invalid_form : exn :=
  Raise ValueError "Invalid form. Use 'wide' or 'narrow'.".

(** The [i]-th uniform double [random_sample] draws next from the
    generator [g]. *)
Definition uniform (g : rng) (i : nat) : float :=
  F64.of_53bits (rng_stream g (rng_pos g + i)%nat `mod` 2 ^ 53).

(** [cdf] of [np.random.choice] once it is divided by its last entry
    ([cdf /= cdf[-1]]). *)
Definition normalised_cdf (p : list float) : list float :=
  match last (np_cumsum p) with
  | Some total => np_divide (np_cumsum p) total
  | None => []
  end.

(** The store after [n] draws from the generator. *)
Definition advance (n : nat) (s : store) : store :=
  Store (st_dice s) (st_games s) (st_frames s)
        {| rng_stream := rng_stream (st_rng s); rng_pos := (rng_pos (st_rng s) + n)%nat |}.

(** Two floats that compare as the same number: the same float, or two
    zeros, whatever their signs. *)
Definition same_value (x y : float) : Prop :=
  x = y \/ (F64.is_zero x = true /\ F64.is_zero y = true).

(** Infinities and NaN. *)
Definition non_finite (x : float) : Prop := F64.is_finite x = false.

(** * Properties *)

(** ** binary64 facts *)

Section Float.

Implicit Types x y c : float.






(** A finite number divided by itself is exactly 1. *)
Lemma div_self s m e :
  F64.div (S754_finite s m e) (S754_finite s m e) = F64.one.
Proof.
  unfold F64.div, SFdiv, SFdiv_core_binary.
  replace (Zdigits2 (Z.pos m) + e - (Zdigits2 (Z.pos m) + e)) with 0 by lia.
  replace (e - e) with 0 by lia.
  change (Z.min (fexp F64.prec F64.emax 0) 0) with (-53).
  change (0 - -53) with 53.
  cbv beta iota zeta.
  replace (Z.div_eucl (Z.shiftl (Z.pos m) 53) (Z.pos m)) with (2 ^ 53, 0).
  - rewrite xorb_nilpotent. unfold new_location.
    by destruct (Z.even (Z.pos m)).
  - rewrite Z.shiftl_mul_pow2 by lia.
    pose proof (Z.div_eucl_eq (Z.pos m * 2 ^ 53) (Z.pos m) ltac:(lia)) as Heq.
    pose proof (Z.mod_pos_bound (Z.pos m * 2 ^ 53) (Z.pos m) ltac:(lia)) as Hb.
    unfold Z.modulo in Hb.
    destruct (Z.div_eucl (Z.pos m * 2 ^ 53) (Z.pos m)) as [q r].
    assert (q = 2 ^ 53) by nia. assert (r = 0) by nia. by subst.
Qed.

Lemma digits2_pos_size m : digits2_pos m = Pos.size m.
Proof. induction m; simpl; congruence. Qed.

Lemma digits2_pos_iter m n :
  digits2_pos (Pos.iter xO m n) = (digits2_pos m + n)%positive.
Proof.
  induction n as [|n IH] using Pos.peano_ind.
  - simpl. lia.
  - rewrite Pos.iter_succ. simpl. rewrite IH. lia.
Qed.

Lemma digits2_pos_le_53 m : Z.pos m < 2 ^ 53 -> Z.pos (digits2_pos m) <= 53.
Proof.
  intros Hm. rewrite digits2_pos_size.
  pose proof (Pos.size_le m) as Hle.
  apply Pos2Z.pos_le_pos in Hle. rewrite Pos2Z.inj_pow in Hle.
  change (Z.pos m~0) with (2 * Z.pos m) in Hle.
  destruct (Z.le_gt_cases (Z.pos (Pos.size m)) 53) as [|Hgt]; [done|].
  assert (2 ^ 54 <= 2 ^ Z.pos (Pos.size m)) by (apply Z.pow_le_mono_r; lia).
  change (2 ^ 54) with (2 * 2 ^ 53) in *. lia.
Qed.

Lemma binary_round_aux_canonical s mz ez :
  Z.pos (digits2_pos mz) = 53 -> -1074 <= ez <= 971 ->
  binary_round_aux F64.prec F64.emax s (Z.pos mz) ez loc_Exact = S754_finite s mz ez.
Proof.
  intros Hd He.
  assert (Hn : fexp F64.prec F64.emax (Z.pos (digits2_pos mz) + ez) - ez = 0).
  { rewrite Hd. unfold fexp, emin, F64.prec, F64.emax. lia. }
  unfold binary_round_aux, shr_fexp. simpl. rewrite Hn. simpl. rewrite Hn. simpl.
  unfold F64.emax, F64.prec.
  destruct (Z.leb_spec ez (1024 - 53)); [done|lia].
Qed.

Lemma of_53bits_lt_one k :
  0 <= k < 2 ^ 53 -> F64.ltb (F64.of_53bits k) F64.one = true.
Proof.
  intros [Hk0 Hk]. destruct k as [|m|m]; [done| |lia].
  pose proof (digits2_pos_le_53 m Hk) as Hd.
  assert (Hf : fexp F64.prec F64.emax (Z.pos (digits2_pos m) + -53)
               = Z.pos (digits2_pos m) - 106).
  { unfold fexp, emin, F64.prec, F64.emax. lia. }
  unfold F64.of_53bits, binary_normalize, binary_round, shl_align.
  rewrite Hf.
  destruct (Z.pos (digits2_pos m) - 106 - -53) as [|d|d] eqn:Hs; [|lia|].
  - rewrite binary_round_aux_canonical by lia. done.
  - rewrite binary_round_aux_canonical.
    + unfold F64.ltb, SFltb, SFcompare, F64.one.
      by destruct (Z.compare_spec (Z.pos (digits2_pos m) - 106) (-52)); try lia.
    + rewrite digits2_pos_iter. lia.
    + lia.
Qed.

End Float.

(** ** NumPy facts *)

Section Search.
Variables (arr : list float) (key v : float).
Hypothesis Hlast : last arr = Some v.
Hypothesis Hless : np_less key v = true.

Lemma binsearch_right_bounds fuel : forall lo hi,
  (lo <= hi)%nat -> (lo <= binsearch_right fuel arr key lo hi <= hi)%nat.
Proof.
  induction fuel as [|fuel IH]; intros lo hi Hle; simpl; [lia|].
  case_decide; [|lia].
  pose proof (Nat.lt_div2 (hi - lo) ltac:(lia)).
  set (half := Nat.div2 (hi - lo)) in *. clearbody half.
  destruct (arr !! _) as [x|]; [|lia].
  destruct (np_less key x).
  - specialize (IH lo (lo + half)%nat ltac:(lia)). lia.
  - specialize (IH (S (lo + half)) hi ltac:(lia)). lia.
Qed.

Lemma binsearch_right_below fuel : forall lo,
  (lo < length arr)%nat ->
  (binsearch_right fuel arr key lo (length arr) < length arr)%nat.
Proof.
  induction fuel as [|fuel IH]; intros lo Hlo; simpl; [lia|].
  case_decide; [|lia].
  pose proof (Nat.lt_div2 (length arr - lo) ltac:(lia)) as Hd.
  set (half := Nat.div2 (length arr - lo)) in *. clearbody half.
  set (mid := (lo + half)%nat) in *.
  destruct (arr !! mid) as [x|] eqn:Hmid; [|lia].
  destruct (np_less key x) eqn:Hx.
  - pose proof (binsearch_right_bounds fuel lo mid ltac:(lia)). lia.
  - apply IH. destruct (decide (S mid = length arr)) as [Heq|]; [|lia].
    rewrite last_lookup in Hlast. replace (pred (length arr)) with mid in Hlast by lia.
    congruence.
Qed.

Lemma searchsorted_right_below :
  (searchsorted_right arr key < length arr)%nat.
Proof.
  apply binsearch_right_below. destruct arr; [done|simpl; lia].
Qed.
End Search.

Lemma take_spec a idx s :
  Forall (fun i => (i < length a)%nat) idx ->
  exists xs, take a idx s = (inr xs, s) /\ length xs = length idx /\ Forall (.∈ a) xs.
Proof.
  induction 1 as [|i idx Hi _ IH]; simpl.
  - by exists [].
  - destruct (lookup_lt_is_Some_2 a i Hi) as [x Hx]. rewrite Hx.
    destruct IH as (xs & Hxs & Hlen & Hin). exists (x :: xs).
    unfold bind. rewrite Hxs. simpl. split; [done|]. split; [by rewrite Hlen|].
    constructor; [|done]. by eapply list_elem_of_lookup_2.
Qed.

Lemma take_store a idx s r s' : take a idx s = (r, s') -> s' = s.
Proof.
  revert r s'. induction idx as [|i idx IH]; intros r s'; simpl.
  - unfold ret. by intros [= <- <-].
  - destruct (a !! i); [|by intros [= <- <-]]. unfold bind.
    destruct (take a idx s) as [[e|ys] s1]; rewrite (IH _ _ eq_refl).
    + by intros [= <- <-].
    + unfold ret. by intros [= <- <-].
Qed.

Lemma take_inv a idx s xs s' :
  take a idx s = (inr xs, s') -> s' = s /\ length xs = length idx.
Proof.
  revert xs s'. induction idx as [|i idx IH]; intros xs s'; simpl.
  - unfold ret. by intros [= <- <-].
  - destruct (a !! i); [|done]. unfold bind.
    destruct (take a idx s) as [[e|ys] s1]; [done|].
    destruct (IH ys s1 eq_refl) as [-> Hlen]. unfold ret. intros [= <- <-].
    simpl. by rewrite Hlen.
Qed.

Lemma length_np_cumsum p : length (np_cumsum p) = length p.
Proof.
  destruct p as [|x p]; [done|]. simpl. f_equal.
  generalize x. induction p as [|y p IH]; intros acc; simpl; [done|]. by rewrite IH.
Qed.

Lemma accepted_nil : accepted [] = false.
Proof. reflexivity. Qed.



(** ... and with one it accepts. *)
Lemma np_random_choice_draws a size p s :
  length p = length a -> accepted p = true -> normalisable p = true -> 0 <= size ->
  exists xs,
    np_random_choice a size p s
      = (inr xs, Store (st_dice s) (st_games s) (st_frames s)
                   {| rng_stream := rng_stream (st_rng s);
                      rng_pos := (rng_pos (st_rng s) + Z.to_nat size)%nat |})
    /\ length xs = Z.to_nat size /\ Forall (.∈ a) xs.
Proof.
  intros Hlen Hacc Hnorm Hsize. unfold np_random_choice.
  case_decide as Ha.
  { destruct Ha as [-> _]. destruct p; [|done]. by rewrite accepted_nil in Hacc. }
  case_decide; [done|].
  unfold accepted in Hacc. apply andb_prop in Hacc as [Hacc H3].
  apply andb_prop in Hacc as [H1 H2].
  apply negb_true_iff in H1, H2, H3. rewrite H1, H2, H3.
  unfold normalisable in Hnorm.
  destruct (last (np_cumsum p)) as [total|] eqn:Hlast; [|done].
  destruct total as [| | |sg m e]; try done.
  case_decide; [lia|].
  unfold bind, random_sample.
  set (us := map _ (seq 0 (Z.to_nat size))).
  set (s' := Store _ _ _ _).
  destruct (take_spec a (map (searchsorted_right
              (np_divide (np_cumsum p) (S754_finite sg m e))) us) s')
    as (xs & Hxs & Hl & Hin).
  - apply Forall_fmap, Forall_forall. intros u Hu. simpl.
    replace (length a) with
      (length (np_divide (np_cumsum p) (S754_finite sg m e)))
      by (unfold np_divide; by rewrite length_map, length_np_cumsum).
    apply searchsorted_right_below with (v := F64.one).
    + unfold np_divide. rewrite fmap_last, Hlast.
      exact (f_equal Some (div_self sg m e)).
    + apply list_elem_of_fmap in Hu as (i & -> & _).
      unfold np_less. rewrite of_53bits_lt_one; [done|].
      apply Z.mod_pos_bound. lia.
  - exists xs. rewrite Hxs. split; [done|]. split; [|done].
    rewrite Hl. unfold us. rewrite !length_map. apply length_seq.
Qed.

(** ** class Die *)

(** [np.random.choice] touches the generator only, and what it returns has
    the requested size. *)
Lemma np_random_choice_inv a size p s r s' :
  np_random_choice a size p s = (r, s') ->
  st_dice s' = st_dice s /\ st_games s' = st_games s /\ st_frames s' = st_frames s
  /\ forall xs, r = inr xs -> 0 <= size /\ length xs = Z.to_nat size.
Proof.
  unfold np_random_choice.
  repeat (case_decide; [by intros [= <- <-]|]).
  repeat (case_match; [by intros [= <- <-]|]).
  case_match; [|by intros [= <- <-]].
  case_decide; [by intros [= <- <-]|].
  unfold bind, random_sample. intros Ht.
  split_and!; [by rewrite (take_store _ _ _ _ _ Ht)..|].
  intros xs ->. apply take_inv in Ht as [_ ->].
  split; [lia|]. by rewrite !length_map, length_seq.
Qed.

Lemma roll_inv self times s r s' :
  roll self times s = (r, s') ->
  st_dice s' = st_dice s /\ st_games s' = st_games s /\ st_frames s' = st_frames s
  /\ forall xs, r = inr xs -> 0 <= times /\ length xs = Z.to_nat times.
Proof.
  unfold roll, bind, get_die. destruct (st_dice s !! self).
  - apply np_random_choice_inv.
  - by intros [= <- <-].
Qed.

Lemma weight_map_loc_set l face w :
  face ∈ l.*1 ->
  (list_to_map (loc_set l face w) : gmap label float) = <[face := w]> (list_to_map l).
Proof.
  assert (Hany : forall l : list (label * float),
    <[face := w]> (list_to_map (loc_set l face w) : gmap label float)
    = <[face := w]> (list_to_map l)).
  { clear l. induction l as [|[f x] l IH]; [done|]. simpl. case_decide; simplify_eq/=.
    - by rewrite !insert_insert_eq.
    - rewrite (insert_insert_ne _ face f) by done. rewrite IH.
      by rewrite (insert_insert_ne _ face f) by done. }
  induction l as [|[f x] l IH]; simpl; [by intros ?%elem_of_nil|].
  intros Hin. case_decide; simplify_eq/=.
  - rewrite insert_insert_eq. apply Hany.
  - apply elem_of_cons in Hin as [|Hin]; [done|].
    rewrite IH by done. by apply insert_insert_ne.
Qed.

Lemma faces_loc_set l face w : (loc_set l face w).*1 = l.*1.
Proof. induction l as [|[f x] l IH]; [done|]. simpl. case_decide; by f_equal. Qed.

(** C7, as the code has it: [change_weight] raises [IndexError] for a face
    that is not a face of the die; for a face of the die it raises
    [TypeError] when [float(new_weight)] raises [ValueError] or [TypeError],
    lets an [OverflowError] of [float] through, and otherwise stores the
    float it got, whatever it is (an infinity and NaN included): the faces
    stay, and the weight mapping changes at that face only.  A call that
    raises leaves the store as it was. *)
Theorem change_weight_spec s self d face new_weight :
  st_dice s !! self = Some d ->
  (face ∉ (__df d).*1 ->
     change_weight self face new_weight s
     = (inl (Raise IndexError "Not a valid face."), s))
  /\ (face ∈ (__df d).*1 -> forall e, py_float new_weight = inl e ->
       (exn_cls e = ValueError \/ exn_cls e = TypeError ->
          change_weight self face new_weight s
          = (inl (Raise TypeError "Weight must be numeric."), s))
       /\ (exn_cls e = OverflowError ->
          change_weight self face new_weight s = (inl e, s)))
  /\ (face ∈ (__df d).*1 -> forall w, py_float new_weight = inr w ->
       exists d',
         change_weight self face new_weight s
         = (inr tt, Store (<[self := d']> (st_dice s)) (st_games s) (st_frames s) (st_rng s))
         /\ (__df d').*1 = (__df d).*1
         /\ weight_map d' = <[face := w]> (weight_map d))
  /\ (forall f, py_float (PyFloat f) = inr f).
Proof.
  intros Hd. unfold change_weight, bind, get_die. rewrite Hd.
  split_and!.
  - intros Hf. by rewrite decide_True.
  - intros Hf e He. rewrite decide_False by (by intros ?). rewrite He.
    split.
    + by intros [-> | ->].
    + by intros ->.
  - intros Hf w Hw. rewrite decide_False by (by intros ?). rewrite Hw.
    eexists. split; [reflexivity|]. split.
    + apply faces_loc_set.
    + by apply weight_map_loc_set.
  - done.
Qed.

(** A die with the faces 1 and 2 and the weights 1.0, alone in the store. *)
Lemma change_weight_spec_witness :
  let d := {| __df := [(1, F64.one); (2, F64.one)] |} in
  let s := Store {[ 0%nat := d ]} ∅ ∅ {| rng_stream := fun _ => 0; rng_pos := 0 |} in
  change_weight 0 3 (PyInt 2) s = (inl (Raise IndexError "Not a valid face."), s)
  /\ change_weight 0 1 PyBadStr s = (inl (Raise TypeError "Weight must be numeric."), s)
  /\ exists d', fst (change_weight 0 1 (PyFloat F64.nan) s) = inr tt
       /\ weight_map d' = <[1 := F64.nan]> (weight_map d).
Proof.
  intros d s.
  assert (H1 : 1 ∈ (__df d).*1) by (apply (bool_decide_unpack _); exact I).
  assert (H3 : 3 ∉ (__df d).*1) by (apply (bool_decide_unpack _); exact I).
  destruct (change_weight_spec s 0%nat d 3 (PyInt 2) eq_refl) as [Ha _].
  destruct (change_weight_spec s 0%nat d 1 PyBadStr eq_refl) as (_ & Hb & _).
  destruct (change_weight_spec s 0%nat d 1 (PyFloat F64.nan) eq_refl)
    as (_ & _ & Hc & _).
  split; [exact (Ha H3)|]. split.
  - apply (Hb H1 _ eq_refl). by left.
  - destruct (Hc H1 F64.nan eq_refl) as (d' & -> & _ & Hw). by exists d'.
Defined.

(** C7 as stated fails: a weight that is not finite is not refused.  Setting
    the weight of face 1 to [float('inf')] succeeds. *)
Lemma change_weight_accepts_inf :
  ~ (forall s self d face f,
       st_dice s !! self = Some d -> face ∈ (__df d).*1 ->
       F64.is_finite f = false ->
       exists e, change_weight self face (PyFloat f) s = (inl e, s)).
Proof.
  intros H.
  pose (d := {| __df := [(1, F64.one)] |}).
  pose (s := Store {[ 0%nat := d ]} ∅ ∅ {| rng_stream := fun _ => 0; rng_pos := 0 |}).
  assert (Hd : st_dice s !! 0%nat = Some d) by reflexivity.
  destruct (H s 0%nat d 1 F64.inf Hd) as [e He].
  - apply (bool_decide_unpack _). exact I.
  - reflexivity.
  - discriminate He.
Qed.




(** ** pandas facts *)

Section ValueCounts.
Context `{Countable K}.
Implicit Types (xs : list K) (k : K).

Lemma filter_eq_not_elem_of xs k : k ∉ xs -> filter (fun x => x = k) xs = [].
Proof.
  intros Hk. destruct (filter _ xs) as [|y ys] eqn:Hf; [done|].
  assert (Hy : y ∈ filter (fun x => x = k) xs) by (rewrite Hf; left).
  apply list_elem_of_filter in Hy as [-> ?]. done.
Qed.

Lemma value_counts_lookup xs k :
  value_counts xs !! k
  = if decide (k ∈ xs) then Some (length (filter (fun x => x = k) xs)) else None.
Proof.
  induction xs as [|x xs IH]; simpl.
  - by rewrite lookup_empty.
  - rewrite filter_cons. destruct (decide (x = k)) as [->|Hne].
    + rewrite lookup_insert_eq, decide_True by left. rewrite IH.
      case_decide as Hk; simpl; [done|].
      by rewrite filter_eq_not_elem_of.
    + rewrite lookup_insert_ne, IH by done.
      destruct (decide (k ∈ xs)) as [Hk|Hk].
      * by rewrite decide_True by (by right).
      * rewrite decide_False; [done|]. by intros [->|?]%elem_of_cons.
Qed.

Lemma total_insert (m : gmap K nat) k n :
  total (<[k := n]> m) = (n + total m - default 0 (m !! k))%nat.
Proof.
  unfold total. destruct (m !! k) as [c|] eqn:Hk; simpl.
  - rewrite <-insert_delete_eq.
    rewrite map_fold_insert_L; [|intros; lia|apply lookup_delete_eq].
    rewrite (map_fold_delete_L _ _ k c m); [lia|intros; lia|done].
  - rewrite map_fold_insert_L; [lia|intros; lia|done].
Qed.

Lemma total_value_counts xs : total (value_counts xs) = length xs.
Proof.
  induction xs as [|x xs IH]; simpl; [done|].
  rewrite total_insert, IH. lia.
Qed.

End ValueCounts.

Lemma length_filter_fmap {A B} (f : A -> B) (P : B -> Prop) (Q : A -> Prop)
    `{!forall y, Decision (P y)} `{!forall x, Decision (Q x)} (l : list A) :
  (forall x, P (f x) <-> Q x) ->
  length (filter P (f <$> l)) = length (filter Q l).
Proof.
  intros HPQ. induction l as [|x l IH]; [done|].
  rewrite fmap_cons, !filter_cons.
  destruct (decide (P (f x))) as [HP|HP], (decide (Q x)) as [HQ|HQ]; simpl;
    rewrite ?IH; try done; by apply HPQ in HP || apply HPQ in HQ.
Qed.

(** [sorted(row)] is the same for two rows exactly when one is the other in
    another order. *)
Lemma sorted_eq_iff (r1 r2 : list label) :
  merge_sort Z.le r1 = merge_sort Z.le r2 <-> r1 ≡ₚ r2.
Proof.
  split.
  - intros Heq. rewrite <-(merge_sort_Permutation Z.le r1), Heq.
    apply merge_sort_Permutation.
  - intros Hp. apply (Sorted_unique Z.le); try apply Sorted_merge_sort; try apply _.
    by rewrite !merge_sort_Permutation.
Qed.

(** ** class Analyzer: the frequency tables *)

(** C1: [combo_count] files every row under its sorted tuple, which is the
    same for two rows that hold the same faces in another order, and the
    count of that key is the number of such rows; [permutation_count] files
    every row under the row itself and counts the rows equal to it.  For the
    rows (1,1), (3,2), (1,1) the combinations are (1,1) twice and (2,3) once
    and the permutations (1,1) twice and (3,2) once; for the rows (2,3) and
    (3,2) there is the one combination (2,3), counted twice, and there are
    two permutations, counted once each. *)
Theorem combo_permutation_keys df :
  results_table df ->
  (forall r1 r2 : list label,
     r1 ≡ₚ r2 <-> merge_sort Z.le r1 = merge_sort Z.le r2)
  /\ (forall row, row ∈ rows df ->
        Sorted Z.le (merge_sort Z.le row)
        /\ merge_sort Z.le row ≡ₚ row
        /\ combo_count_of df !! merge_sort Z.le row
           = Some (length (filter (fun r => r ≡ₚ row) (rows df)))
        /\ permutation_count_of df !! row
           = Some (length (filter (fun r => r = row) (rows df))))
  /\ (forall key, is_Some (combo_count_of df !! key)
        <-> exists row, row ∈ rows df /\ key = merge_sort Z.le row)
  /\ (forall key, is_Some (permutation_count_of df !! key) <-> key ∈ rows df)
  /\ combo_count_of (Frame [0; 1] [[1; 1]; [3; 2]; [1; 1]])
     = {[ [1; 1] := 2%nat; [2; 3] := 1%nat ]}
  /\ permutation_count_of (Frame [0; 1] [[1; 1]; [3; 2]; [1; 1]])
     = {[ [1; 1] := 2%nat; [3; 2] := 1%nat ]}
  /\ combo_count_of (Frame [0; 1] [[2; 3]; [3; 2]]) = {[ [2; 3] := 2%nat ]}
  /\ permutation_count_of (Frame [0; 1] [[2; 3]; [3; 2]])
     = {[ [2; 3] := 1%nat; [3; 2] := 1%nat ]}.
Proof.
  intros _. unfold combo_count_of, permutation_count_of, apply_reduce.
  refine (conj _ (conj _ (conj _ (conj _ (conj _ (conj _ (conj _ _)))))));
    try by vm_compute.
  - intros r1 r2. symmetry. apply sorted_eq_iff.
  - intros row Hrow. refine (conj _ (conj _ (conj _ _))).
    + apply Sorted_merge_sort, _.
    + apply merge_sort_Permutation.
    + rewrite value_counts_lookup, decide_True
        by (apply list_elem_of_fmap; eauto).
      f_equal. apply length_filter_fmap. intros r. apply sorted_eq_iff.
    + by rewrite value_counts_lookup, list_fmap_id, decide_True by done.
  - intros key. rewrite value_counts_lookup. case_decide as Hk.
    + split; [intros _|by eauto].
      apply list_elem_of_fmap in Hk as (row & -> & ?). eauto.
    + split; [by intros []|]. intros (row & ? & ->). destruct Hk.
      apply list_elem_of_fmap. eauto.
  - intros key. rewrite value_counts_lookup, list_fmap_id.
    case_decide; [by eauto|]. split; [by intros []|done].
Qed.

Lemma combo_permutation_keys_witness :
  let df := Frame [0; 1] [[2; 3]; [1; 1]; [3; 2]] in
  combo_count_of df !! [2; 3] = Some 2%nat
  /\ permutation_count_of df !! [3; 2] = Some 1%nat.
Proof.
  intros df.
  assert (Hdf : results_table df) by (by repeat constructor).
  destruct (combo_permutation_keys df Hdf) as (_ & Hrow & _).
  destruct (Hrow [3; 2]) as (_ & _ & Hc & Hp).
  - apply (bool_decide_unpack _). exact I.
  - split; [exact Hc|exact Hp].
Defined.

(** C10: the counts of [combo_count] add up to the number of rows, and so
    do the counts of [permutation_count]. *)
Theorem counts_add_up df :
  results_table df ->
  total (combo_count_of df) = length (rows df)
  /\ total (permutation_count_of df) = length (rows df).
Proof.
  intros _. unfold combo_count_of, permutation_count_of, apply_reduce.
  by rewrite !total_value_counts, !length_map.
Qed.

Lemma counts_add_up_witness :
  let df := Frame [0; 1] [[2; 3]; [1; 1]; [3; 2]] in
  total (combo_count_of df) = 3%nat /\ total (permutation_count_of df) = 3%nat.
Proof.
  intros df. apply (counts_add_up df). by repeat constructor.
Defined.

(** ** class Analyzer: jackpots and face counts *)

Lemma nunique_one (row : list label) :
  nunique row = 1%nat <-> exists x, x ∈ row /\ forall y, y ∈ row -> y = x.
Proof.
  unfold nunique. split.
  - destruct (remove_dups row) as [|x [|? ?]] eqn:Hr; try done. intros _.
    exists x. split.
    + apply elem_of_remove_dups. rewrite Hr. left.
    + intros y Hy. apply elem_of_remove_dups in Hy. rewrite Hr in Hy.
      by apply list_elem_of_singleton in Hy.
  - intros (x & Hx & Hall).
    pose proof (NoDup_remove_dups row) as Hnd.
    assert (Hsame : forall y, y ∈ remove_dups row -> y = x)
      by (intros y Hy; apply Hall; by apply elem_of_remove_dups).
    apply elem_of_remove_dups in Hx.
    destruct (remove_dups row) as [|a [|b l]]; [by apply elem_of_nil in Hx|done|].
    rewrite (Hsame a), (Hsame b) in Hnd by (repeat constructor).
    apply NoDup_cons_1_1 in Hnd. destruct Hnd. left.
Qed.

(** The number of cells of [row] that hold [l]. *)
Lemma value_counts_default (row : list label) l :
  default 0%nat (value_counts row !! l) = length (filter (fun x => x = l) row).
Proof.
  rewrite value_counts_lookup. case_decide; [done|].
  by rewrite filter_eq_not_elem_of.
Qed.

Lemma indicator_zero (cols : list label) x :
  x ∉ cols ->
  foldr Z.add 0 ((fun l => if decide (x = l) then 1 else 0) <$> cols) = 0.
Proof.
  induction cols as [|c cols IH]; [done|].
  intros [Hc Hcols]%not_elem_of_cons. rewrite fmap_cons. cbn [foldr].
  by rewrite decide_False, IH.
Qed.

Lemma indicator_sum (cols : list label) x :
  NoDup cols -> x ∈ cols ->
  foldr Z.add 0 ((fun l => if decide (x = l) then 1 else 0) <$> cols) = 1.
Proof.
  induction 1 as [|c cols Hc Hnd IH]; [by intros ?%elem_of_nil|].
  intros Hx. rewrite fmap_cons. cbn [foldr]. case_decide as Hxc.
  - subst c. by rewrite indicator_zero.
  - apply elem_of_cons in Hx as [|Hx]; [done|]. by rewrite IH.
Qed.

Lemma counts_sum (cols row : list label) :
  NoDup cols -> (forall x, x ∈ row -> x ∈ cols) ->
  foldr Z.add 0 ((fun l => Z.of_nat (length (filter (fun x => x = l) row))) <$> cols)
  = Z.of_nat (length row).
Proof.
  intros Hnd. induction row as [|x row IH]; intros Hin.
  - clear. induction cols as [|c cols IH]; [done|].
    rewrite fmap_cons. cbn [foldr]. by rewrite IH.
  - assert (Hsplit : forall cs : list label,
      foldr Z.add 0 ((fun l => Z.of_nat (length (filter (fun y => y = l) (x :: row)))) <$> cs)
      = foldr Z.add 0 ((fun l => if decide (x = l) then 1 else 0) <$> cs)
        + foldr Z.add 0 ((fun l => Z.of_nat (length (filter (fun y => y = l) row))) <$> cs)).
    { induction cs as [|c cs IHc]; [done|].
      rewrite !fmap_cons. cbn [foldr]. rewrite IHc, filter_cons.
      case_decide; simpl length; lia. }
    rewrite Hsplit, IH, indicator_sum; [simpl; lia|done|..].
    + apply Hin. left.
    + intros y Hy. apply Hin. by right.
Qed.

Lemma insert_by_count_Permutation count x idx :
  insert_by_count count x idx ≡ₚ x :: idx.
Proof.
  induction idx as [|y idx IH]; [done|]. simpl. case_decide; [done|].
  rewrite IH. apply Permutation_swap.
Qed.

Lemma value_counts_index_Permutation xs : value_counts_index xs ≡ₚ remove_dups (rev xs).
Proof.
  unfold value_counts_index.
  set (c := fun y => length (filter (fun z => z = y) xs)).
  assert (Hfold : forall (l acc : list label),
    foldl (fun idx x => insert_by_count c x idx) acc l ≡ₚ l ++ acc).
  { induction l as [|x l IH]; intros acc; [done|]. simpl.
    rewrite IH, insert_by_count_Permutation. symmetry. apply Permutation_middle. }
  rewrite Hfold, app_nil_r. apply Permutation_sym, Permutation_rev.
Qed.

Lemma elem_of_value_counts_index xs l : l ∈ value_counts_index xs <-> l ∈ xs.
Proof.
  rewrite value_counts_index_Permutation, elem_of_remove_dups, !list_elem_of_In.
  symmetry. apply in_rev.
Qed.

Lemma NoDup_value_counts_index xs : NoDup (value_counts_index xs).
Proof. rewrite value_counts_index_Permutation. apply NoDup_remove_dups. Qed.

Lemma elem_of_seen_faces (rs : list (list label)) l :
  l ∈ merge_sort Z.le
        (elements (⋃ ((fun r' => list_to_set (s_index r') : gset label)
                        <$> map (fun row => value_counts_series row) rs)))
  <-> exists row, row ∈ rs /\ l ∈ row.
Proof.
  rewrite merge_sort_Permutation, elem_of_elements, elem_of_union_list.
  split.
  - intros (X & HX & Hl). apply list_elem_of_fmap in HX as (m & -> & Hm).
    apply list_elem_of_fmap in Hm as (row & -> & Hrow).
    exists row. split; [done|].
    cbn [s_index value_counts_series] in Hl.
    rewrite elem_of_list_to_set, elem_of_value_counts_index in Hl. exact Hl.
  - intros (row & Hrow & Hl).
    exists (list_to_set (value_counts_index row)). split.
    + apply list_elem_of_fmap. exists (value_counts_series row). split; [done|].
      apply list_elem_of_fmap. eauto.
    + by rewrite elem_of_list_to_set, elem_of_value_counts_index.
Qed.

(** What [face_counts_per_roll] gives for a frame with rows: a column for
    every face seen in a row, and in it, row by row, the number of cells
    that hold the face. *)
Lemma face_counts_per_roll_of_rows df :
  columns df <> [] -> rows df <> [] ->
  exists cols,
    face_counts_per_roll_of df
    = Frame cols
        ((fun row => (fun l => Z.of_nat (length (filter (fun x => x = l) row))) <$> cols)
           <$> rows df)
    /\ NoDup cols
    /\ forall l, l ∈ cols <-> exists row, row ∈ rows df /\ l ∈ row.
Proof.
  intros Hc Hr. unfold face_counts_per_roll_of, apply_series.
  rewrite decide_False by tauto.
  unfold astype_int, fillna. cbv zeta. cbn [columns rows].
  set (cols := match map _ (rows df) with [] => [] | _ => _ end).
  exists cols. split; [|split].
  - f_equal. rewrite !map_map. apply map_ext. intros row.
    rewrite !map_map. apply map_ext. intros l. cbn [s_values value_counts_series].
    by rewrite value_counts_default.
  - unfold cols. destruct (rows df) as [|row0 rest]; [done|]. cbn [map].
    destruct (forallb _ _).
    + apply NoDup_value_counts_index.
    + rewrite merge_sort_Permutation. apply NoDup_elements.
  - intros l. unfold cols. destruct (rows df) as [|row0 rest] eqn:Hrows; [done|].
    cbn [map]. destruct (forallb _ _) eqn:Hall.
    + cbn [s_index value_counts_series]. rewrite elem_of_value_counts_index. split.
      * intros Hl. exists row0. split; [left|done].
      * intros (row & [->|Hrow]%elem_of_cons & Hl); [done|].
        rewrite forallb_forall in Hall.
        specialize (Hall (value_counts_series row)).
        rewrite bool_decide_eq_true in Hall. cbn [s_index value_counts_series] in Hall.
        rewrite <-elem_of_value_counts_index, <-Hall.
        { by apply elem_of_value_counts_index. }
        apply list_elem_of_In, list_elem_of_fmap. eauto.
    + rewrite <-Hrows. change (value_counts_series row0 :: map ?f rest)
        with (map f (row0 :: rest)). rewrite <-Hrows. apply elem_of_seen_faces.
Qed.

(** C3, as the code has it: for a table with at least one round, the columns
    of [face_counts_per_roll] are the faces seen anywhere in the table, once
    each; there is a row of counts for every round, with an integer in every
    column: the number of cells of the round that hold the face, which is 0
    for a face the round does not have; and the counts of a round add up to
    the number of dice. *)
Theorem face_counts_spec df :
  results_table df -> rows df <> [] ->
  let fc := face_counts_per_roll_of df in
  NoDup (columns fc)
  /\ (forall l, l ∈ columns fc <-> exists row, row ∈ rows df /\ l ∈ row)
  /\ length (rows fc) = length (rows df)
  /\ forall i row, rows df !! i = Some row ->
       exists counts,
         rows fc !! i = Some counts
         /\ length counts = length (columns fc)
         /\ (forall k l, columns fc !! k = Some l ->
               counts !! k = Some (Z.of_nat (length (filter (fun x => x = l) row))))
         /\ (forall k l, columns fc !! k = Some l -> l ∉ row -> counts !! k = Some 0)
         /\ foldr Z.add 0 counts = Z.of_nat (length (columns df)).
Proof.
  intros (_ & Hlen & Hnil) Hrows.
  destruct (face_counts_per_roll_of_rows df) as (cols & -> & Hnd & Hcols);
    [by intros ?%Hnil|done|].
  cbn [columns rows]. refine (conj Hnd (conj Hcols (conj _ _))).
  - by rewrite length_fmap.
  - intros i row Hi. rewrite list_lookup_fmap, Hi. eexists. split; [done|].
    assert (Hk : forall k l, cols !! k = Some l ->
      ((fun l => Z.of_nat (length (filter (fun x => x = l) row))) <$> cols) !! k
      = Some (Z.of_nat (length (filter (fun x => x = l) row)))).
    { intros k l Hl. by rewrite list_lookup_fmap, Hl. }
    refine (conj _ (conj Hk (conj _ _))).
    + by rewrite length_fmap.
    + intros k l Hl Hrow. rewrite (Hk k l Hl). by rewrite filter_eq_not_elem_of.
    + rewrite counts_sum; [|done|].
      * f_equal. eapply Forall_lookup_1 in Hlen; [|done]. done.
      * intros x Hx. apply Hcols. exists row. split; [|done].
        by eapply list_elem_of_lookup_2.
Qed.

Lemma face_counts_spec_witness :
  let df := Frame [0; 1] [[1; 1]; [3; 2]; [1; 1]] in
  columns (face_counts_per_roll_of df) = [1; 2; 3]
  /\ rows (face_counts_per_roll_of df) = [[2; 0; 0]; [0; 1; 1]; [2; 0; 0]]
  /\ length (rows (face_counts_per_roll_of df)) = 3%nat.
Proof.
  intros df.
  assert (Hdf : results_table df) by (by repeat constructor).
  destruct (face_counts_spec df Hdf ltac:(done)) as (_ & _ & Hl & _).
  split; [reflexivity|]. split; [reflexivity|exact Hl].
Defined.

(** C3 as stated fails on a table without rounds: pandas hands back a copy
    of the frame it was given, so that after [play(0)] with two dice the
    columns are the positions 0 and 1 of the dice, and no face was seen. *)
Lemma face_counts_no_round :
  ~ (forall df, results_table df ->
       forall l, l ∈ columns (face_counts_per_roll_of df)
                 <-> exists row, row ∈ rows df /\ l ∈ row).
Proof.
  intros H.
  assert (Hdf : results_table (Frame [0; 1] [])) by (by repeat constructor).
  destruct (proj1 (H _ Hdf 0)) as (row & Hrow & _).
  - left.
  - by apply elem_of_nil in Hrow.
Qed.

(** ** The narrow table *)

Section Stack.
Variable cols : list Z.

Local Abbreviation entries i row :=
  (zip_with (fun j v => (Z.of_nat i, j, v)) cols row).
Local Abbreviation stack_from k rs :=
  (concat (imap (fun i row => entries (k + i)%nat row) rs)).

Lemma stack_from_cons k r (rs : list (list label)) :
  stack_from k (r :: rs) = entries k r ++ stack_from (S k) rs.
Proof.
  rewrite imap_cons. cbn [concat]. rewrite Nat.add_0_r. f_equal. f_equal.
  apply imap_ext. intros i row _. simpl. by rewrite Nat.add_succ_r.
Qed.

Lemma length_stack_from k (rs : list (list label)) :
  Forall (fun row => length row = length cols) rs ->
  length (stack_from k rs) = (length rs * length cols)%nat.
Proof.
  revert k. induction rs as [|r rs IH]; intros k Hlen; [done|].
  inversion_clear Hlen as [|?? Hr Hrs].
  rewrite stack_from_cons, length_app, IH, length_zip_with by done.
  simpl. lia.
Qed.

Lemma lookup_stack_from k (rs : list (list label)) i row j c v :
  Forall (fun row => length row = length cols) rs ->
  rs !! i = Some row -> cols !! j = Some c -> row !! j = Some v ->
  stack_from k rs !! (i * length cols + j)%nat = Some (Z.of_nat (k + i), c, v).
Proof.
  revert k i. induction rs as [|r rs IH]; intros k i Hlen Hi Hc Hv; [done|].
  inversion_clear Hlen as [|?? Hr Hrs]. rewrite stack_from_cons.
  assert (Hlen : length (entries k r) = length cols)
    by (rewrite length_zip_with; lia).
  destruct i as [|i].
  - injection Hi as ->. rewrite lookup_app_l.
    + cbn [Nat.mul Nat.add]. by rewrite lookup_zip_with, Hc, Hv, Nat.add_0_r.
    + rewrite Hlen. apply lookup_lt_Some in Hc. lia.
  - change (rs !! i = Some row) in Hi.
    rewrite lookup_app_r by (rewrite Hlen; lia). rewrite Hlen.
    replace (S i * length cols + j - length cols)%nat
      with (i * length cols + j)%nat by lia.
    rewrite (IH (S k) i) by done. do 3 f_equal. lia.
Qed.

(** Every entry of the stack carries the round of one of the rows. *)
Lemma elem_of_stack_from k (rs : list (list label)) e :
  e ∈ stack_from k rs ->
  exists i row, rs !! i = Some row /\ e ∈ entries (k + i)%nat row.
Proof.
  revert k. induction rs as [|r rs IH]; intros k; [by intros ?%elem_of_nil|].
  rewrite stack_from_cons. intros [He|He]%elem_of_app.
  - exists 0%nat, r. by rewrite Nat.add_0_r.
  - destruct (IH _ He) as (i & row & Hi & Hrow). exists (S i), row.
    by rewrite Nat.add_succ_r.
Qed.

Lemma round_of_entry i (row : list label) e : e ∈ entries i row -> e.1.1 = Z.of_nat i.
Proof.
  intros (j & Hj)%list_elem_of_lookup_1. rewrite lookup_zip_with in Hj.
  destruct (cols !! j), (row !! j); by simplify_eq/=.
Qed.

Lemma filter_all {A} (P : A -> Prop) `{!forall x, Decision (P x)} (l : list A) :
  Forall P l -> filter P l = l.
Proof.
  induction 1 as [|x l Hx _ IH]; [done|]. by rewrite filter_cons_True, IH.
Qed.

Lemma filter_none {A} (P : A -> Prop) `{!forall x, Decision (P x)} (l : list A) :
  Forall (fun x => ~ P x) l -> filter P l = [].
Proof.
  induction 1 as [|x l Hx _ IH]; [done|]. by rewrite filter_cons_False, IH.
Qed.

(** The entries of a round are those of its row. *)
Lemma filter_stack_from k (rs : list (list label)) i row :
  rs !! i = Some row ->
  filter (fun e => e.1.1 = Z.of_nat (k + i)) (stack_from k rs) = entries (k + i)%nat row.
Proof.
  revert k i. induction rs as [|r rs IH]; intros k i Hi; [done|].
  rewrite stack_from_cons, filter_app. destruct i as [|i].
  - injection Hi as ->. rewrite Nat.add_0_r, filter_all, filter_none.
    + by rewrite app_nil_r.
    + apply Forall_forall. intros e He.
      apply elem_of_stack_from in He as (i & row' & _ & He).
      apply round_of_entry in He. lia.
    + apply Forall_forall. intros e He. by apply round_of_entry in He.
  - change (rs !! i = Some row) in Hi. rewrite filter_none.
    + replace (k + S i)%nat with (S k + i)%nat by lia. by rewrite IH.
    + apply Forall_forall. intros e He. apply round_of_entry in He. lia.
Qed.

Lemma snd_entries n (row : list label) :
  (length row <= length cols)%nat -> snd <$> entries n row = row.
Proof.
  revert row. induction cols as [|c cs IH]; intros [|v row] Hlen; simpl in *;
    try done; try lia.
  f_equal. apply IH. lia.
Qed.

Lemma rounds_stack_from k (rs : list (list label)) x :
  cols <> [] -> Forall (fun row => length row = length cols) rs ->
  x ∈ map (fun e : Z * Z * label => e.1.1) (stack_from k rs)
  <-> exists i, (i < length rs)%nat /\ x = Z.of_nat (k + i).
Proof.
  intros Hcols Hlen. split.
  - intros (e & -> & He)%list_elem_of_fmap.
    apply elem_of_stack_from in He as (i & row & Hi & He).
    exists i. split; [by eapply lookup_lt_Some|by eapply round_of_entry].
  - intros (i & Hi & ->).
    destruct (lookup_lt_is_Some_2 rs i Hi) as [row Hrow].
    pose proof (Forall_lookup_1 _ _ _ _ Hlen Hrow) as Hr. simpl in Hr.
    assert (0 < length cols)%nat as Hpos by (destruct cols; [done|simpl; lia]).
    destruct (lookup_lt_is_Some_2 cols 0 Hpos) as [c Hc].
    destruct (lookup_lt_is_Some_2 row 0 ltac:(lia)) as [v Hv].
    apply list_elem_of_fmap. exists (Z.of_nat (k + i), c, v). split; [done|].
    eapply list_elem_of_lookup_2.
    by apply (lookup_stack_from k rs i row 0 c v).
Qed.

End Stack.

Lemma Sorted_seq k n : Sorted Z.le (Z.of_nat <$> seq k n).
Proof.
  revert k. induction n as [|n IH]; intros k; [constructor|].
  simpl. constructor; [apply IH|]. destruct n; constructor. lia.
Qed.

Lemma StronglySorted_entries n (cs : list Z) (row : list label) :
  StronglySorted Z.le cs ->
  StronglySorted by_generator (zip_with (fun j v => (Z.of_nat n, j, v)) cs row).
Proof.
  intros Hs. revert row. induction Hs as [|c cs Hs IH Hc]; intros [|v row];
    simpl; try constructor; [apply IH|].
  apply Forall_forall. intros e (j & Hj)%list_elem_of_lookup_1.
  rewrite lookup_zip_with in Hj.
  destruct (cs !! j) as [c'|] eqn:Hc'; [|done].
  destruct (row !! j); simplify_eq/=.
  unfold by_generator. simpl. eapply Forall_lookup_1 in Hc; done.
Qed.

#[local] Instance by_generator_trans : Transitive by_generator.
Proof. unfold by_generator. intros x y z. lia. Qed.

#[local] Instance by_generator_total : Total by_generator.
Proof. unfold by_generator. intros x y. lia. Qed.

(** Sorting the entries of one row by generator leaves them as they are. *)
Lemma sort_entries n g (row : list label) :
  let cs := Z.of_nat <$> seq 0 g in
  merge_sort by_generator (zip_with (fun j v => (Z.of_nat n, j, v)) cs row)
  = zip_with (fun j v => (Z.of_nat n, j, v)) cs row.
Proof.
  intros cs.
  assert (Hsorted : StronglySorted Z.le cs).
  { apply Sorted_StronglySorted; [apply _|apply Sorted_seq]. }
  assert (Hnd : NoDup cs).
  { apply (NoDup_fmap_2 _), NoDup_seq. }
  apply (Sorted_unique_strong by_generator).
  - intros x1 x2 Hx1 Hx2 H12 H21.
    rewrite merge_sort_Permutation in Hx1.
    apply list_elem_of_lookup_1 in Hx1 as (j1 & Hj1).
    apply list_elem_of_lookup_1 in Hx2 as (j2 & Hj2).
    rewrite lookup_zip_with in Hj1, Hj2.
    destruct (cs !! j1) as [c1|] eqn:Hc1; [|done].
    destruct (cs !! j2) as [c2|] eqn:Hc2; [|done].
    destruct (row !! j1) eqn:Hr1, (row !! j2) eqn:Hr2; simplify_eq/=.
    unfold by_generator in *. simpl in *.
    assert (c1 = c2) as -> by lia.
    pose proof (NoDup_lookup _ _ _ _ Hnd Hc1 Hc2) as ->. congruence.
  - apply Sorted_merge_sort, _.
  - by apply StronglySorted_Sorted, StronglySorted_entries.
  - apply merge_sort_Permutation.
Qed.

(** The round trip of C4, from any first round on. *)
Lemma regroup_stack_from g k (rs : list (list label)) :
  let cs := Z.of_nat <$> seq 0 g in
  cs <> [] -> Forall (fun row => length row = length cs) rs ->
  regroup_by_round
    (concat (imap (fun i row => zip_with (fun j v => (Z.of_nat (k + i), j, v)) cs row) rs))
  = rs.
Proof.
  intros cs Hcs Hlen. unfold regroup_by_round.
  set (t := concat _).
  assert (Hrounds : merge_sort Z.le (remove_dups (map (fun e => e.1.1) t))
                    = Z.of_nat <$> seq k (length rs)).
  { apply (Sorted_unique Z.le).
    - apply Sorted_merge_sort, _.
    - apply Sorted_seq.
    - rewrite merge_sort_Permutation. apply NoDup_Permutation.
      + apply NoDup_remove_dups.
      + apply (NoDup_fmap_2 _), NoDup_seq.
      + intros x. rewrite elem_of_remove_dups. unfold t.
        rewrite (rounds_stack_from cs k rs x Hcs Hlen), list_elem_of_fmap.
        split.
        * intros (i & Hi & ->). exists (k + i)%nat. split; [done|].
          apply elem_of_seq. lia.
        * intros (n & -> & Hn). apply elem_of_seq in Hn.
          exists (n - k)%nat. split; [lia|]. f_equal. lia. }
  rewrite Hrounds. apply list_eq. intros i.
  change (map ?f ?l) with (f <$> l). rewrite !list_lookup_fmap.
  destruct (decide (i < length rs)%nat) as [Hi|Hi].
  - rewrite lookup_seq_lt by done.
    destruct (lookup_lt_is_Some_2 rs i Hi) as [row Hrow]. rewrite Hrow. simpl.
    f_equal. unfold t. rewrite (filter_stack_from cs k rs i row Hrow).
    subst cs. rewrite (sort_entries (k + i) g row). apply snd_entries.
    by rewrite (Forall_lookup_1 _ _ _ _ Hlen Hrow).
  - rewrite lookup_seq_ge by lia. simpl.
    symmetry. apply lookup_ge_None. lia.
Qed.

(** ** class Game *)

(** The loop of [play] over a list of dice is the loop over its first part
    followed by the loop over the rest. *)
Lemma play_loop_app pre post : forall i n res s,
  play_loop i (pre ++ post) n res s
  = match play_loop i pre n res s with
    | (inl e, s') => (inl e, s')
    | (inr res0, s0) => play_loop (i + Z.of_nat (length pre)) post n res0 s0
    end.
Proof.
  induction pre as [|d pre IH]; intros i n res s.
  - simpl. unfold ret. by rewrite Z.add_0_r.
  - cbn [app play_loop]. unfold bind.
    destruct (roll d n s) as [[e|rolls] s1]; [done|].
    rewrite IH. cbn [length]. by rewrite Nat2Z.inj_succ, <-Z.add_1_l, Z.add_assoc.
Qed.

Lemma play_loop_inv ds : forall i n res s r s',
  play_loop i ds n res s = (r, s') ->
  st_dice s' = st_dice s /\ st_games s' = st_games s /\ st_frames s' = st_frames s
  /\ (forall out, r = inr out ->
        exists cols, out = res ++ cols
          /\ cols.*1 = (fun j => i + Z.of_nat j) <$> seq 0 (length ds)
          /\ Forall (fun kc => length kc.2 = Z.to_nat n) cols
          /\ (ds <> [] -> 0 <= n))
  /\ (forall e, r = inl e ->
        exists pre d post res0 s0,
          ds = pre ++ d :: post
          /\ play_loop i pre n res s = (inr res0, s0)
          /\ roll d n s0 = (inl e, s')).
Proof.
  induction ds as [|d ds IH]; intros i n res s r s'.
  - simpl. unfold ret. intros [= <- <-]. do 3 (split; [done|]). split; [|done].
    intros out [= <-]. exists []. by rewrite app_nil_r.
  - cbn [play_loop]. unfold bind.
    destruct (roll d n s) as [[e|rolls] s1] eqn:Hroll.
    + intros [= <- <-]. destruct (roll_inv _ _ _ _ _ Hroll) as (? & ? & ? & _).
      do 3 (split; [done|]). split; [done|].
      intros e' [= <-]. by exists [], d, ds, res, s.
    + intros Hloop. apply IH in Hloop as (Hd & Hg & Hf & Hok & Herr).
      destruct (roll_inv _ _ _ _ _ Hroll) as (Hd1 & Hg1 & Hf1 & Hlen).
      destruct (Hlen rolls eq_refl) as [Hn Hrolls].
      split; [congruence|]. split; [congruence|]. split; [congruence|]. split.
      * intros out ->. destruct (Hok out eq_refl) as (cols & -> & Hkeys & Hcols & _).
        exists ((i, rolls) :: cols). split; [by rewrite <-app_assoc|].
        split; [|split; [by constructor|done]].
        cbn [length seq]. rewrite !fmap_cons, Hkeys. cbn [fst]. f_equal; [lia|].
        rewrite <-seq_shift, <-list_fmap_compose. apply list_fmap_ext.
        intros _ j _. simpl. lia.
      * intros e ->.
        destruct (Herr e eq_refl) as (pre & d' & post & res0 & s0 & -> & Hpre & Hd').
        exists (d :: pre), d', post, res0, s0. split; [done|]. split; [|done].
        cbn [play_loop]. unfold bind. by rewrite Hroll.
Qed.

Lemma length_omap_lookup (cols : list (list label)) i :
  Forall (fun c => (i < length c)%nat) cols ->
  length (omap (fun c => c !! i) cols) = length cols.
Proof.
  induction 1 as [|c cols Hc _ IH]; [done|].
  destruct (lookup_lt_is_Some_2 c i Hc) as [x Hx].
  simpl. rewrite Hx. simpl. by f_equal.
Qed.

Lemma length_transpose_row n (cols : list (list label)) i row :
  Forall (fun c => length c = n) cols ->
  transpose n cols !! i = Some row -> length row = length cols.
Proof.
  intros Hcols. unfold transpose. change (map ?f ?l) with (f <$> l).
  rewrite list_lookup_fmap. intros Hrow.
  destruct (seq 0 n !! i) as [k|] eqn:Hk; [|done].
  apply lookup_seq in Hk as [-> Hi]. injection Hrow as <-.
  apply length_omap_lookup. eapply Forall_impl; [done|]. simpl. intros c ->. lia.
Qed.

(** [pd.DataFrame] accepts columns of one length. *)
Lemma pd_DataFrame_spec n (data : list (Z * list label)) s :
  Forall (fun kc => length kc.2 = n) data ->
  exists df,
    pd_DataFrame data s = (inr df, s)
    /\ columns df = data.*1
    /\ Forall (fun row => length row = length data) (rows df)
    /\ (data = [] -> rows df = [])
    /\ (data <> [] -> length (rows df) = n).
Proof.
  intros Hlen. destruct data as [|[k c] data]; simpl.
  - eexists. by repeat split.
  - inversion_clear Hlen as [|?? Hc Hdata]. simpl in Hc. subst n.
    rewrite bool_decide_eq_true_2 by done. simpl.
    assert (forallb (fun kc : Z * list label => bool_decide (length kc.2 = length c)) data = true)
      as ->.
    { apply forallb_forall. intros kc Hkc%list_elem_of_In.
      apply bool_decide_eq_true_2. by eapply Forall_forall in Hdata. }
    eexists. split; [done|]. cbn [columns rows]. split; [done|]. split; [|split].
    + apply Forall_forall. intros row (i & Hi)%list_elem_of_lookup_1.
      apply (length_transpose_row (length c) (c :: data.*2)) in Hi.
      * rewrite Hi. simpl. by rewrite length_fmap.
      * constructor; [done|]. apply Forall_fmap. by eapply Forall_impl.
    + done.
    + intros _. unfold transpose. by rewrite length_map, length_seq.
Qed.

(** What a [play] that returns has done: one new frame, held by the game. *)
Lemma play_ok_inv ga n s s1 :
  play ga n s = (inr tt, s1) ->
  exists g a df,
    st_games s !! ga = Some g
    /\ a = fresh (dom (st_frames s))
    /\ st_dice s1 = st_dice s
    /\ st_games s1 = <[ga := {| dice := dice g; _play_df := Some a |}]> (st_games s)
    /\ st_frames s1 = <[a := df]> (st_frames s)
    /\ results_table df
    /\ length (columns df) = length (dice g)
    /\ (dice g <> [] -> 0 <= n /\ length (rows df) = Z.to_nat n).
Proof.
  unfold play, bind, get_game.
  destruct (st_games s !! ga) as [g|] eqn:Hg; [|done].
  destruct (play_loop 0 (dice g) n [] s) as [[e|res] s0] eqn:Hloop; [done|].
  apply play_loop_inv in Hloop as (Hd & Hgs & Hf & Hok & _).
  destruct (Hok res eq_refl) as (cols & -> & Hkeys & Hcols & Hn). simpl in *.
  destruct (pd_DataFrame_spec (Z.to_nat n) cols s0 Hcols)
    as (df & -> & Hc & Hrows & Hnil & Hlen).
  unfold new_frame, put_game. cbn [st_games st_dice st_frames st_rng].
  rewrite Hgs, Hg. intros [= <-]. cbn [st_games st_dice st_frames].
  assert (Hg' : length cols = length (dice g)).
  { rewrite <-(length_fmap fst cols), Hkeys. by rewrite length_fmap, length_seq. }
  exists g, (fresh (dom (st_frames s))), df.
  rewrite Hd, Hf. do 5 (split; [done|]).
  assert (Hcol : length (columns df) = length (dice g)).
  { by rewrite Hc, length_fmap. }
  split; [|split; [done|]].
  - split; [|split].
    + rewrite Hcol, Hc, Hkeys. apply list_fmap_ext. intros. lia.
    + by rewrite Hcol, <-Hg'.
    + rewrite Hc. intros Hempty. apply Hnil. by destruct cols.
  - intros Hdice. split; [by apply Hn|]. apply Hlen. intros ->.
    destruct (dice g); [done|]. done.
Qed.

(** What a [play] that raises has done: nothing to the games and frames,
    and the exception is the one of a roll. *)
Lemma play_err_inv ga n s e s1 :
  play ga n s = (inl e, s1) ->
  st_dice s1 = st_dice s /\ st_games s1 = st_games s /\ st_frames s1 = st_frames s
  /\ forall g, st_games s !! ga = Some g ->
       exists pre d post res0 s0,
         dice g = pre ++ d :: post
         /\ play_loop 0 pre n [] s = (inr res0, s0)
         /\ roll d n s0 = (inl e, s1).
Proof.
  unfold play, bind, get_game.
  destruct (st_games s !! ga) as [g|] eqn:Hg; [|by intros [= <- <-]].
  destruct (play_loop 0 (dice g) n [] s) as [[e'|res] s0] eqn:Hloop.
  - intros [= <- <-].
    apply play_loop_inv in Hloop as (Hd & Hgs & Hf & _ & Herr).
    do 3 (split; [done|]). intros g' [= <-]. by apply Herr.
  - apply play_loop_inv in Hloop as (Hd & Hgs & Hf & Hok & _).
    destruct (Hok res eq_refl) as (cols & -> & Hkeys & Hcols & Hn). simpl in *.
    destruct (pd_DataFrame_spec (Z.to_nat n) cols s0 Hcols) as (df & -> & _).
    unfold new_frame, put_game. cbn [st_games]. by rewrite Hgs, Hg.
Qed.

Lemma show_no_results ga g form s :
  st_games s !! ga = Some g -> _play_df g = None ->
  show ga form s = (inl (Raise ValueError "No game has been played yet."), s).
Proof. intros Hg Hdf. unfold show, bind, get_game. by rewrite Hg, Hdf. Qed.

Lemma show_wide ga g fa df s :
  st_games s !! ga = Some g -> _play_df g = Some fa -> st_frames s !! fa = Some df ->
  show ga "wide" s
  = (inr (Wide (fresh (dom (st_frames s)))),
     Store (st_dice s) (st_games s) (<[fresh (dom (st_frames s)) := df]> (st_frames s))
           (st_rng s)).
Proof.
  intros Hg Hfa Hdf. unfold show, bind, get_game. rewrite Hg, Hfa.
  rewrite decide_True by done. unfold copy, bind, get_frame. by rewrite Hdf.
Qed.

Lemma show_narrow ga g fa df s :
  st_games s !! ga = Some g -> _play_df g = Some fa -> st_frames s !! fa = Some df ->
  show ga "narrow" s = (inr (Narrow (stack df)), s).
Proof.
  intros Hg Hfa Hdf. unfold show, bind, get_game. rewrite Hg, Hfa.
  rewrite decide_False, decide_True by done. unfold get_frame. by rewrite Hdf.
Qed.

Lemma show_invalid_form ga g fa form s :
  st_games s !! ga = Some g -> _play_df g = Some fa ->
  form <> "wide" -> form <> "narrow" ->
  show ga form s = (inl (Raise ValueError "Invalid form. Use 'wide' or 'narrow'."), s).
Proof.
  intros Hg Hfa Hw Hn. unfold show, bind, get_game. rewrite Hg, Hfa.
  by rewrite !decide_False by done.
Qed.

(** [show] changes neither games nor dice, and keeps the frames there are. *)
Lemma show_inv ga form s r s1 :
  show ga form s = (r, s1) ->
  st_dice s1 = st_dice s /\ st_games s1 = st_games s
  /\ forall x df, st_frames s !! x = Some df -> st_frames s1 !! x = Some df.
Proof.
  unfold show, bind, get_game.
  destruct (st_games s !! ga) as [g|]; [|by intros [= <- <-]].
  destruct (_play_df g) as [fa|]; [|by intros [= <- <-]].
  case_decide.
  - unfold copy, bind, get_frame. destruct (st_frames s !! fa); [|by intros [= <- <-]].
    unfold new_frame, ret. intros [= <- <-]. cbn [st_dice st_games st_frames].
    do 2 (split; [done|]). intros x df Hx. rewrite lookup_insert_ne; [done|].
    intros <-. apply (is_fresh (dom (st_frames s))). apply elem_of_dom. eauto.
  - case_decide; [|by intros [= <- <-]].
    unfold get_frame. destruct (st_frames s !! fa); by intros [= <- <-].
Qed.

(** C5: a [play] in which a roll raises, after the rolls of the dice before
    it returned, raises that very exception, and every [play] that raises
    does so for a roll; the games, with their [_play_df], and the frames are
    then as they were before the call. *)
Theorem play_error_spec s ga g n :
  st_games s !! ga = Some g ->
  (forall pre d post res0 s0 e s1,
     dice g = pre ++ d :: post ->
     play_loop 0 pre n [] s = (inr res0, s0) ->
     roll d n s0 = (inl e, s1) ->
     play ga n s = (inl e, s1))
  /\ (forall e s1,
        play ga n s = (inl e, s1) ->
        st_games s1 = st_games s /\ st_frames s1 = st_frames s
        /\ st_games s1 !! ga = Some g
        /\ exists pre d post res0 s0,
             dice g = pre ++ d :: post
             /\ play_loop 0 pre n [] s = (inr res0, s0)
             /\ roll d n s0 = (inl e, s1)).
Proof.
  intros Hg. split.
  - intros pre d post res0 s0 e s1 Hdice Hpre Hroll.
    unfold play, bind, get_game. rewrite Hg, Hdice, play_loop_app, Hpre.
    cbn [play_loop]. unfold bind. by rewrite Hroll.
  - intros e s1 Hplay. apply play_err_inv in Hplay as (_ & Hgs & Hf & Hroll).
    split; [done|]. split; [done|]. split; [by rewrite Hgs|]. by apply Hroll.
Qed.

(** Two dice with the faces 1 and 2; the second has the weights 0, and the
    game holds the frame of an earlier play. *)
Lemma play_error_spec_witness :
  let g0 := {| rng_stream := fun i => Z.of_nat i * 3002399751580331; rng_pos := 0 |} in
  let fair := {| __df := [(1, F64.one); (2, F64.one)] |} in
  let dead := {| __df := [(1, F64.zero); (2, F64.zero)] |} in
  let g := {| dice := [0; 1]%nat; _play_df := Some 0%nat |} in
  let s := Store {[ 0%nat := fair; 1%nat := dead ]} {[ 0%nat := g ]}
                 {[ 0%nat := Frame [0; 1] [[1; 2]] ]} g0 in
  let s1 := Store (st_dice s) (st_games s) (st_frames s)
                  {| rng_stream := rng_stream g0; rng_pos := 3 |} in
  play 0 3 s = (inl (Raise ValueError "probabilities contain NaN"), s1)
  /\ st_games s1 !! 0%nat = Some g.
Proof.
  intros g0 fair dead g s s1.
  assert (Hg : st_games s !! 0%nat = Some g) by reflexivity.
  assert (Hplay : play 0 3 s = (inl (Raise ValueError "probabilities contain NaN"), s1))
    by (vm_compute; reflexivity).
  destruct (proj2 (play_error_spec s 0%nat g 3 Hg) _ _ Hplay) as (_ & _ & Hg1 & _).
  split; [exact Hplay|exact Hg1].
Defined.

(** ** class Analyzer: construction *)

(** An analyzer of a game with results holds a frame that did not exist
    before, with the cells of the frame of the game. *)
Lemma Analyzer_init_ok ga g fa df s :
  st_games s !! ga = Some g -> _play_df g = Some fa -> st_frames s !! fa = Some df ->
  exists a s1,
    Analyzer_init (GameRef ga) s = (inr a, s1)
    /\ game a = ga
    /\ (results a ∉ dom (st_frames s))
    /\ st_frames s1 !! results a = Some df
    /\ st_dice s1 = st_dice s /\ st_games s1 = st_games s /\ st_rng s1 = st_rng s
    /\ forall x d, st_frames s !! x = Some d -> st_frames s1 !! x = Some d.
Proof.
  intros Hg Hfa Hdf. unfold Analyzer_init, bind.
  rewrite (show_wide ga g fa df s Hg Hfa Hdf).
  unfold copy, bind, get_frame. cbn [st_frames]. rewrite lookup_insert_eq.
  unfold new_frame, ret. cbn [st_dice st_games st_frames st_rng].
  set (a1 := fresh (dom (st_frames s))).
  set (a2 := fresh (dom (<[a1 := df]> (st_frames s)))).
  assert (H1 : a1 ∉ dom (st_frames s)) by apply is_fresh.
  assert (H2 : a2 ∉ dom (<[a1 := df]> (st_frames s))) by apply is_fresh.
  rewrite dom_insert_L, not_elem_of_union in H2. destruct H2 as [_ H2].
  eexists _, _. split; [reflexivity|]. cbn [game results st_dice st_games st_frames st_rng].
  split; [done|]. split; [done|]. split; [by rewrite lookup_insert_eq|].
  do 3 (split; [done|]). intros x d Hx.
  assert (x ∈ dom (st_frames s)) by (apply elem_of_dom; eauto).
  rewrite !lookup_insert_ne; [done|by intros <-..].
Qed.

Lemma Analyzer_init_inv ga a s s1 :
  Analyzer_init (GameRef ga) s = (inr a, s1) ->
  exists g fa df,
    st_games s !! ga = Some g /\ _play_df g = Some fa /\ st_frames s !! fa = Some df.
Proof.
  unfold Analyzer_init, show, bind, get_game.
  destruct (st_games s !! ga) as [g|]; [|done].
  destruct (_play_df g) as [fa|] eqn:Hfa; [|done].
  rewrite decide_True by done. unfold copy, bind, get_frame.
  destruct (st_frames s !! fa) as [df|] eqn:Hdf; [|done]. intros _.
  by exists g, fa, df.
Qed.

(** ** Histories *)

Lemma change_weight_inv d face w s r s1 :
  change_weight d face w s = (r, s1) ->
  st_games s1 = st_games s /\ st_frames s1 = st_frames s.
Proof.
  unfold change_weight, bind, get_die.
  destruct (st_dice s !! d); [|by intros [= <- <-]].
  case_decide; [by intros [= <- <-]|].
  destruct (py_float w) as [e|f]; [|by intros [= <- <-]].
  destruct (exn_cls e); by intros [= <- <-].
Qed.

(** A call changes the games by a [play] that returns only, and keeps the
    frames there are. *)
Lemma exec_inv ga c s r s1 :
  exec ga c s = (r, s1) ->
  (forall x d, st_frames s !! x = Some d -> st_frames s1 !! x = Some d)
  /\ forall g, st_games s !! ga = Some g ->
       exists g', st_games s1 !! ga = Some g' /\ dice g' = dice g
         /\ (_play_df g' = None
             <-> _play_df g = None /\ ~ exists n, c = Play n /\ r = inr tt).
Proof.
  destruct c as [n|form|d face w|d times]; cbn [exec].
  - destruct r as [e|[]].
    + intros (_ & Hg & Hf & _)%play_err_inv. rewrite Hg, Hf. split; [done|].
      intros g Hga. exists g. split; [done|]. split; [done|].
      split; [|tauto]. intros H. split; [done|]. by intros (? & _ & ?).
    + intros (g & a & df & Hg & -> & _ & Hgs & Hf & _)%play_ok_inv.
      rewrite Hgs, Hf. split.
      * intros x d Hx. rewrite lookup_insert_ne; [done|].
        intros <-. apply (is_fresh (dom (st_frames s))). apply elem_of_dom. eauto.
      * intros g' Hg'. simplify_eq. eexists. rewrite lookup_insert_eq.
        split; [done|]. split; [done|]. simpl. split; [done|].
        intros [_ []]. by exists n.
  - unfold bind. destruct (show ga form s) as [[e|w] s'] eqn:Hshow;
      unfold ret; intros [= <- <-]; apply show_inv in Hshow as (_ & Hg & Hf);
      rewrite Hg; (split; [done|]); intros g Hga; exists g;
      (split; [done|]); (split; [done|]); (split; [|tauto]);
      intros H; (split; [done|]); by intros (? & ? & _).
  - intros [Hg Hf]%change_weight_inv. rewrite Hg, Hf. split; [done|].
    intros g Hga. exists g. split; [done|]. split; [done|]. split; [|tauto].
    intros H. split; [done|]. by intros (? & ? & _).
  - unfold bind. destruct (roll d times s) as [[e|w] s'] eqn:Hroll;
      unfold ret; intros [= <- <-]; apply roll_inv in Hroll as (_ & Hg & Hf & _);
      rewrite Hg, Hf; (split; [done|]); intros g Hga; exists g;
      (split; [done|]); (split; [done|]); (split; [|tauto]);
      intros H; (split; [done|]); by intros (? & ? & _).
Qed.

Lemma played_cons c cs r outs :
  played (c :: cs) (r :: outs) <-> (exists n, c = Play n /\ r = inr tt) \/ played cs outs.
Proof.
  unfold played. split.
  - intros ([|i] & n & Hc & Hr); simplify_eq/=; [left; eauto|right; eauto].
  - intros [(n & -> & ->)|(i & n & Hc & Hr)]; [by exists 0%nat, n|by exists (S i), n].
Qed.

Lemma run_inv ga cs : forall s outs s2,
  run ga cs s = (outs, s2) ->
  (forall x d, st_frames s !! x = Some d -> st_frames s2 !! x = Some d)
  /\ forall g, st_games s !! ga = Some g ->
       exists g', st_games s2 !! ga = Some g' /\ dice g' = dice g
         /\ (_play_df g' = None <-> _play_df g = None /\ ~ played cs outs).
Proof.
  induction cs as [|c cs IH]; intros s outs s2; cbn [run].
  - intros [= <- <-]. split; [done|]. intros g Hg. exists g.
    split; [done|]. split; [done|]. split; [|tauto].
    intros H. split; [done|]. by intros ([|?] & ? & ? & _).
  - destruct (exec ga c s) as [r s1] eqn:Hexec.
    destruct (run ga cs s1) as [rs s2'] eqn:Hrun. intros [= <- <-].
    apply exec_inv in Hexec as [Hf1 Hg1]. apply IH in Hrun as [Hf2 Hg2].
    split; [by auto|]. intros g Hg.
    destruct (Hg1 g Hg) as (g1 & Hga1 & Hd1 & Hnone1).
    destruct (Hg2 g1 Hga1) as (g2 & Hga2 & Hd2 & Hnone2).
    exists g2. split; [done|]. split; [congruence|].
    rewrite Hnone2, Hnone1, played_cons. tauto.
Qed.

(** C6: [show] raises "No game has been played yet." exactly when the game
    has no frame, which after any history of calls on a new game is: when no
    [play] of the history has returned, and this whatever the form asked
    for; for a game with a frame, a form other than 'wide' and 'narrow'
    raises "Invalid form. Use 'wide' or 'narrow'.", so that such a form
    raises a [ValueError] with or without a frame; and [Analyzer.__init__]
    raises what [show(form='wide')] raises, so the first of the two for a
    game without a frame. *)
Theorem show_errors :
  (forall s ga g form, st_games s !! ga = Some g ->
     (show ga form s = (inl no_results_yet, s) <-> _play_df g = None))
  /\ (forall dice_list s0 ga s1 cs outs s2 form,
        Game_init dice_list s0 = (inr ga, s1) -> run ga cs s1 = (outs, s2) ->
        (show ga form s2 = (inl no_results_yet, s2) <-> ~ played cs outs))
  /\ (forall s ga g form, st_games s !! ga = Some g -> _play_df g <> None ->
        form <> "wide" -> form <> "narrow" ->
        show ga form s = (inl invalid_form, s))
  /\ (forall s ga g form, st_games s !! ga = Some g ->
        form <> "wide" -> form <> "narrow" ->
        exists msg, show ga form s = (inl (Raise ValueError msg), s))
  /\ (forall s ga e s1, show ga "wide" s = (inl e, s1) ->
        Analyzer_init (GameRef ga) s = (inl e, s1))
  /\ (forall s ga g, st_games s !! ga = Some g -> _play_df g = None ->
        Analyzer_init (GameRef ga) s = (inl no_results_yet, s)).
Proof.
  assert (Hnone : forall s ga g form, st_games s !! ga = Some g ->
    (show ga form s = (inl no_results_yet, s) <-> _play_df g = None)).
  { intros s ga g form Hg. split; [|by apply show_no_results].
    unfold show, bind, get_game. rewrite Hg.
    destruct (_play_df g) as [fa|]; [|done].
    unfold copy, bind, get_frame, new_frame, ret.
    repeat case_decide; destruct (st_frames s !! fa); by intros [=]. }
  split; [exact Hnone|]. split; [|split; [|split; [|split]]].
  - intros dice_list s0 ga s1 cs outs s2 form Hinit Hrun.
    unfold Game_init, new_game in Hinit. injection Hinit as <- <-.
    apply run_inv in Hrun as [_ Hg].
    destruct (Hg _ (lookup_insert_eq _ _ _)) as (g' & Hg' & _ & Hdf).
    rewrite (Hnone _ _ _ form Hg'), Hdf. simpl. tauto.
  - intros s ga g form Hg Hdf Hw Hn.
    destruct (_play_df g) as [fa|] eqn:Hfa; [|done].
    by eapply show_invalid_form.
  - intros s ga g form Hg Hw Hn.
    destruct (_play_df g) as [fa|] eqn:Hfa.
    + eexists. by eapply show_invalid_form.
    + eexists. by eapply show_no_results.
  - intros s ga e s1 Hshow. unfold Analyzer_init, bind. by rewrite Hshow.
  - intros s ga g Hg Hdf. unfold Analyzer_init, bind.
    by rewrite (show_no_results ga g "wide" s Hg Hdf).
Qed.

(** A new game with one die; a play of -1 rolls raises, so that [show]
    still has nothing to show. *)
Lemma show_errors_witness :
  let s0 := Store {[ 0%nat := {| __df := [(1, F64.one); (2, F64.one)] |} ]} ∅ ∅
                  {| rng_stream := fun i => Z.of_nat i; rng_pos := 0 |} in
  let s1 := (Game_init [0%nat] s0).2 in
  let r := run 0 [Show "wide"; Play (-1)] s1 in
  show 0 "narrow" r.2 = (inl no_results_yet, r.2).
Proof.
  intros s0 s1 r.
  destruct show_errors as (_ & H & _).
  apply (H [0%nat] s0 0%nat s1 [Show "wide"; Play (-1)] r.1 r.2 "narrow").
  - reflexivity.
  - apply surjective_pairing.
  - assert (Hout : r.1 !! 1%nat = Some (inl (Raise ValueError "negative dimensions are not allowed")))
      by (vm_compute; reflexivity).
    intros ([|[|i]] & n & Hc & Ho); [discriminate Hc| |discriminate Hc].
    rewrite Hout in Ho. discriminate Ho.
Defined.

(** C9: the frame of an analyzer is a frame of its own, new at the
    construction and equal, cell for cell, to the frame the game held then;
    whatever calls follow on the game and on the dice ([play],
    [change_weight], [roll], [show]), the frame of the analyzer stays as it
    was and the four queries give what they gave. *)
Theorem analyzer_snapshot s ga a s1 :
  Analyzer_init (GameRef ga) s = (inr a, s1) ->
  exists g fa df,
    st_games s !! ga = Some g /\ _play_df g = Some fa
    /\ st_frames s !! fa = Some df
    /\ (results a ∉ dom (st_frames s))
    /\ st_frames s1 !! results a = Some df
    /\ forall cs outs s2, run ga cs s1 = (outs, s2) ->
         st_frames s2 !! results a = Some df
         /\ jackpot a s2 = (inr (jackpot_of df), s2)
         /\ face_counts_per_roll a s2 = (inr (face_counts_per_roll_of df), s2)
         /\ combo_count a s2 = (inr (combo_count_of df), s2)
         /\ permutation_count a s2 = (inr (permutation_count_of df), s2).
Proof.
  intros Hinit.
  destruct (Analyzer_init_inv _ _ _ _ Hinit) as (g & fa & df & Hg & Hfa & Hdf).
  destruct (Analyzer_init_ok ga g fa df s Hg Hfa Hdf)
    as (a' & s1' & Hinit' & _ & Hnew & Hres & _).
  rewrite Hinit in Hinit'. injection Hinit' as <- <-.
  exists g, fa, df. do 5 (split; [done|]).
  intros cs outs s2 Hrun. apply run_inv in Hrun as [Hkeep _].
  apply Hkeep in Hres.
  unfold jackpot, face_counts_per_roll, combo_count, permutation_count,
    bind, get_frame, ret.
  by rewrite Hres.
Qed.

(** A game that holds the rows (1) and (2) of one die: an analyzer is made,
    then the weight of face 1 is changed and the game played again. *)
Lemma analyzer_snapshot_witness :
  let s := Store {[ 0%nat := {| __df := [(1, F64.one); (2, F64.one)] |} ]}
                 {[ 0%nat := {| dice := [0%nat]; _play_df := Some 0%nat |} ]}
                 {[ 0%nat := Frame [0] [[1]; [2]] ]}
                 {| rng_stream := fun i => Z.of_nat i * 3002399751580331; rng_pos := 0 |} in
  let i := Analyzer_init (GameRef 0%nat) s in
  let a := {| game := 0%nat; results := 2%nat |} in
  let r := run 0 [ChangeWeight 0%nat 1 (PyInt 5); Play 3] i.2 in
  r.1 = [inr tt; inr tt]
  /\ jackpot a i.2 = (inr 2, i.2) /\ jackpot a r.2 = (inr 2, r.2).
Proof.
  intros s i a r. split; [vm_compute; reflexivity|].
  assert (Hinit : Analyzer_init (GameRef 0%nat) s = (inr a, i.2)).
  { apply injective_projections; [vm_compute; reflexivity|reflexivity]. }
  destruct (analyzer_snapshot s 0%nat a i.2 Hinit)
    as (g & fa & df & Hg & Hfa & Hdf & _ & _ & Hrun).
  assert (Hg' : st_games s !! 0%nat = Some {| dice := [0%nat]; _play_df := Some 0%nat |})
    by reflexivity.
  rewrite Hg' in Hg. injection Hg as <-. injection Hfa as <-.
  assert (Hdf' : st_frames s !! 0%nat = Some (Frame [0] [[1]; [2]])) by reflexivity.
  rewrite Hdf' in Hdf. injection Hdf as <-.
  split.
  - exact (proj1 (proj2 (Hrun [] [] i.2 eq_refl))).
  - exact (proj1 (proj2 (Hrun [ChangeWeight 0%nat 1 (PyInt 5); Play 3] r.1 r.2
                               (surjective_pairing r)))).
Defined.

(** ** The claims on the results of a play *)

Lemma nunique_singleton (x : label) : nunique [x] = 1%nat.
Proof. reflexivity. Qed.

(** C2: [jackpot] is the number of rows whose cells are all equal (a row of
    this kind has exactly one distinct value); and after a [play] of [n]
    rolls of a game with one die, an analyzer of the game can be made and
    its [jackpot] is [n]. *)
Theorem jackpot_spec :
  (forall df,
     jackpot_of df
     = Z.of_nat (length (filter (fun row => nunique row = 1%nat) (rows df))))
  /\ (forall row : list label,
        nunique row = 1%nat <-> exists x, x ∈ row /\ forall y, y ∈ row -> y = x)
  /\ (forall s ga g d n s1,
        st_games s !! ga = Some g -> dice g = [d] ->
        play ga n s = (inr tt, s1) ->
        exists a s2,
          Analyzer_init (GameRef ga) s1 = (inr a, s2)
          /\ jackpot a s2 = (inr n, s2)).
Proof.
  split; [|split].
  - intros df. unfold jackpot_of, apply_reduce. f_equal.
    by apply length_filter_fmap.
  - apply nunique_one.
  - intros s ga g d n s1 Hg Hd Hplay.
    apply play_ok_inv in Hplay
      as (g' & fa & df & Hg' & -> & _ & Hgs & Hfs & (_ & Hrows & _) & Hcols & Hn).
    simplify_eq. rewrite Hd in *. simpl in Hcols.
    destruct Hn as [Hn Hlen]; [done|].
    destruct (Analyzer_init_ok ga {| dice := [d]; _play_df := Some (fresh (dom (st_frames s))) |}
                (fresh (dom (st_frames s))) df s1)
      as (a & s2 & Hinit & _ & _ & Hres & _).
    { rewrite Hgs. apply lookup_insert_eq. }
    { done. }
    { rewrite Hfs. apply lookup_insert_eq. }
    exists a, s2. split; [done|].
    unfold jackpot, bind, get_frame, ret. rewrite Hres. do 2 f_equal.
    unfold jackpot_of, apply_reduce.
    rewrite filter_all.
    + rewrite length_map, Hlen. lia.
    + apply Forall_fmap. eapply Forall_impl; [exact Hrows|].
      intros row Hrow. simpl. rewrite Hcols in Hrow.
      destruct row as [|x [|??]]; done.
Qed.

Lemma jackpot_spec_witness :
  let s := Store {[ 0%nat := {| __df := [(1, F64.one); (2, F64.one)] |} ]}
                 {[ 0%nat := {| dice := [0%nat]; _play_df := None |} ]} ∅
                 {| rng_stream := fun i => Z.of_nat i * 3002399751580331; rng_pos := 0 |} in
  let p := play 0 3 s in
  p.1 = inr tt
  /\ exists a s2, Analyzer_init (GameRef 0%nat) p.2 = (inr a, s2)
       /\ jackpot a s2 = (inr 3, s2).
Proof.
  intros s p.
  assert (Hp : p.1 = inr tt) by (vm_compute; reflexivity).
  split; [exact Hp|].
  destruct jackpot_spec as (_ & _ & H).
  apply (H s 0%nat {| dice := [0%nat]; _play_df := None |} 0%nat 3 p.2).
  - reflexivity.
  - reflexivity.
  - apply injective_projections; [exact Hp|reflexivity].
Defined.

(** The narrow table of a results table. *)
Lemma stack_spec df :
  results_table df ->
  length (stack df) = (length (rows df) * length (columns df))%nat
  /\ (forall i j row v,
        rows df !! i = Some row -> row !! j = Some v ->
        stack df !! (i * length (columns df) + j)%nat
        = Some (Z.of_nat i, Z.of_nat j, v))
  /\ regroup_by_round (stack df) = rows df.
Proof.
  intros (Hcols & Hlen & Hnil). split; [|split].
  - by apply (length_stack_from (columns df) 0).
  - intros i j row v Hrow Hv.
    apply (lookup_stack_from (columns df) 0 (rows df) i row j (Z.of_nat j) v);
      try done.
    rewrite Hcols, list_lookup_fmap, lookup_seq_lt; [done|].
    eapply Forall_lookup_1 in Hlen; [|done]. simpl in Hlen. rewrite <-Hlen.
    by eapply lookup_lt_Some.
  - destruct (decide (columns df = [])) as [Hc|Hc].
    + unfold stack. by rewrite (Hnil Hc).
    + unfold stack. rewrite Hcols.
      apply (regroup_stack_from (length (columns df)) 0).
      * by rewrite <-Hcols.
      * by rewrite <-Hcols.
Qed.

(** C4: the narrow form of the table of a game is its cells row after
    row, each with its round and the position of its die: there are as many
    entries as rounds times dice, the cell of round [i] and die [j] is entry
    [i * g + j], and grouping the entries by round and ordering each group
    by die gives the rows of the wide table back.  The table a [play] of [n]
    rolls leaves is of this kind, with [n] times the number of dice
    entries. *)
Theorem show_narrow_spec :
  (forall s ga g fa df,
     st_games s !! ga = Some g -> _play_df g = Some fa ->
     st_frames s !! fa = Some df -> results_table df ->
     exists t,
       show ga "narrow" s = (inr (Narrow t), s)
       /\ length t = (length (rows df) * length (columns df))%nat
       /\ (forall i j row v,
             rows df !! i = Some row -> row !! j = Some v ->
             t !! (i * length (columns df) + j)%nat = Some (Z.of_nat i, Z.of_nat j, v))
       /\ regroup_by_round t = rows df)
  /\ (forall s ga n s1,
        play ga n s = (inr tt, s1) ->
        exists g fa df t,
          st_games s1 !! ga = Some g /\ _play_df g = Some fa
          /\ st_frames s1 !! fa = Some df /\ results_table df
          /\ length (columns df) = length (dice g)
          /\ show ga "narrow" s1 = (inr (Narrow t), s1)
          /\ length t = (Z.to_nat n * length (dice g))%nat
          /\ regroup_by_round t = rows df).
Proof.
  split.
  - intros s ga g fa df Hg Hfa Hdf Htable. exists (stack df).
    split; [by eapply show_narrow|]. by apply stack_spec.
  - intros s ga n s1 Hplay.
    apply play_ok_inv in Hplay
      as (g & fa & df & Hg & -> & _ & Hgs & Hfs & Htable & Hcols & Hn).
    set (fa := fresh (dom (st_frames s))) in *.
    assert (Hg1 : st_games s1 !! ga = Some {| dice := dice g; _play_df := Some fa |})
      by (rewrite Hgs; apply lookup_insert_eq).
    assert (Hdf : st_frames s1 !! fa = Some df)
      by (rewrite Hfs; apply lookup_insert_eq).
    exists {| dice := dice g; _play_df := Some fa |}, fa, df, (stack df).
    do 5 (split; [done|]). split; [by eapply show_narrow|].
    destruct (stack_spec df Htable) as (-> & _ & Hback). split; [|done].
    rewrite Hcols.
    destruct (dice g) as [|d ds] eqn:Hd; [simpl; lia|].
    destruct Hn as [_ ->]; done.
Qed.

Lemma show_narrow_spec_witness :
  let s := Store {[ 0%nat := {| __df := [(1, F64.one); (2, F64.one)] |} ]}
                 {[ 0%nat := {| dice := [0%nat; 0%nat]; _play_df := Some 0%nat |} ]}
                 {[ 0%nat := Frame [0; 1] [[1; 2]; [2; 2]; [1; 1]] ]}
                 {| rng_stream := fun i => Z.of_nat i; rng_pos := 0 |} in
  exists t,
    show 0 "narrow" s = (inr (Narrow t), s)
    /\ length t = 6%nat
    /\ regroup_by_round t = [[1; 2]; [2; 2]; [1; 1]].
Proof.
  intros s.
  destruct (proj1 show_narrow_spec s 0%nat
              {| dice := [0%nat; 0%nat]; _play_df := Some 0%nat |} 0%nat
              (Frame [0; 1] [[1; 2]; [2; 2]; [1; 1]]))
    as (t & Hshow & Hlen & _ & Hback); try reflexivity.
  - by repeat constructor.
  - exists t. split; [exact Hshow|]. split; [exact Hlen|exact Hback].
Defined.

(** * Further properties of the three classes *)

(** ** NumPy: the search and the draws *)

Lemma binsearch_right_spec arr key fuel : forall lo hi,
  (lo <= hi <= length arr)%nat -> (hi - lo <= fuel)%nat ->
  let r := binsearch_right fuel arr key lo hi in
  (lo <= r <= hi)%nat
  /\ (r = lo \/ exists x, arr !! (r - 1)%nat = Some x /\ np_less key x = false)
  /\ (r = hi \/ exists x, arr !! r = Some x /\ np_less key x = true).
Proof.
  induction fuel as [|fuel IH]; intros lo hi Hb Hf; simpl.
  - split; [lia|]. split; [by left|]. left. lia.
  - case_decide as Hlt; [|split; [lia|]; split; [by left|left; lia]].
    pose proof (Nat.lt_div2 (hi - lo) ltac:(lia)) as Hd.
    set (half := Nat.div2 (hi - lo)) in *. clearbody half.
    set (mid := (lo + half)%nat) in *.
    destruct (lookup_lt_is_Some_2 arr mid ltac:(lia)) as [x Hx]. rewrite Hx.
    destruct (np_less key x) eqn:Hless.
    + destruct (IH lo mid ltac:(lia) ltac:(lia)) as (Hr & Hlo & Hhi).
      split; [lia|]. split; [done|].
      destruct Hhi as [->|Hhi]; [|by right]. right. by exists x.
    + destruct (IH (S mid) hi ltac:(lia) ltac:(lia)) as (Hr & Hlo & Hhi).
      split; [lia|]. split; [|done].
      destruct Hlo as [->|Hlo]; [|by right]. right. exists x.
      split; [|done]. by replace (S mid - 1)%nat with mid by lia.
Qed.

Lemma searchsorted_right_spec arr key :
  let r := searchsorted_right arr key in
  (r <= length arr)%nat
  /\ (r = 0%nat \/ exists x, arr !! (r - 1)%nat = Some x /\ np_less key x = false)
  /\ (r = length arr \/ exists x, arr !! r = Some x /\ np_less key x = true).
Proof.
  destruct (binsearch_right_spec arr key (length arr) 0 (length arr)) as (H1 & H2 & H3);
    [lia..|].
  split; [unfold searchsorted_right; lia|]. by split.
Qed.

Lemma take_lookup a idx s xs s' :
  take a idx s = (inr xs, s') ->
  forall i x, xs !! i = Some x -> exists k, idx !! i = Some k /\ a !! k = Some x.
Proof.
  revert xs s'. induction idx as [|k idx IH]; intros xs s'; simpl.
  - unfold ret. intros [= <- <-] i x Hx. done.
  - destruct (a !! k) as [y|] eqn:Hk; [|done]. unfold bind.
    destruct (take a idx s) as [[e|ys] s1] eqn:Ht; [done|].
    unfold ret. intros [= <- <-] [|i] x Hx; simplify_eq/=.
    + by exists k.
    + by apply (IH ys s1 eq_refl).
Qed.

Lemma np_random_choice_ok_inv a size p s xs s' :
  np_random_choice a size p s = (inr xs, s') ->
  0 <= size /\ length p = length a /\ accepted p = true
  /\ s' = advance (Z.to_nat size) s
  /\ length xs = Z.to_nat size
  /\ forall i x, xs !! i = Some x ->
       a !! searchsorted_right (normalised_cdf p) (uniform (st_rng s) i) = Some x.
Proof.
  unfold np_random_choice, accepted, normalised_cdf.
  case_decide; [done|]. case_decide as Hlen; [done|].
  destruct (F64.is_nan _); [done|].
  destruct (existsb _ _); [done|].
  destruct (F64.ltb _ _); [done|].
  destruct (last (np_cumsum p)) as [total|]; [|done].
  case_decide; [done|].
  unfold bind, random_sample. intros Ht.
  pose proof (take_store _ _ _ _ _ Ht) as ->.
  pose proof (take_inv _ _ _ _ _ Ht) as [_ Hl].
  split; [lia|]. split; [by destruct (decide (length p = length a))|].
  split; [done|]. split; [done|].
  split; [by rewrite Hl, !length_map, length_seq|].
  intros i x Hx. destruct (take_lookup _ _ _ _ _ Ht i x Hx) as (k & Hk & Hak).
  change (map ?f ?l) with (f <$> l) in Hk. rewrite !list_lookup_fmap in Hk.
  destruct (seq 0 (Z.to_nat size) !! i) as [j|] eqn:Hj; [|done].
  apply lookup_seq in Hj as [-> _]. simpl in Hk. injection Hk as <-. exact Hak.
Qed.

Lemma roll_ok_inv self times s rolls s' :
  roll self times s = (inr rolls, s') ->
  exists d,
    st_dice s !! self = Some d /\ 0 <= times
    /\ accepted (probabilities d) = true
    /\ s' = advance (Z.to_nat times) s
    /\ length rolls = Z.to_nat times
    /\ forall i x, rolls !! i = Some x ->
         (__df d).*1 !! searchsorted_right (normalised_cdf (probabilities d))
                                           (uniform (st_rng s) i) = Some x.
Proof.
  unfold roll, bind, get_die. destruct (st_dice s !! self) as [d|]; [|done].
  intros (? & _ & ? & ? & ? & ?)%np_random_choice_ok_inv. by exists d.
Qed.

(** ** More binary64 facts *)

Section Float2.
Implicit Types x y z t : float.

Lemma add_nan_l y : F64.add F64.nan y = F64.nan.
Proof. done. Qed.
Lemma add_nan_r x : F64.add x F64.nan = F64.nan.
Proof. by destruct x. Qed.
Lemma sub_nan_l y : F64.sub F64.nan y = F64.nan.
Proof. done. Qed.
Lemma sub_nan_r x : F64.sub x F64.nan = F64.nan.
Proof. by destruct x. Qed.

Lemma kahan_loop_nan_sum xs : forall c, kahan_loop F64.nan c xs = F64.nan.
Proof. induction xs as [|x xs IH]; intros c; simpl; [done|]. apply IH. Qed.

Lemma kahan_loop_nan xs : forall sum c,
  F64.nan ∈ xs -> kahan_loop sum c xs = F64.nan.
Proof.
  induction xs as [|x xs IH]; intros sum c; [by intros ?%elem_of_nil|].
  intros [<-|Hin]%elem_of_cons; cbn [kahan_loop].
  - rewrite sub_nan_l, add_nan_r. apply kahan_loop_nan_sum.
  - by apply IH.
Qed.

Lemma kahan_sum_nan xs : F64.nan ∈ xs -> kahan_sum xs = F64.nan.
Proof.
  destruct xs as [|x xs]; [by intros ?%elem_of_nil|].
  intros [<-|Hin]%elem_of_cons; cbn [kahan_sum].
  - apply kahan_loop_nan_sum.
  - by apply kahan_loop_nan.
Qed.

Lemma add_non_finite_l x y : non_finite x -> non_finite (F64.add x y).
Proof. destruct x as [|sx| |]; try discriminate; intros _; destruct y as [|sy| |]; try done.
  by destruct sx, sy. Qed.
Lemma add_non_finite_r x y : non_finite y -> non_finite (F64.add x y).
Proof. destruct y as [|sy| |]; try discriminate; intros _; destruct x as [|sx| |]; try done.
  by destruct sx, sy. Qed.

Lemma fold_add_non_finite xs : forall acc,
  non_finite acc \/ Exists non_finite xs -> non_finite (fold_left F64.add xs acc).
Proof.
  induction xs as [|x xs IH]; intros acc; simpl.
  - intros [?|H%Exists_nil]; done.
  - intros [Hacc|[Hx|Hxs]%Exists_cons]; apply IH.
    + left. by apply add_non_finite_l.
    + left. by apply add_non_finite_r.
    + by right.
Qed.

Lemma pairwise_block_non_finite a : forall r0 r1 r2 r3 r4 r5 r6 r7,
  Exists non_finite [r0; r1; r2; r3; r4; r5; r6; r7] \/ Exists non_finite a ->
  non_finite (pairwise_block r0 r1 r2 r3 r4 r5 r6 r7 a).
Proof.
  assert (Hlast : forall (rest : list float) r0 r1 r2 r3 r4 r5 r6 r7,
    Exists non_finite [r0; r1; r2; r3; r4; r5; r6; r7] \/ Exists non_finite rest ->
    non_finite (fold_left F64.add rest
      (F64.add (F64.add (F64.add r0 r1) (F64.add r2 r3))
               (F64.add (F64.add r4 r5) (F64.add r6 r7))))).
  { intros rest r0 r1 r2 r3 r4 r5 r6 r7 [Hr|Hrest]; apply fold_add_non_finite;
      [left|by right].
    repeat (apply Exists_cons in Hr as [Hr|Hr]);
      [..|by apply Exists_nil in Hr];
      eauto 6 using add_non_finite_l, add_non_finite_r. }
  assert (Hn : forall n a, (length a <= n)%nat ->
    forall r0 r1 r2 r3 r4 r5 r6 r7,
      Exists non_finite [r0; r1; r2; r3; r4; r5; r6; r7] \/ Exists non_finite a ->
      non_finite (pairwise_block r0 r1 r2 r3 r4 r5 r6 r7 a));
    [|by apply (Hn (length a))].
  clear a. induction n as [|n IH]; intros a Hlen r0 r1 r2 r3 r4 r5 r6 r7 H.
  { destruct a; [by apply Hlast|simpl in Hlen; lia]. }
  destruct a as [|x0 [|x1 [|x2 [|x3 [|x4 [|x5 [|x6 [|x7 a']]]]]]]];
    try (by apply Hlast).
  cbn [pairwise_block]. apply IH; [simpl in *; lia|].
  destruct H as [Hr|Hx].
  - left. repeat (apply Exists_cons in Hr as [Hr|Hr]);
      [..|by apply Exists_nil in Hr];
      repeat first [by (apply Exists_cons_hd, add_non_finite_l)|apply Exists_cons_tl].
  - do 8 (apply Exists_cons in Hx as [Hx|Hx];
          [left; repeat first [by (apply Exists_cons_hd, add_non_finite_r)
                              |apply Exists_cons_tl]|]).
    by right.
Qed.

Lemma pairwise_small_non_finite a :
  Exists non_finite a -> non_finite (pairwise_small a).
Proof.
  intros H.
  destruct a as [|x0 [|x1 [|x2 [|x3 [|x4 [|x5 [|x6 [|x7 a']]]]]]]];
    try (apply fold_add_non_finite; by right).
  cbn [pairwise_small]. apply pairwise_block_non_finite.
  do 8 (apply Exists_cons in H as [H|H];
        [left; repeat first [by apply Exists_cons_hd|apply Exists_cons_tl]|]).
  by right.
Qed.

Lemma pairwise_sum_rec_non_finite fuel : forall a,
  Exists non_finite a -> non_finite (pairwise_sum_rec fuel a).
Proof.
  induction fuel as [|fuel IH]; intros a H; cbn [pairwise_sum_rec];
    [by apply pairwise_small_non_finite|].
  case_decide; [|by apply pairwise_small_non_finite].
  set (n2 := (length a / 2 - (length a / 2) mod 8)%nat).
  rewrite <-(firstn_skipn n2 a), Exists_app in H. destruct H as [H|H].
  - apply add_non_finite_l. by apply IH.
  - apply add_non_finite_r. by apply IH.
Qed.

Lemma np_sum_non_finite xs : Exists non_finite xs -> non_finite (np_sum xs).
Proof. intros H. by apply add_non_finite_r, pairwise_sum_rec_non_finite. Qed.

Lemma div_non_finite x y : non_finite x -> non_finite y -> F64.div x y = F64.nan.
Proof. destruct x, y; try discriminate; done. Qed.

(** [0 / y] is a zero, or NaN. *)
Lemma div_zero_num x y :
  F64.is_zero x = true -> F64.is_zero (F64.div x y) = true \/ F64.div x y = F64.nan.
Proof. destruct x; try discriminate. intros _. destruct y; [by right|by left|by right|by left]. Qed.

Lemma same_value_refl x : same_value x x.
Proof. by left. Qed.

Lemma add_zero_same x z : F64.is_zero z = true -> same_value (F64.add x z) x.
Proof.
  destruct z as [sz| | |]; try discriminate. intros _.
  destruct x as [sx| | |]; try (by left).
  destruct sx, sz; (by left) || (by right).
Qed.

Lemma div_same_value x y t : same_value x y -> same_value (F64.div x t) (F64.div y t).
Proof.
  intros [->|[Hx Hy]]; [by left|].
  destruct x, y; try discriminate. destruct t; simpl; (by left) || (by right).
Qed.

Lemma np_less_same_value key x y :
  same_value x y -> np_less key x = np_less key y.
Proof.
  intros [->|[Hx Hy]]; [done|]. destruct x, y; try discriminate.
  by destruct key.
Qed.

(** A uniform sample is zero or a positive number. *)
Lemma of_53bits_nonneg k :
  0 <= k < 2 ^ 53 ->
  F64.of_53bits k = F64.zero \/ exists m e, F64.of_53bits k = S754_finite false m e.
Proof.
  intros [Hk0 Hk]. destruct k as [|m|m]; [by left| |lia]. right.
  pose proof (digits2_pos_le_53 m Hk) as Hd.
  assert (Hf : fexp F64.prec F64.emax (Z.pos (digits2_pos m) + -53)
               = Z.pos (digits2_pos m) - 106).
  { unfold fexp, emin, F64.prec, F64.emax. lia. }
  unfold F64.of_53bits, binary_normalize, binary_round, shl_align.
  rewrite Hf.
  destruct (Z.pos (digits2_pos m) - 106 - -53) as [|d|d] eqn:Hs; [|lia|].
  - rewrite binary_round_aux_canonical by lia. eauto.
  - rewrite binary_round_aux_canonical; [eauto| |lia].
    rewrite digits2_pos_iter. lia.
Qed.

Lemma uniform_not_less_zero g i z :
  F64.is_zero z = true -> np_less (uniform g i) z = false.
Proof.
  intros Hz. destruct z; try discriminate.
  destruct (of_53bits_nonneg (rng_stream g (rng_pos g + i)%nat `mod` 2 ^ 53))
    as [H|(m & e & H)]; [by apply Z.mod_pos_bound|..]; unfold uniform; by rewrite H.
Qed.

End Float2.

Lemma np_cumsum_lookup_0 p : np_cumsum p !! 0%nat = p !! 0%nat.
Proof. by destruct p. Qed.

Lemma cumsum_from_lookup_S p : forall acc k x,
  p !! S k = Some x ->
  exists c, cumsum_from acc p !! k = Some c
    /\ cumsum_from acc p !! S k = Some (F64.add c x).
Proof.
  induction p as [|y p IH]; intros acc k x Hk; [done|].
  destruct k as [|k].
  - destruct p as [|x' p]; simplify_eq/=. by eexists.
  - apply (IH (F64.add acc y) k x Hk).
Qed.

Lemma np_cumsum_lookup_S p k x :
  p !! S k = Some x ->
  exists c, np_cumsum p !! k = Some c /\ np_cumsum p !! S k = Some (F64.add c x).
Proof.
  destruct p as [|y p]; [done|]. intros Hk.
  destruct k as [|k].
  - destruct p as [|x' p]; simplify_eq/=. by eexists.
  - apply (cumsum_from_lookup_S p y k x Hk).
Qed.

Lemma length_normalised_cdf p : length (normalised_cdf p) = length p.
Proof.
  unfold normalised_cdf. destruct (last (np_cumsum p)) eqn:Hl.
  - unfold np_divide. by rewrite length_map, length_np_cumsum.
  - apply last_None in Hl. apply (f_equal length) in Hl.
    rewrite length_np_cumsum in Hl. by rewrite Hl.
Qed.

(** ** class Die: what a roll can give *)

Lemma probabilities_lookup d k :
  probabilities d !! k
  = (fun r : label * float => F64.div r.2 (np_sum (__df d).*2)) <$> __df d !! k.
Proof.
  unfold probabilities, np_divide. change (map ?f ?l) with (f <$> l).
  rewrite !list_lookup_fmap. by destruct (__df d !! k).
Qed.

Lemma accepted_no_nan p : accepted p = true -> F64.nan ∉ p.
Proof.
  intros Hacc Hnan. apply kahan_sum_nan in Hnan.
  unfold accepted in Hacc. by rewrite Hnan in Hacc.
Qed.

Lemma normalised_cdf_lookup p k c :
  normalised_cdf p !! k = Some c ->
  exists total x, last (np_cumsum p) = Some total /\ np_cumsum p !! k = Some x
    /\ c = F64.div x total.
Proof.
  unfold normalised_cdf. destruct (last (np_cumsum p)) as [total|]; [|done].
  unfold np_divide. change (map ?f ?l) with (f <$> l). rewrite list_lookup_fmap.
  destruct (np_cumsum p !! k) as [x|]; [|done]. intros [= <-]. by exists total, x.
Qed.

(** The index [np.random.choice] draws is not the index of a probability
    zero. *)
Lemma zero_probability_not_drawn p u z :
  normalisable p = true ->
  (forall x, F64.is_zero x = true -> np_less u x = false) ->
  p !! searchsorted_right (normalised_cdf p) u = Some z ->
  F64.is_zero z = false.
Proof.
  intros Hnorm Hu Hz. destruct (F64.is_zero z) eqn:Hzero; [exfalso|done].
  set (r := searchsorted_right (normalised_cdf p) u) in *.
  destruct (searchsorted_right_spec (normalised_cdf p) u) as (_ & Hprev & Hat).
  fold r in Hprev, Hat.
  destruct Hat as [Hr|(x & Hx & Hless)].
  { apply lookup_lt_Some in Hz. rewrite length_normalised_cdf in Hr. lia. }
  apply normalised_cdf_lookup in Hx as (total & cx & Hlast & Hcx & ->).
  destruct r as [|k] eqn:Hr.
  - rewrite np_cumsum_lookup_0, Hz in Hcx. injection Hcx as <-.
    unfold normalisable in Hnorm. rewrite Hlast in Hnorm.
    destruct total as [| | |st mt et]; try done.
    assert (Hx0 : F64.is_zero (F64.div z (S754_finite st mt et)) = true)
      by (by destruct z).
    by rewrite (Hu _ Hx0) in Hless.
  - destruct Hprev as [|(y & Hy & Hge)]; [done|].
    replace (S k - 1)%nat with k in Hy by lia.
    apply normalised_cdf_lookup in Hy as (total' & cy & Hlast' & Hcy & ->).
    destruct (np_cumsum_lookup_S p k z Hz) as (c & Hc & Hc').
    rewrite Hcy in Hc. injection Hc as <-.
    rewrite Hc' in Hcx. injection Hcx as <-.
    rewrite Hlast in Hlast'. injection Hlast' as <-.
    rewrite (np_less_same_value u (F64.div (F64.add cy z) total) (F64.div cy total))
      in Hless; [congruence|].
    by apply div_same_value, add_zero_same.
Qed.

(** The face drawn for a sample that is not negative has a weight other
    than zero. *)
Lemma drawn_face_weight d u x :
  accepted (probabilities d) = true -> normalisable (probabilities d) = true ->
  (forall z, F64.is_zero z = true -> np_less u z = false) ->
  (__df d).*1 !! searchsorted_right (normalised_cdf (probabilities d)) u = Some x ->
  exists w, (x, w) ∈ __df d /\ F64.is_zero w = false.
Proof.
  intros Hacc Hnorm Hu Hx.
  set (r := searchsorted_right _ _) in Hx.
  rewrite list_lookup_fmap in Hx.
  destruct (__df d !! r) as [[f w]|] eqn:Hrow; simplify_eq/=.
  exists w. split; [by eapply list_elem_of_lookup_2|].
  destruct (F64.is_zero w) eqn:Hzero; [exfalso|done].
  assert (Hp : probabilities d !! r = Some (F64.div w (np_sum (__df d).*2)))
    by (by rewrite probabilities_lookup, Hrow).
  destruct (div_zero_num w (np_sum (__df d).*2) Hzero) as [Hz|Hnan].
  - apply zero_probability_not_drawn in Hp; [congruence|done|done].
  - apply (accepted_no_nan _ Hacc). rewrite <-Hnan. by eapply list_elem_of_lookup_2.
Qed.

Lemma zero_weight_not_drawn s self d face times rolls s' :
  st_dice s !! self = Some d ->
  Forall (fun r => r.1 = face -> F64.is_zero r.2 = true) (__df d) ->
  normalisable (probabilities d) = true ->
  roll self times s = (inr rolls, s') ->
  face ∉ rolls.
Proof.
  intros Hd Hzero Hnorm Hroll (i & Hi)%list_elem_of_lookup_1.
  apply roll_ok_inv in Hroll as (d' & Hd' & _ & Hacc & _ & _ & Hdraw).
  simplify_eq. apply Hdraw in Hi.
  apply drawn_face_weight in Hi as (w & Hw & Hnz); [|done..|].
  - rewrite Forall_forall in Hzero. specialize (Hzero _ Hw eq_refl). simpl in Hzero.
    congruence.
  - intros z Hz. by apply uniform_not_less_zero.
Qed.

Lemma roll_faces s self d times rolls s' :
  st_dice s !! self = Some d ->
  roll self times s = (inr rolls, s') ->
  Forall (.∈ (__df d).*1) rolls.
Proof.
  intros Hd Hroll.
  apply roll_ok_inv in Hroll as (d' & Hd' & _ & _ & _ & _ & Hdraw). simplify_eq.
  apply Forall_forall. intros x (i & Hi)%list_elem_of_lookup_1.
  apply Hdraw in Hi. by eapply list_elem_of_lookup_2.
Qed.

(** X8: for a die whose running total of probabilities ends on a finite
    number other than zero, a face of weight zero is never rolled, and a die
    with weight zero on every face but one rolls that face only. *)
Theorem zero_weight_never_rolled s self d times rolls s' :
  st_dice s !! self = Some d ->
  normalisable (probabilities d) = true ->
  roll self times s = (inr rolls, s') ->
  (forall face,
     Forall (fun r => r.1 = face -> F64.is_zero r.2 = true) (__df d) ->
     face ∉ rolls)
  /\ (forall face,
        Forall (fun r => r.1 <> face -> F64.is_zero r.2 = true) (__df d) ->
        Forall (fun x => x = face) rolls).
Proof.
  intros Hd Hnorm Hroll. split.
  - intros face Hzero. by eapply zero_weight_not_drawn.
  - intros face Hzero. apply Forall_forall. intros x Hx.
    destruct (decide (x = face)) as [|Hne]; [done|]. exfalso.
    eapply (zero_weight_not_drawn s self d x); [done| |done|done|done].
    eapply Forall_impl; [done|]. intros r Hr Heq. apply Hr. congruence.
Qed.

Lemma zero_weight_never_rolled_witness :
  let g := {| rng_stream := fun i => Z.of_nat i * 3002399751580331; rng_pos := 0 |} in
  let d := {| __df := [(1, F64.zero); (2, F64.one); (3, F64.zero)] |} in
  let s := Store {[ 0%nat := d ]} ∅ ∅ g in
  exists rolls s', roll 0 4 s = (inr rolls, s') /\ (1 ∉ rolls) /\ rolls = [2; 2; 2; 2].
Proof.
  intros g d s.
  assert (Hroll : roll 0 4 s = (inr [2; 2; 2; 2], advance 4 s)) by (vm_compute; reflexivity).
  assert (Hnorm : normalisable (probabilities d) = true) by (vm_compute; reflexivity).
  destruct (zero_weight_never_rolled s 0%nat d 4 _ _ eq_refl Hnorm Hroll) as [H1 H2].
  eexists _, _. split; [exact Hroll|]. split; [|reflexivity].
  apply H1. repeat constructor; simpl; intros; (discriminate || reflexivity).
Defined.

(** A die that holds a weight which is not finite cannot be rolled. *)
Lemma loc_set_weight l face w :
  face ∈ l.*1 -> w ∈ (loc_set l face w).*2.
Proof.
  induction l as [|[f x] l IH]; simpl; [by intros ?%elem_of_nil|].
  intros [->|Hin]%elem_of_cons.
  - rewrite decide_True by done. left.
  - case_decide; [left|right; by apply IH].
Qed.

Lemma roll_non_finite s self d times :
  st_dice s !! self = Some d ->
  Exists non_finite (__df d).*2 ->
  roll self times s = (inl (Raise ValueError "probabilities contain NaN"), s).
Proof.
  intros Hd Hex. unfold roll, bind, get_die. rewrite Hd.
  pose proof (np_sum_non_finite _ Hex) as Hsum.
  apply Exists_exists in Hex as (w & Hw & Hnf).
  assert (Hnan : F64.nan ∈ np_divide (__df d).*2 (np_sum (__df d).*2)).
  { rewrite <-(div_non_finite w (np_sum (__df d).*2) Hnf Hsum).
    unfold np_divide. change (map ?f ?l) with (f <$> l).
    apply list_elem_of_fmap. by exists w. }
  unfold np_random_choice.
  rewrite decide_False.
  2:{ intros [Hnil _]. apply fmap_nil_inv in Hnil. rewrite Hnil in Hnan.
      by apply elem_of_nil in Hnan. }
  rewrite decide_False by (unfold np_divide; rewrite !length_map; tauto).
  by rewrite (kahan_sum_nan _ Hnan).
Qed.

(** X9: a die that holds a weight which is not finite (an infinity or
    NaN) cannot be rolled: for every number of rolls [roll] raises the
    [ValueError] "probabilities contain NaN" and changes nothing.  Such a
    die is what [change_weight] leaves when it is given such a weight. *)
Theorem non_finite_weight_spec s self d :
  st_dice s !! self = Some d ->
  (Exists non_finite (__df d).*2 ->
     forall times,
       roll self times s = (inl (Raise ValueError "probabilities contain NaN"), s))
  /\ (forall face f,
        face ∈ (__df d).*1 -> non_finite f ->
        exists s1,
          change_weight self face (PyFloat f) s = (inr tt, s1)
          /\ forall times,
               roll self times s1
               = (inl (Raise ValueError "probabilities contain NaN"), s1)).
Proof.
  intros Hd. split.
  - intros Hex times. by apply (roll_non_finite s self d).
  - intros face f Hface Hf. unfold change_weight, bind, get_die. rewrite Hd.
    rewrite decide_False by (by intros ?). simpl.
    eexists. split; [reflexivity|]. intros times.
    apply (roll_non_finite _ _ {| __df := loc_set (__df d) face f |});
      [apply lookup_insert_eq|].
    apply Exists_exists. exists f. split; [|done]. by apply loc_set_weight.
Qed.

Lemma non_finite_weight_spec_witness :
  let d := {| __df := [(1, F64.one); (2, F64.one)] |} in
  let s := Store {[ 0%nat := d ]} ∅ ∅ {| rng_stream := fun _ => 0; rng_pos := 0 |} in
  exists s1,
    change_weight 0 2 (PyFloat F64.inf) s = (inr tt, s1)
    /\ forall times,
         roll 0 times s1 = (inl (Raise ValueError "probabilities contain NaN"), s1).
Proof.
  intros d s.
  assert (Hd : st_dice s !! 0%nat = Some d) by reflexivity.
  assert (H2 : 2 ∈ (__df d).*1) by (apply (bool_decide_unpack _); exact I).
  assert (Hinf : non_finite F64.inf) by reflexivity.
  destruct (proj2 (non_finite_weight_spec s 0%nat d Hd) 2 F64.inf H2 Hinf)
    as (s1 & H1 & Hr).
  exists s1. split; [exact H1|exact Hr].
Defined.

(** A negative number of rolls. *)
Lemma np_random_choice_negative a size p s :
  length p = length a -> size < 0 ->
  exists msg, np_random_choice a size p s = (inl (Raise ValueError msg), s).
Proof.
  intros Hlen Hsize. unfold np_random_choice.
  case_decide as Ha; [by eexists|]. case_decide; [by eexists|].
  destruct (F64.is_nan _); [by eexists|].
  destruct (existsb _ _); [by eexists|].
  destruct (F64.ltb _ _); [by eexists|].
  destruct (last (np_cumsum p)) eqn:Hlast.
  - rewrite decide_True by done. by eexists.
  - apply last_None in Hlast. apply (f_equal length) in Hlast.
    rewrite length_np_cumsum, Hlen in Hlast. destruct Ha. split; [|lia].
    by destruct a.
Qed.

(** X10: a negative number of rolls raises [ValueError] for every die and
    changes nothing, the generator included; and [play] with a negative
    number of rolls raises it for every game with that die first. *)
Theorem negative_rolls s self d times :
  st_dice s !! self = Some d -> times < 0 ->
  (exists msg, roll self times s = (inl (Raise ValueError msg), s))
  /\ (forall ga g ds,
        st_games s !! ga = Some g -> dice g = self :: ds ->
        exists msg, play ga times s = (inl (Raise ValueError msg), s)).
Proof.
  intros Hd Htimes.
  assert (Hroll : exists msg, roll self times s = (inl (Raise ValueError msg), s)).
  { unfold roll, bind, get_die. rewrite Hd. apply np_random_choice_negative; [|done].
    unfold np_divide. by rewrite !length_map. }
  split; [done|]. intros ga g ds Hg Hdice. destruct Hroll as [msg Hroll].
  exists msg. unfold play, bind, get_game. rewrite Hg, Hdice. cbn [play_loop].
  unfold bind. by rewrite Hroll.
Qed.

Lemma negative_rolls_witness :
  let d := {| __df := [(1, F64.one); (2, F64.one)] |} in
  let g := {| dice := [0%nat; 0%nat]; _play_df := None |} in
  let s := Store {[ 0%nat := d ]} {[ 0%nat := g ]} ∅
                 {| rng_stream := fun _ => 0; rng_pos := 0 |} in
  (exists msg, roll 0 (-1) s = (inl (Raise ValueError msg), s))
  /\ (exists msg, play 0 (-1) s = (inl (Raise ValueError msg), s)).
Proof.
  intros d g s.
  destruct (negative_rolls s 0%nat d (-1) eq_refl ltac:(lia)) as [H1 H2].
  split; [exact H1|]. exact (H2 0%nat g [0%nat] eq_refl eq_refl).
Defined.

(** X6: [roll] samples by the inverse of the cumulative distribution.  A
    roll that returns has consumed as many uniform draws as faces it returns,
    and its [i]-th face is the face at an index [k] such that the [i]-th
    draw lies below the normalised cumulative probability at [k] and not
    below the one at [k - 1]. *)
Theorem roll_inverse_cdf s self d times rolls s' :
  st_dice s !! self = Some d ->
  roll self times s = (inr rolls, s') ->
  s' = advance (Z.to_nat times) s
  /\ length rolls = Z.to_nat times
  /\ forall i x, rolls !! i = Some x ->
       let cdf := normalised_cdf (probabilities d) in
       let u := uniform (st_rng s) i in
       exists k c,
         (__df d).*1 !! k = Some x
         /\ cdf !! k = Some c /\ np_less u c = true
         /\ forall k' c', k = S k' -> cdf !! k' = Some c' -> np_less u c' = false.
Proof.
  intros Hd Hroll.
  apply roll_ok_inv in Hroll as (d' & Hd' & _ & _ & Hs & Hlen & Hdraw). simplify_eq.
  split; [done|]. split; [done|]. intros i x Hi cdf u.
  apply Hdraw in Hi. fold cdf u in Hi.
  destruct (searchsorted_right_spec cdf u) as (_ & Hprev & Hat).
  set (k := searchsorted_right cdf u) in *.
  destruct Hat as [Hk|(c & Hc & Hless)].
  { apply lookup_lt_Some in Hi. unfold cdf in Hk.
    rewrite length_normalised_cdf in Hk. unfold probabilities, np_divide in Hk.
    rewrite length_map, !length_fmap in *. lia. }
  exists k, c. do 3 (split; [done|]). intros k' c' Hk' Hc'.
  destruct Hprev as [Hz|(y & Hy & Hge)]; [lia|].
  rewrite Hk' in Hy. replace (S k' - 1)%nat with k' in Hy by lia. congruence.
Qed.

Lemma roll_inverse_cdf_witness :
  let g := {| rng_stream := fun i => Z.of_nat i * 3002399751580331; rng_pos := 0 |} in
  let d := {| __df := [(1, F64.one); (2, F64.one); (3, F64.one)] |} in
  let s := Store {[ 0%nat := d ]} ∅ ∅ g in
  roll 0 4 s = (inr [1; 2; 3; 1], advance 4 s)
  /\ exists k c, (__df d).*1 !! k = Some 2
       /\ normalised_cdf (probabilities d) !! k = Some c
       /\ np_less (uniform g 1) c = true.
Proof.
  intros g d s.
  assert (Hroll : roll 0 4 s = (inr [1; 2; 3; 1], advance 4 s)) by (vm_compute; reflexivity).
  split; [exact Hroll|].
  assert (Hd : st_dice s !! 0%nat = Some d) by reflexivity.
  destruct (roll_inverse_cdf s 0%nat d 4 _ _ Hd Hroll) as (_ & _ & H).
  assert (H12 : [1; 2; 3; 1] !! 1%nat = Some 2) by reflexivity.
  destruct (H 1%nat 2 H12) as (k & c & H1 & H2 & H3 & _).
  exists k, c. exact (conj H1 (conj H2 H3)).
Defined.

(** ** Construction of a die *)

Lemma length_remove_dups_le {A} `{EqDecision A} (l : list A) :
  (length (remove_dups l) <= length l)%nat.
Proof.
  induction l as [|x l IH]; simpl; [done|]. case_decide; simpl; lia.
Qed.

Lemma length_remove_dups_NoDup {A} `{EqDecision A} (l : list A) :
  length (remove_dups l) = length l <-> NoDup l.
Proof.
  induction l as [|x l IH]; simpl; [split; [constructor|done]|].
  pose proof (length_remove_dups_le l). rewrite NoDup_cons.
  case_decide as Hx; simpl.
  - split; [lia|tauto].
  - rewrite <-IH. split; [intros [= ?]; tauto|intros [_ ->]; done].
Qed.

Lemma np_unique_NoDup xs : length (np_unique xs) = length xs <-> NoDup xs.
Proof.
  unfold np_unique. rewrite (Permutation_length (merge_sort_Permutation Z.le _)).
  apply length_remove_dups_NoDup.
Qed.

Lemma fresh_weights (xs : list label) :
  ((fun f => (f, F64.one)) <$> xs).*2 = repeat F64.one (length xs).
Proof.
  induction xs as [|x xs IH]; [done|].
  rewrite !fmap_cons. cbn [length repeat snd]. by rewrite IH.
Qed.

Lemma fresh_faces (xs : list label) : ((fun f => (f, F64.one)) <$> xs).*1 = xs.
Proof.
  induction xs as [|x xs IH]; [done|].
  rewrite !fmap_cons. cbn [fst]. by rewrite IH.
Qed.

(** X1: [Die.__init__] refuses what is not a NumPy array with a
    [TypeError] and an array in which a face occurs twice with a
    [ValueError], leaving the store as it was in both cases; an array of
    pairwise distinct faces gives a die that did not exist before, which
    [show] presents with the faces in the order given and the weight 1.0 on
    each, and every other object is as it was. *)
Theorem Die_init_spec s :
  (forall xs,
     Die_init (PyList xs) s = (inl (Raise TypeError "Faces must be a NumPy array."), s))
  /\ (forall xs, ~ NoDup xs ->
        Die_init (NdArray xs) s
        = (inl (Raise ValueError "All face values must be unique."), s))
  /\ (forall xs, NoDup xs ->
        exists a s1,
          Die_init (NdArray xs) s = (inr a, s1)
          /\ (a ∉ dom (st_dice s))
          /\ Die_show a s1 = (inr ((fun f => (f, F64.one)) <$> xs), s1)
          /\ (forall b, b <> a -> st_dice s1 !! b = st_dice s !! b)
          /\ st_games s1 = st_games s /\ st_frames s1 = st_frames s
          /\ st_rng s1 = st_rng s).
Proof.
  split; [done|]. split.
  - intros xs Hdup. unfold Die_init. rewrite decide_True; [done|].
    by rewrite np_unique_NoDup.
  - intros xs Hnd. unfold Die_init. rewrite decide_False by (by rewrite np_unique_NoDup; tauto).
    unfold new_die. eexists _, _. split; [reflexivity|].
    split; [apply is_fresh|]. split.
    + unfold Die_show, bind, get_die. cbn [st_dice]. by rewrite lookup_insert_eq.
    + split; [|done]. intros b Hb. cbn [st_dice]. by rewrite lookup_insert_ne.
Qed.

Lemma Die_init_spec_witness :
  let s := Store ∅ ∅ ∅ {| rng_stream := fun _ => 0; rng_pos := 0 |} in
  Die_init (NdArray [1; 2; 1]) s
  = (inl (Raise ValueError "All face values must be unique."), s)
  /\ exists a s1, Die_init (NdArray [1; 2; 3]) s = (inr a, s1)
       /\ Die_show a s1 = (inr [(1, F64.one); (2, F64.one); (3, F64.one)], s1).
Proof.
  intros s. destruct (Die_init_spec s) as (_ & Hdup & Hok). split.
  - apply Hdup. intros Hnd. apply NoDup_cons in Hnd as [Hin _]. apply Hin.
    apply (bool_decide_unpack _). exact I.
  - assert (Hnd : NoDup [1; 2; 3]) by (apply (bool_decide_unpack _); exact I).
    destruct (Hok [1; 2; 3] Hnd) as (a & s1 & H1 & _ & H2 & _).
    exists a, s1. exact (conj H1 H2).
Defined.

(** A die as [Die.__init__] leaves it, with up to a hundred faces, can be
    rolled. *)
Lemma uniform_probabilities n :
  (1 <= n <= 100)%nat ->
  let p := np_divide (repeat F64.one n) (np_sum (repeat F64.one n)) in
  accepted p = true /\ normalisable p = true.
Proof.
  intros Hn p.
  assert (Hall : forallb (fun n =>
            let p := np_divide (repeat F64.one n) (np_sum (repeat F64.one n)) in
            accepted p && normalisable p) (seq 1 100) = true)
    by (vm_compute; reflexivity).
  rewrite forallb_forall in Hall. apply andb_prop, (Hall n), in_seq. lia.
Qed.

(** X3: a die just made by [Die.__init__] from one to a hundred faces is
    rolled with success for every number of rolls from zero on: the result
    has that many faces, all of them faces of the die, and the generator has
    moved on by that many draws. *)
Theorem fresh_die_rolls xs s a s1 times :
  Die_init (NdArray xs) s = (inr a, s1) ->
  (1 <= length xs <= 100)%nat -> 0 <= times ->
  exists rolls,
    roll a times s1 = (inr rolls, advance (Z.to_nat times) s1)
    /\ length rolls = Z.to_nat times
    /\ Forall (.∈ xs) rolls.
Proof.
  unfold Die_init. case_decide; [done|]. unfold new_die. intros [= <- <-] Hlen Htimes.
  unfold roll, bind, get_die. cbn [st_dice]. rewrite lookup_insert_eq. cbn [__df].
  rewrite fresh_weights, fresh_faces.
  destruct (uniform_probabilities (length xs) Hlen) as [Hacc Hnorm].
  apply np_random_choice_draws; try done.
  unfold np_divide. by rewrite length_map, repeat_length.
Qed.

Lemma fresh_die_rolls_witness :
  let s := Store ∅ ∅ ∅ {| rng_stream := fun i => Z.of_nat i * 3002399751580331; rng_pos := 0 |} in
  let i := Die_init (NdArray [1; 2; 3]) s in
  exists rolls, roll 0 5 i.2 = (inr rolls, advance 5 i.2) /\ length rolls = 5%nat.
Proof.
  intros s i.
  assert (Hi : Die_init (NdArray [1; 2; 3]) s = (inr 0%nat, i.2)) by reflexivity.
  assert (Hlen : (1 <= length [1; 2; 3] <= 100)%nat) by (simpl; lia).
  assert (H5 : 0 <= 5) by lia.
  destruct (fresh_die_rolls [1; 2; 3] s 0%nat i.2 5 Hi Hlen H5) as (rolls & H1 & H2 & _).
  exists rolls. exact (conj H1 H2).
Defined.

(** ** Changes of weight, one after the other *)

Lemma loc_set_loc_set l face w1 w2 :
  loc_set (loc_set l face w1) face w2 = loc_set l face w2.
Proof.
  unfold loc_set. rewrite map_map. apply map_ext. intros [f x]. simpl.
  repeat (case_decide; simpl in * ); congruence.
Qed.

Lemma loc_set_comm l f1 f2 w1 w2 :
  f1 <> f2 -> loc_set (loc_set l f1 w1) f2 w2 = loc_set (loc_set l f2 w2) f1 w1.
Proof.
  intros Hne. unfold loc_set. rewrite !map_map. apply map_ext. intros [f x]. simpl.
  repeat (case_decide; simpl in *); congruence.
Qed.

Lemma loc_set_lookup l face w i :
  loc_set l face w !! i
  = (fun r : label * float => if decide (r.1 = face) then (r.1, w) else r) <$> l !! i.
Proof. unfold loc_set. change (map ?f ?l) with (f <$> l). apply list_lookup_fmap. Qed.

Lemma change_weight_ok s self d face w :
  st_dice s !! self = Some d -> face ∈ (__df d).*1 ->
  change_weight self face (PyFloat w) s
  = (inr tt, Store (<[self := {| __df := loc_set (__df d) face w |}]> (st_dice s))
                   (st_games s) (st_frames s) (st_rng s)).
Proof.
  intros Hd Hf. unfold change_weight, bind, get_die. rewrite Hd.
  by rewrite decide_False by (by intros ?).
Qed.

(** X4: two changes of weight on one die.  On the same face the second
    wins; on two different faces the order does not matter; [show] after a
    change gives the rows in the order they had, the row of the face with
    its new weight and every other row as it was; and no other die is
    touched. *)
Theorem change_weight_compose s self d f1 f2 w1 w2 :
  st_dice s !! self = Some d -> f1 ∈ (__df d).*1 -> f2 ∈ (__df d).*1 ->
  let cw f w := change_weight self f (PyFloat w) in
  (let! _ := cw f1 w1 in cw f1 w2) s = cw f1 w2 s
  /\ (f1 <> f2 ->
      (let! _ := cw f1 w1 in cw f2 w2) s = (let! _ := cw f2 w2 in cw f1 w1) s)
  /\ (let! _ := cw f1 w1 in Die_show self) s
     = (inr (loc_set (__df d) f1 w1), (cw f1 w1 s).2)
  /\ (forall i r, __df d !! i = Some r ->
        loc_set (__df d) f1 w1 !! i = Some (if decide (r.1 = f1) then (f1, w1) else r))
  /\ (forall other, other <> self ->
        st_dice (cw f1 w1 s).2 !! other = st_dice s !! other).
Proof.
  intros Hd H1 H2 cw. unfold cw, bind.
  rewrite !(change_weight_ok s self d) by done.
  split; [|split; [|split; [|split]]].
  - rewrite (change_weight_ok _ self {| __df := loc_set (__df d) f1 w1 |});
      [|apply lookup_insert_eq|cbn [__df]; by rewrite faces_loc_set].
    cbn [st_dice st_games st_frames st_rng __df].
    by rewrite insert_insert_eq, loc_set_loc_set.
  - intros Hne.
    rewrite (change_weight_ok _ self {| __df := loc_set (__df d) f1 w1 |});
      [|apply lookup_insert_eq|cbn [__df]; by rewrite faces_loc_set].
    rewrite (change_weight_ok _ self {| __df := loc_set (__df d) f2 w2 |});
      [|apply lookup_insert_eq|cbn [__df]; by rewrite faces_loc_set].
    cbn [st_dice st_games st_frames st_rng __df].
    by rewrite !insert_insert_eq, loc_set_comm.
  - unfold Die_show, bind, get_die. cbn [st_dice]. by rewrite lookup_insert_eq.
  - intros i r Hr. rewrite loc_set_lookup, Hr. simpl. by case_decide; subst.
  - intros other Hother. cbn [snd st_dice]. by rewrite lookup_insert_ne.
Qed.

Lemma change_weight_compose_witness :
  let d := {| __df := [(1, F64.one); (2, F64.one)] |} in
  let s := Store {[ 0%nat := d ]} ∅ ∅ {| rng_stream := fun _ => 0; rng_pos := 0 |} in
  let cw f w := change_weight 0 f (PyFloat w) in
  (let! _ := cw 1 F64.zero in cw 2 F64.inf) s
  = (let! _ := cw 2 F64.inf in cw 1 F64.zero) s
  /\ (let! _ := cw 1 F64.zero in Die_show 0) s
     = (inr [(1, F64.zero); (2, F64.one)], (cw 1 F64.zero s).2).
Proof.
  intros d s cw.
  assert (Hd : st_dice s !! 0%nat = Some d) by reflexivity.
  assert (H1 : 1 ∈ (__df d).*1) by (apply (bool_decide_unpack _); exact I).
  assert (H2 : 2 ∈ (__df d).*1) by (apply (bool_decide_unpack _); exact I).
  destruct (change_weight_compose s 0%nat d 1 2 F64.zero F64.inf Hd H1 H2)
    as (_ & Hcomm & Hshow & _).
  split; [|exact Hshow]. apply Hcomm. lia.
Defined.

(** ** The faces of a die are fixed *)

Lemma exec_dice_inv ga c s r s1 :
  exec ga c s = (r, s1) ->
  dom (st_dice s1) = dom (st_dice s)
  /\ forall a d, st_dice s !! a = Some d ->
       exists d1, st_dice s1 !! a = Some d1 /\ (__df d1).*1 = (__df d).*1.
Proof.
  assert (Hsame : st_dice s1 = st_dice s ->
    dom (st_dice s1) = dom (st_dice s)
    /\ forall a d, st_dice s !! a = Some d ->
         exists d1, st_dice s1 !! a = Some d1 /\ (__df d1).*1 = (__df d).*1).
  { intros ->. split; [done|]. intros a d Ha. by exists d. }
  destruct c as [n|form|da face w|da times]; cbn [exec].
  - destruct r as [e|[]].
    + intros (Hd & _)%play_err_inv. by apply Hsame.
    + intros (g & a & df & _ & _ & Hd & _)%play_ok_inv. by apply Hsame.
  - unfold bind. destruct (show ga form s) as [[e|w] s'] eqn:Hshow;
      unfold ret; intros [= <- <-]; apply show_inv in Hshow as (Hd & _);
      by apply Hsame.
  - unfold change_weight, bind, get_die.
    destruct (st_dice s !! da) as [d0|] eqn:Hda; [|intros [= <- <-]; by apply Hsame].
    case_decide; [intros [= <- <-]; by apply Hsame|].
    destruct (py_float w) as [e|f].
    + destruct (exn_cls e); intros [= <- <-]; by apply Hsame.
    + unfold put_die. intros [= <- <-]. cbn [st_dice]. split.
      * rewrite dom_insert_L. apply elem_of_dom_2 in Hda.
        apply set_eq. intros x. rewrite elem_of_union, elem_of_singleton.
        split; [intros [->|?]; done|by right].
      * intros a d Ha. destruct (decide (a = da)) as [->|Hne].
        -- rewrite lookup_insert_eq. eexists. split; [done|]. simpl.
           rewrite faces_loc_set. congruence.
        -- rewrite lookup_insert_ne by done. by exists d.
  - unfold bind. destruct (roll da times s) as [[e|w] s'] eqn:Hroll;
      unfold ret; intros [= <- <-]; apply roll_inv in Hroll as (Hd & _);
      by apply Hsame.
Qed.

(** X5: whatever calls are made ([play], [show], [change_weight], [roll],
    returning or raising), no die comes or goes and every die keeps its
    faces, in their order; a die made by [Die.__init__] from an array has
    the faces of the array ever after, all distinct. *)
Theorem faces_are_fixed ga cs : forall s outs s2,
  run ga cs s = (outs, s2) ->
  dom (st_dice s2) = dom (st_dice s)
  /\ (forall a d, st_dice s !! a = Some d ->
        exists d2, st_dice s2 !! a = Some d2 /\ (__df d2).*1 = (__df d).*1)
  /\ (forall xs s0 a, Die_init (NdArray xs) s0 = (inr a, s) ->
        exists d2, st_dice s2 !! a = Some d2 /\ (__df d2).*1 = xs /\ NoDup xs).
Proof.
  assert (Hrun : forall s outs s2, run ga cs s = (outs, s2) ->
    dom (st_dice s2) = dom (st_dice s)
    /\ (forall a d, st_dice s !! a = Some d ->
          exists d2, st_dice s2 !! a = Some d2 /\ (__df d2).*1 = (__df d).*1)).
  { induction cs as [|c cs IH]; intros s outs s2; cbn [run].
    - intros [= <- <-]. split; [done|]. intros a d Ha. by exists d.
    - destruct (exec ga c s) as [r s1] eqn:Hexec.
      destruct (run ga cs s1) as [rs s2'] eqn:Hrun. intros [= <- <-].
      apply exec_dice_inv in Hexec as [Hdom1 Hf1]. apply IH in Hrun as [Hdom2 Hf2].
      split; [congruence|]. intros a d Ha.
      destruct (Hf1 a d Ha) as (d1 & Ha1 & Hd1).
      destruct (Hf2 a d1 Ha1) as (d2 & Ha2 & Hd2).
      exists d2. split; [done|]. congruence. }
  intros s outs s2 Hr. destruct (Hrun s outs s2 Hr) as [Hdom Hf].
  split; [done|]. split; [done|].
  intros xs s0 a. unfold Die_init. case_decide as Hu; [done|].
  unfold new_die. intros [= <- <-]. cbn [st_dice] in Hf.
  destruct (Hf _ _ (lookup_insert_eq _ _ _)) as (d2 & Ha2 & Hd2).
  exists d2. split; [done|]. split.
  - rewrite Hd2. cbn [__df]. apply fresh_faces.
  - apply np_unique_NoDup. destruct (decide (length (np_unique xs) = length xs)); tauto.
Qed.

Lemma faces_are_fixed_witness :
  let s0 := Store ∅ ∅ ∅ {| rng_stream := fun i => Z.of_nat i; rng_pos := 0 |} in
  let s := (Die_init (NdArray [1; 2]) s0).2 in
  let r := run 0 [ChangeWeight 0%nat 2 (PyInt 5); Roll 0%nat 2; ChangeWeight 0%nat 7 PyNone] s in
  exists d2, st_dice r.2 !! 0%nat = Some d2 /\ (__df d2).*1 = [1; 2].
Proof.
  intros s0 s r.
  assert (Hr : run 0 [ChangeWeight 0%nat 2 (PyInt 5); Roll 0%nat 2; ChangeWeight 0%nat 7 PyNone] s
               = (r.1, r.2)) by apply surjective_pairing.
  assert (Hi : Die_init (NdArray [1; 2]) s0 = (inr 0%nat, s)) by reflexivity.
  destruct (faces_are_fixed 0%nat _ s r.1 r.2 Hr) as (_ & _ & H).
  destruct (H [1; 2] s0 0%nat Hi) as (d2 & H1 & H2 & _).
  exists d2. exact (conj H1 H2).
Defined.

(** ** The table of a play *)

Lemma advance_advance a b s : advance a (advance b s) = advance (b + a) s.
Proof. unfold advance. simpl. by rewrite Nat.add_assoc. Qed.

Lemma advance_0 s : advance 0 s = s.
Proof. destruct s as [? ? ? []]. unfold advance. simpl. by rewrite Nat.add_0_r. Qed.

Lemma uniform_advance a s i :
  uniform (st_rng (advance a s)) i = uniform (st_rng s) (a + i).
Proof. unfold uniform, advance. simpl. by rewrite Nat.add_assoc. Qed.

Lemma play_loop_ok_inv ds : forall i n res s out s',
  play_loop i ds n res s = (inr out, s') ->
  s' = advance (length ds * Z.to_nat n) s
  /\ (ds <> [] -> 0 <= n)
  /\ exists cols,
       out = res ++ cols /\ length cols = length ds
       /\ forall j da, ds !! j = Some da ->
            exists d rolls,
              st_dice s !! da = Some d
              /\ accepted (probabilities d) = true
              /\ cols !! j = Some (i + Z.of_nat j, rolls)
              /\ length rolls = Z.to_nat n
              /\ forall k x, rolls !! k = Some x ->
                   (__df d).*1 !! searchsorted_right
                       (normalised_cdf (probabilities d))
                       (uniform (st_rng s) (j * Z.to_nat n + k)) = Some x.
Proof.
  induction ds as [|da0 ds IH]; intros i n res s out s'.
  - simpl. unfold ret. intros [= <- <-]. split; [by rewrite advance_0|].
    split; [done|]. exists []. by rewrite app_nil_r.
  - cbn [play_loop]. unfold bind.
    destruct (roll da0 n s) as [[e|rolls] s1] eqn:Hroll; [done|].
    apply roll_ok_inv in Hroll as (d0 & Hd0 & Hn & Hacc & -> & Hlen & Hdraw).
    intros Hloop. apply IH in Hloop as (-> & _ & cols & -> & Hcols & Hcol).
    split; [rewrite advance_advance; f_equal; simpl; lia|]. split; [done|].
    exists ((i, rolls) :: cols). split; [by rewrite <-app_assoc|].
    split; [simpl; by rewrite Hcols|].
    intros [|j] da Hda; [injection Hda as <-|change (ds !! j = Some da) in Hda].
    + exists d0, rolls. rewrite Z.add_0_r. do 4 (split; [done|]).
      intros k x Hx. by apply Hdraw.
    + destruct (Hcol j da Hda) as (d & rs & Hd & Hacc' & Hj & Hrs & Hdr).
      exists d, rs. do 2 (split; [done|]).
      split; [change (cols !! j = Some (i + Z.of_nat (S j), rs));
              rewrite Hj; do 2 f_equal; lia|].
      split; [done|]. intros k x Hx. specialize (Hdr k x Hx).
      rewrite uniform_advance in Hdr.
      by replace (S j * Z.to_nat n + k)%nat
        with (Z.to_nat n + (j * Z.to_nat n + k))%nat by lia.
Qed.

Lemma omap_lookup_all (cs : list (list label)) i : forall j,
  Forall (fun c => (i < length c)%nat) cs ->
  omap (fun c => c !! i) cs !! j = cs !! j ≫= (.!! i).
Proof.
  induction cs as [|c cs IH]; intros j Hall; [done|].
  inversion_clear Hall as [|?? Hc Hcs].
  destruct (lookup_lt_is_Some_2 c i Hc) as [x Hx].
  simpl. rewrite Hx. destruct j as [|j]; simpl; [done|]. by apply IH.
Qed.

Lemma transpose_lookup n (cols : list (list label)) i row :
  Forall (fun c => length c = n) cols ->
  transpose n cols !! i = Some row ->
  (i < n)%nat /\ length row = length cols
  /\ forall j, row !! j = cols !! j ≫= (.!! i).
Proof.
  intros Hcols Hrow. pose proof (length_transpose_row n cols i row Hcols Hrow) as Hlen.
  unfold transpose in Hrow. change (map ?f ?l) with (f <$> l) in Hrow.
  rewrite list_lookup_fmap in Hrow.
  destruct (seq 0 n !! i) as [k|] eqn:Hk; [|done].
  apply lookup_seq in Hk as [-> Hi]. injection Hrow as <-.
  split; [done|]. split; [done|]. intros j. apply omap_lookup_all.
  eapply Forall_impl; [done|]. simpl. intros c ->. lia.
Qed.

Lemma pd_DataFrame_ok n (data : list (Z * list label)) s :
  Forall (fun kc => length kc.2 = n) data ->
  pd_DataFrame data s
  = (inr (Frame (data.*1) (match data with [] => [] | _ => transpose n (data.*2) end)), s).
Proof.
  intros Hlen. destruct data as [|[k c] data]; [done|].
  inversion_clear Hlen as [|?? Hc Hdata]. simpl in Hc. subst n.
  unfold pd_DataFrame.
  assert (forallb (fun kc : Z * list label => bool_decide (length kc.2 = length c))
            ((k, c) :: data) = true) as ->; [|done].
  apply forallb_forall. intros kc [<-|Hkc%list_elem_of_In]%in_inv.
  - by apply bool_decide_eq_true_2.
  - apply bool_decide_eq_true_2. by eapply Forall_forall in Hdata.
Qed.

(** What a [play] that returns leaves, cell by cell. *)
Lemma play_ok_cells ga g n s s1 :
  st_games s !! ga = Some g -> play ga n s = (inr tt, s1) ->
  exists df,
    s1 = Store (st_dice s)
           (<[ga := {| dice := dice g; _play_df := Some (fresh (dom (st_frames s))) |}]>
              (st_games s))
           (<[fresh (dom (st_frames s)) := df]> (st_frames s))
           (st_rng (advance (length (dice g) * Z.to_nat n) s))
    /\ columns df = Z.of_nat <$> seq 0 (length (dice g))
    /\ (dice g <> [] -> 0 <= n /\ length (rows df) = Z.to_nat n)
    /\ (dice g = [] -> rows df = [])
    /\ forall i row, rows df !! i = Some row ->
         length row = length (dice g)
         /\ forall j v, row !! j = Some v ->
              exists da d,
                dice g !! j = Some da /\ st_dice s !! da = Some d
                /\ accepted (probabilities d) = true
                /\ (__df d).*1 !! searchsorted_right
                       (normalised_cdf (probabilities d))
                       (uniform (st_rng s) (j * Z.to_nat n + i)) = Some v.
Proof.
  intros Hg. unfold play, bind, get_game. rewrite Hg.
  destruct (play_loop 0 (dice g) n [] s) as [[e|res] s0] eqn:Hloop; [done|].
  apply play_loop_ok_inv in Hloop as (-> & Hn & cols & -> & Hlen & Hcol).
  rewrite app_nil_l.
  assert (Hcols : Forall (fun kc : Z * list label => length kc.2 = Z.to_nat n) cols).
  { apply Forall_forall. intros kc (j & Hj)%list_elem_of_lookup_1.
    destruct (lookup_lt_is_Some_2 (dice g) j) as [da Hda].
    { rewrite <-Hlen. by eapply lookup_lt_Some. }
    destruct (Hcol j da Hda) as (d & rolls & _ & _ & Hj' & Hr & _).
    rewrite Hj in Hj'. by injection Hj' as ->. }
  assert (Hkeys : cols.*1 = Z.of_nat <$> seq 0 (length (dice g))).
  { apply list_eq. intros j. rewrite !list_lookup_fmap.
    destruct (decide (j < length (dice g))%nat) as [Hj|Hj].
    - destruct (lookup_lt_is_Some_2 (dice g) j Hj) as [da Hda].
      destruct (Hcol j da Hda) as (d & rolls & _ & _ & -> & _).
      rewrite lookup_seq_lt by done. simpl; f_equal; lia.
    - rewrite lookup_seq_ge by lia. rewrite (lookup_ge_None_2 cols) by lia. done. }
  rewrite (pd_DataFrame_ok (Z.to_nat n) cols _ Hcols).
  set (rs := match cols with [] => [] | _ => transpose (Z.to_nat n) cols.*2 end).
  assert (Hrs : cols <> [] -> rs = transpose (Z.to_nat n) cols.*2)
    by (unfold rs; by destruct cols).
  assert (Hrs0 : cols = [] -> rs = []) by (by intros ->).
  clearbody rs.
  unfold new_frame, put_game. cbn [st_dice st_games st_frames st_rng advance].
  rewrite Hg. intros [= <-]. eexists. split; [reflexivity|].
  cbn [columns rows]. split; [done|]. split; [|split].
  - intros Hdice. split; [by apply Hn|]. rewrite Hrs.
    + unfold transpose. by rewrite length_map, length_seq.
    + intros ->. by destruct (dice g).
  - intros Hdice. apply Hrs0. rewrite Hdice in Hlen. by destruct cols.
  - intros i row Hrow.
    destruct (decide (cols = [])) as [Hc|Hc]; [by rewrite (Hrs0 Hc) in Hrow|].
    rewrite (Hrs Hc) in Hrow.
    apply (transpose_lookup (Z.to_nat n)) in Hrow as (Hi & Hrl & Hcell);
      [|by apply Forall_fmap].
    split; [by rewrite Hrl, length_fmap|].
    intros j v Hv. rewrite Hcell, list_lookup_fmap in Hv.
    destruct (cols !! j) as [[k rolls]|] eqn:Hj; [|done]. simpl in Hv.
    destruct (lookup_lt_is_Some_2 (dice g) j) as [da Hda].
    { rewrite <-Hlen. by eapply lookup_lt_Some. }
    destruct (Hcol j da Hda) as (d & rolls' & Hd & Hacc & Hj' & _ & Hdr).
    rewrite Hj in Hj'. injection Hj' as -> ->.
    exists da, d. do 3 (split; [done|]). by apply Hdr.
Qed.

(** X11: the table a [play] of [n] rolls leaves for a game with at least
    one die, whatever the game held before: [n] is not negative, the frame is
    a new one, its columns are the positions 0, 1, ... of the dice, it has
    [n] rows of one cell for every die, and the cell of column [j] is a face
    of die [j] (nothing asks the dice to have the same faces).  The dice are
    as they were. *)
Theorem play_table s ga g n s1 :
  st_games s !! ga = Some g -> dice g <> [] ->
  play ga n s = (inr tt, s1) ->
  0 <= n
  /\ st_dice s1 = st_dice s
  /\ exists fa df,
       st_games s1 !! ga = Some {| dice := dice g; _play_df := Some fa |}
       /\ (fa ∉ dom (st_frames s))
       /\ st_frames s1 !! fa = Some df
       /\ columns df = Z.of_nat <$> seq 0 (length (dice g))
       /\ length (rows df) = Z.to_nat n
       /\ Forall (fun row => length row = length (dice g)) (rows df)
       /\ forall i j row v, rows df !! i = Some row -> row !! j = Some v ->
            exists da d,
              dice g !! j = Some da /\ st_dice s !! da = Some d /\ v ∈ (__df d).*1.
Proof.
  intros Hg Hdice Hplay.
  destruct (play_ok_cells ga g n s s1 Hg Hplay) as (df & -> & Hcols & Hn & _ & Hcell).
  destruct (Hn Hdice) as [Hn0 Hrows].
  split; [done|]. split; [done|].
  exists (fresh (dom (st_frames s))), df. cbn [st_games st_frames].
  split; [apply lookup_insert_eq|]. split; [apply is_fresh|].
  split; [apply lookup_insert_eq|]. do 2 (split; [done|]). split.
  - apply Forall_forall. intros row (i & Hi)%list_elem_of_lookup_1.
    by apply (Hcell i row).
  - intros i j row v Hrow Hv.
    destruct (proj2 (Hcell i row Hrow) j v Hv) as (da & d & Hda & Hd & _ & Hx).
    exists da, d. do 2 (split; [done|]). by eapply list_elem_of_lookup_2.
Qed.

Lemma play_table_witness :
  let g0 := {| rng_stream := fun i => Z.of_nat i * 3002399751580331; rng_pos := 0 |} in
  let d := {| __df := [(1, F64.one); (2, F64.one)] |} in
  let g := {| dice := [0%nat; 0%nat]; _play_df := Some 0%nat |} in
  let s := Store {[ 0%nat := d ]} {[ 0%nat := g ]} {[ 0%nat := Frame [0; 1] [[1; 2]] ]} g0 in
  let p := play 0 3 s in
  p.1 = inr tt
  /\ exists fa df, st_games p.2 !! 0%nat = Some {| dice := [0%nat; 0%nat]; _play_df := Some fa |}
       /\ st_frames p.2 !! fa = Some df
       /\ columns df = [0; 1] /\ length (rows df) = 3%nat.
Proof.
  intros g0 d g s p.
  assert (Hp : p.1 = inr tt) by (vm_compute; reflexivity).
  split; [exact Hp|].
  assert (Hg : st_games s !! 0%nat = Some g) by reflexivity.
  assert (Hdice : dice g <> []) by discriminate.
  assert (Hplay : play 0 3 s = (inr tt, p.2))
    by (apply injective_projections; [exact Hp|reflexivity]).
  destruct (play_table s 0%nat g 3 p.2 Hg Hdice Hplay)
    as (_ & _ & fa & df & H1 & _ & H2 & H3 & H4 & _).
  exists fa, df. exact (conj H1 (conj H2 (conj H3 H4))).
Defined.

Lemma take_err a idx s e s' : take a idx s = (inl e, s') -> exn_cls e = IndexError.
Proof.
  revert e s'. induction idx as [|i idx IH]; intros e s'; simpl; [done|].
  destruct (a !! i); [|by intros [= <- _]].
  unfold bind. destruct (take a idx s) as [[e'|xs] s1] eqn:Ht; [|done].
  intros [= <- <-]. by apply (IH e' s1).
Qed.

Lemma roll_err_inv self times s e s' :
  roll self times s = (inl e, s') ->
  s' = s \/ (exn_cls e = IndexError /\ s' = advance (Z.to_nat times) s).
Proof.
  unfold roll, bind, get_die.
  destruct (st_dice s !! self) as [d|]; [|intros [= <- <-]; by left].
  unfold np_random_choice.
  repeat (case_decide; [intros [= <- <-]; by left|]).
  repeat (case_match; [intros [= <- <-]; by left|]).
  case_match; [|intros [= <- <-]; by left].
  case_decide; [intros [= <- <-]; by left|].
  unfold bind, random_sample. intros Ht. right.
  pose proof (take_store _ _ _ _ _ Ht) as ->. split; [|done].
  by eapply take_err.
Qed.

(** X12: the draws of a [play].  A [play] of [n] rolls that returns has
    moved the generator on by [n] draws for every die, and the cell of round
    [i] and die [j] is the face that draw [j * n + i] selects on die [j]: the
    dice are rolled one after the other, [n] times each.  A [play] that
    raises anything but the [IndexError] of an index out of range has moved
    the generator on by the [n] draws of each die before the one that
    raised, and changed nothing else. *)
Theorem play_draws s ga g n :
  st_games s !! ga = Some g ->
  (forall s1, play ga n s = (inr tt, s1) ->
     st_rng s1 = st_rng (advance (length (dice g) * Z.to_nat n) s)
     /\ exists fa df,
          st_games s1 !! ga = Some {| dice := dice g; _play_df := Some fa |}
          /\ st_frames s1 !! fa = Some df
          /\ forall i j row v, rows df !! i = Some row -> row !! j = Some v ->
               exists da d,
                 dice g !! j = Some da /\ st_dice s !! da = Some d
                 /\ (__df d).*1 !! searchsorted_right
                        (normalised_cdf (probabilities d))
                        (uniform (st_rng s) (j * Z.to_nat n + i)) = Some v)
  /\ (forall e s1, play ga n s = (inl e, s1) -> exn_cls e <> IndexError ->
        exists k, (k < length (dice g))%nat /\ s1 = advance (k * Z.to_nat n) s).
Proof.
  intros Hg. split.
  - intros s1 Hplay.
    destruct (play_ok_cells ga g n s s1 Hg Hplay) as (df & -> & _ & _ & _ & Hcell).
    split; [done|]. exists (fresh (dom (st_frames s))), df. cbn [st_games st_frames].
    split; [apply lookup_insert_eq|]. split; [apply lookup_insert_eq|].
    intros i j row v Hrow Hv.
    destruct (proj2 (Hcell i row Hrow) j v Hv) as (da & d & Hda & Hd & _ & Hx).
    by exists da, d.
  - intros e s1 Hplay He.
    apply play_err_inv in Hplay as (_ & _ & _ & Herr).
    destruct (Herr g Hg) as (pre & d & post & res0 & s0 & Hdice & Hpre & Hroll).
    apply play_loop_ok_inv in Hpre as (-> & _).
    exists (length pre). split; [rewrite Hdice, length_app; simpl; lia|].
    by apply roll_err_inv in Hroll as [->|[? _]].
Qed.

Lemma play_draws_witness :
  let g0 := {| rng_stream := fun i => Z.of_nat i * 3002399751580331; rng_pos := 0 |} in
  let fair := {| __df := [(1, F64.one); (2, F64.one)] |} in
  let dead := {| __df := [(1, F64.zero); (2, F64.zero)] |} in
  let g := {| dice := [0; 1]%nat; _play_df := None |} in
  let s := Store {[ 0%nat := fair; 1%nat := dead ]} {[ 0%nat := g ]} ∅ g0 in
  play 0 3 s = (inl (Raise ValueError "probabilities contain NaN"), advance 3 s)
  /\ exists k, (k < 2)%nat /\ advance 3 s = advance (k * 3) s.
Proof.
  intros g0 fair dead g s.
  assert (Hg : st_games s !! 0%nat = Some g) by reflexivity.
  assert (Hplay : play 0 3 s
                  = (inl (Raise ValueError "probabilities contain NaN"), advance 3 s))
    by (vm_compute; reflexivity).
  split; [exact Hplay|].
  assert (He : exn_cls (Raise ValueError "probabilities contain NaN") <> IndexError)
    by discriminate.
  exact (proj2 (play_draws s 0%nat g 3 Hg) _ _ Hplay He).
Defined.

(** X13: a game without dice is played with success for every number of
    rolls, negative ones included: no draw is made, the dice are as they
    were, the game holds a new frame with no column and no row, and
    [show(form='wide')] hands out another such frame. *)
Theorem play_no_dice s ga g n :
  st_games s !! ga = Some g -> dice g = [] ->
  exists fa s1,
    play ga n s = (inr tt, s1)
    /\ (fa ∉ dom (st_frames s))
    /\ st_games s1 !! ga = Some {| dice := []; _play_df := Some fa |}
    /\ st_frames s1 !! fa = Some (Frame [] [])
    /\ st_dice s1 = st_dice s /\ st_rng s1 = st_rng s
    /\ exists fb s2,
         show ga "wide" s1 = (inr (Wide fb), s2)
         /\ fb <> fa /\ st_frames s2 !! fb = Some (Frame [] []).
Proof.
  intros Hg Hdice. unfold play, bind, get_game. rewrite Hg, Hdice.
  cbn [play_loop]. unfold pd_DataFrame, ret, new_frame, put_game.
  cbn [st_dice st_games st_frames st_rng]. rewrite ?Hg, ?Hdice.
  set (fa := fresh (dom (st_frames s))).
  assert (Hfa : fa ∉ dom (st_frames s)) by apply is_fresh.
  eexists fa, _. split; [reflexivity|]. cbn [st_dice st_games st_frames st_rng].
  split; [done|]. split; [apply lookup_insert_eq|]. split; [apply lookup_insert_eq|].
  do 2 (split; [done|]).
  eexists _, _. split.
  - eapply show_wide; cbn [st_games st_frames _play_df]; [apply lookup_insert_eq|done|].
    apply lookup_insert_eq.
  - cbn [st_frames]. split; [|apply lookup_insert_eq].
    intros Heq. apply (is_fresh (dom (<[fa := Frame [] []]> (st_frames s)))).
    rewrite Heq, dom_insert_L. apply elem_of_union_l, elem_of_singleton. done.
Qed.

Lemma play_no_dice_witness :
  let s := Store ∅ {[ 0%nat := {| dice := []; _play_df := None |} ]} ∅
                 {| rng_stream := fun _ => 0; rng_pos := 0 |} in
  exists fa s1, play 0 (-7) s = (inr tt, s1)
    /\ st_frames s1 !! fa = Some (Frame [] []).
Proof.
  intros s.
  assert (Hg : st_games s !! 0%nat = Some {| dice := []; _play_df := None |}) by reflexivity.
  assert (Hd : dice {| dice := []; _play_df := None |} = []) by reflexivity.
  destruct (play_no_dice s 0%nat _ (-7) Hg Hd) as (fa & s1 & H1 & _ & _ & H2 & _).
  exists fa, s1. exact (conj H1 H2).
Defined.

(** ** The frame of a game, along a history *)

Lemma exec_table_inv ga c s r s1 :
  exec ga c s = (r, s1) ->
  forall g,
    st_games s !! ga = Some g ->
    (forall fa, _play_df g = Some fa ->
       exists df, st_frames s !! fa = Some df /\ results_table df
         /\ length (columns df) = length (dice g)) ->
    exists g1,
      st_games s1 !! ga = Some g1 /\ dice g1 = dice g
      /\ forall fa, _play_df g1 = Some fa ->
           exists df, st_frames s1 !! fa = Some df /\ results_table df
             /\ length (columns df) = length (dice g1).
Proof.
  intros Hexec g Hg Hinv.
  assert (Hsame : st_games s1 = st_games s ->
    (forall x d, st_frames s !! x = Some d -> st_frames s1 !! x = Some d) ->
    exists g1,
      st_games s1 !! ga = Some g1 /\ dice g1 = dice g
      /\ forall fa, _play_df g1 = Some fa ->
           exists df, st_frames s1 !! fa = Some df /\ results_table df
             /\ length (columns df) = length (dice g1)).
  { intros Hgs Hfs. exists g. rewrite Hgs. do 2 (split; [done|]).
    intros fa Hfa. destruct (Hinv fa Hfa) as (df & Hdf & Ht & Hc).
    exists df. split; [by apply Hfs|done]. }
  pose proof (exec_inv ga c s r s1 Hexec) as [Hkeep _].
  destruct c as [n|form|da face w|da times]; cbn [exec] in Hexec.
  - destruct r as [e|[]].
    + apply play_err_inv in Hexec as (_ & Hgs & _). by apply Hsame.
    + apply play_ok_inv in Hexec
        as (g' & a & df & Hg' & -> & _ & Hgs & Hfs & Ht & Hc & _).
      rewrite Hg in Hg'. injection Hg' as <-.
      eexists. rewrite Hgs, lookup_insert_eq. split; [done|]. split; [done|].
      cbn [_play_df dice]. intros fa [= <-]. exists df.
      rewrite Hfs, lookup_insert_eq. done.
  - unfold bind in Hexec. destruct (show ga form s) as [[e|w] s'] eqn:Hshow;
      unfold ret in Hexec; injection Hexec as <- <-;
      apply show_inv in Hshow as (_ & Hgs & _); by apply Hsame.
  - apply change_weight_inv in Hexec as [Hgs _]. by apply Hsame.
  - unfold bind in Hexec. destruct (roll da times s) as [[e|w] s'] eqn:Hroll;
      unfold ret in Hexec; injection Hexec as <- <-;
      apply roll_inv in Hroll as (_ & Hgs & _); by apply Hsame.
Qed.

Lemma run_table_inv ga cs : forall s outs s2,
  run ga cs s = (outs, s2) ->
  forall g,
    st_games s !! ga = Some g ->
    (forall fa, _play_df g = Some fa ->
       exists df, st_frames s !! fa = Some df /\ results_table df
         /\ length (columns df) = length (dice g)) ->
    exists g2,
      st_games s2 !! ga = Some g2 /\ dice g2 = dice g
      /\ forall fa, _play_df g2 = Some fa ->
           exists df, st_frames s2 !! fa = Some df /\ results_table df
             /\ length (columns df) = length (dice g2).
Proof.
  induction cs as [|c cs IH]; intros s outs s2; cbn [run].
  - intros [= <- <-] g Hg Hinv. by exists g.
  - destruct (exec ga c s) as [r s1] eqn:Hexec.
    destruct (run ga cs s1) as [rs s2'] eqn:Hrun. intros [= <- <-] g Hg Hinv.
    destruct (exec_table_inv ga c s r s1 Hexec g Hg Hinv) as (g1 & Hg1 & Hd1 & Hinv1).
    destruct (IH s1 rs s2' Hrun g1 Hg1 Hinv1) as (g2 & Hg2 & Hd2 & Hinv2).
    exists g2. split; [done|]. split; [congruence|done].
Qed.

(** X15: after any history of calls on a game made by [Game.__init__], the
    game has the dice it was made with and, if it holds a frame, that frame
    exists, has a column for every die and a cell in every column of every
    row; hence [show] does one of three things, whatever the form: it
    raises "No game has been played yet.", it raises "Invalid form. Use
    'wide' or 'narrow'.", or it returns. *)
Theorem results_invariant dice_list s0 ga s1 cs outs s2 :
  Game_init dice_list s0 = (inr ga, s1) -> run ga cs s1 = (outs, s2) ->
  exists g,
    st_games s2 !! ga = Some g /\ dice g = dice_list
    /\ (forall fa, _play_df g = Some fa ->
          exists df, st_frames s2 !! fa = Some df /\ results_table df
            /\ length (columns df) = length dice_list)
    /\ forall form,
         show ga form s2 = (inl no_results_yet, s2)
         \/ show ga form s2 = (inl invalid_form, s2)
         \/ exists w s3, show ga form s2 = (inr w, s3).
Proof.
  unfold Game_init, new_game. intros [= <- <-] Hrun.
  apply run_table_inv with (g := {| dice := dice_list; _play_df := None |}) in Hrun
    as (g & Hg & Hd & Hinv); [|apply lookup_insert_eq|done].
  exists g. split; [done|]. split; [exact Hd|]. split.
  - intros fa Hfa. destruct (Hinv fa Hfa) as (df & ? & ? & Hc). exists df.
    simpl in Hd. do 2 (split; [done|]). congruence.
  - intros form. destruct (_play_df g) as [fa|] eqn:Hfa.
    + destruct (Hinv fa eq_refl) as (df & Hdf & _).
      destruct (decide (form = "wide")) as [->|Hw].
      { right. right. eexists _, _. by eapply show_wide. }
      destruct (decide (form = "narrow")) as [->|Hn].
      { right. right. eexists _, _. by eapply show_narrow. }
      right. left. by eapply show_invalid_form.
    + left. by eapply show_no_results.
Qed.

Lemma results_invariant_witness :
  let s0 := Store {[ 0%nat := {| __df := [(1, F64.one); (2, F64.one)] |} ]} ∅ ∅
                  {| rng_stream := fun i => Z.of_nat i * 3002399751580331; rng_pos := 0 |} in
  let s1 := (Game_init [0%nat; 0%nat] s0).2 in
  let r := run 0 [Play 2; ChangeWeight 0%nat 1 (PyInt 0); Play (-1); Show "long"] s1 in
  exists g, st_games r.2 !! 0%nat = Some g /\ dice g = [0%nat; 0%nat]
    /\ forall fa, _play_df g = Some fa ->
         exists df, st_frames r.2 !! fa = Some df /\ length (columns df) = 2%nat.
Proof.
  intros s0 s1 r.
  assert (Hi : Game_init [0%nat; 0%nat] s0 = (inr 0%nat, s1)) by reflexivity.
  assert (Hr : run 0 [Play 2; ChangeWeight 0%nat 1 (PyInt 0); Play (-1); Show "long"] s1
               = (r.1, r.2)) by apply surjective_pairing.
  destruct (results_invariant _ _ _ _ _ _ _ Hi Hr) as (g & H1 & H2 & H3 & _).
  exists g. split; [exact H1|]. split; [exact H2|].
  intros fa Hfa. destruct (H3 fa Hfa) as (df & Hdf & _ & Hc). exists df.
  exact (conj Hdf Hc).
Defined.

(** ** [show] hands out copies *)

(** X16: [show(form='wide')] returns a copy.  The frame it returns is one
    that did not exist before, with the cells of the frame of the game; a
    second call returns yet another one; the frames there were, the games,
    the dice and the generator are as they were. *)
Theorem show_wide_copy s ga g fa df :
  st_games s !! ga = Some g -> _play_df g = Some fa -> st_frames s !! fa = Some df ->
  exists a1 a2 s1 s2,
    show ga "wide" s = (inr (Wide a1), s1)
    /\ show ga "wide" s1 = (inr (Wide a2), s2)
    /\ (a1 ∉ dom (st_frames s)) /\ (a2 ∉ dom (st_frames s)) /\ a1 <> a2
    /\ st_frames s2 !! a1 = Some df /\ st_frames s2 !! a2 = Some df
    /\ (forall x d, st_frames s !! x = Some d -> st_frames s2 !! x = Some d)
    /\ st_games s2 = st_games s /\ st_dice s2 = st_dice s /\ st_rng s2 = st_rng s.
Proof.
  intros Hg Hfa Hdf.
  set (a1 := fresh (dom (st_frames s))).
  set (s1 := Store (st_dice s) (st_games s) (<[a1 := df]> (st_frames s)) (st_rng s)).
  set (a2 := fresh (dom (st_frames s1))).
  assert (H1 : a1 ∉ dom (st_frames s)) by apply is_fresh.
  assert (H2 : a2 ∉ dom (st_frames s1)) by apply is_fresh.
  cbn [s1 st_frames] in H2. rewrite dom_insert_L, not_elem_of_union in H2.
  destruct H2 as [H21 H2]. apply not_elem_of_singleton in H21.
  assert (Hfa1 : fa <> a1).
  { intros ->. apply H1. by apply elem_of_dom_2 in Hdf. }
  exists a1, a2, s1, (Store (st_dice s1) (st_games s1) (<[a2 := df]> (st_frames s1)) (st_rng s1)).
  split; [by apply (show_wide ga g fa df s)|].
  split.
  { apply (show_wide ga g fa df s1); [done|done|].
    cbn [s1 st_frames]. by rewrite lookup_insert_ne. }
  do 2 (split; [done|]). split; [done|]. cbn [s1 st_frames st_games st_dice st_rng].
  split; [by rewrite lookup_insert_ne, lookup_insert_eq|].
  split; [by rewrite lookup_insert_eq|]. split; [|done].
  intros x d Hx. apply elem_of_dom_2 in Hx as Hdom.
  rewrite !lookup_insert_ne; [done|by intros <-..].
Qed.

Lemma show_wide_copy_witness :
  let s := Store ∅ {[ 0%nat := {| dice := []; _play_df := Some 4%nat |} ]}
                 {[ 4%nat := Frame [0; 1] [[1; 2]] ]}
                 {| rng_stream := fun _ => 0; rng_pos := 0 |} in
  exists a1 a2 s1 s2,
    show 0 "wide" s = (inr (Wide a1), s1) /\ show 0 "wide" s1 = (inr (Wide a2), s2)
    /\ a1 <> a2 /\ st_frames s2 !! a1 = Some (Frame [0; 1] [[1; 2]]).
Proof.
  intros s.
  assert (Hg : st_games s !! 0%nat = Some {| dice := []; _play_df := Some 4%nat |})
    by reflexivity.
  assert (Hfa : _play_df {| dice := []; _play_df := Some 4%nat |} = Some 4%nat)
    by reflexivity.
  assert (Hdf : st_frames s !! 4%nat = Some (Frame [0; 1] [[1; 2]])) by reflexivity.
  destruct (show_wide_copy s 0%nat _ 4%nat _ Hg Hfa Hdf)
    as (a1 & a2 & s1 & s2 & H1 & H2 & _ & _ & H3 & H4 & _).
  exists a1, a2, s1, s2. exact (conj H1 (conj H2 (conj H3 H4))).
Defined.

(** ** Construction of an analyzer *)

(** X17: [Analyzer.__init__] raises the [ValueError] "Input must be a Game
    object." for what is not a game, and changes nothing.  For a game whose
    [play] has just returned it succeeds: the analyzer refers to that game
    and holds a frame of its own, other than the frame of the game, with the
    same cells; games, dice and generator are as they were. *)
Theorem Analyzer_init_spec s :
  (forall x, (forall ga, x <> GameRef ga) ->
     Analyzer_init x s = (inl (Raise ValueError "Input must be a Game object."), s))
  /\ (forall ga g n s1,
        st_games s !! ga = Some g -> play ga n s = (inr tt, s1) ->
        exists a s2 fa df,
          Analyzer_init (GameRef ga) s1 = (inr a, s2)
          /\ game a = ga
          /\ st_games s1 !! ga = Some {| dice := dice g; _play_df := Some fa |}
          /\ st_frames s1 !! fa = Some df
          /\ results a <> fa
          /\ st_frames s2 !! results a = Some df
          /\ st_frames s2 !! fa = Some df
          /\ st_games s2 = st_games s1 /\ st_dice s2 = st_dice s1
          /\ st_rng s2 = st_rng s1).
Proof.
  split.
  - intros [ga| |] Hx; [by destruct (Hx ga)|done..].
  - intros ga g n s1 Hg Hplay.
    apply play_ok_inv in Hplay as (g' & fa & df & Hg' & -> & _ & Hgs & Hfs & _).
    rewrite Hg in Hg'. injection Hg' as <-.
    set (fa := fresh (dom (st_frames s))) in *.
    assert (Hg1 : st_games s1 !! ga = Some {| dice := dice g; _play_df := Some fa |})
      by (rewrite Hgs; apply lookup_insert_eq).
    assert (Hdf : st_frames s1 !! fa = Some df) by (rewrite Hfs; apply lookup_insert_eq).
    destruct (Analyzer_init_ok ga _ fa df s1 Hg1 eq_refl Hdf)
      as (a & s2 & Hinit & Hgame & Hnew & Hres & Hd & Hgs2 & Hrng & Hkeep).
    exists a, s2, fa, df. do 4 (split; [done|]). split.
    { intros Heq. apply Hnew. rewrite Heq. by apply elem_of_dom_2 in Hdf. }
    split; [done|]. split; [by apply Hkeep|done].
Qed.

Lemma Analyzer_init_spec_witness :
  let s := Store {[ 0%nat := {| __df := [(1, F64.one); (2, F64.one)] |} ]}
                 {[ 0%nat := {| dice := [0%nat]; _play_df := None |} ]} ∅
                 {| rng_stream := fun i => Z.of_nat i * 3002399751580331; rng_pos := 0 |} in
  let p := play 0 3 s in
  Analyzer_init (DieRef 0%nat) s
  = (inl (Raise ValueError "Input must be a Game object."), s)
  /\ exists a s2, Analyzer_init (GameRef 0%nat) p.2 = (inr a, s2) /\ game a = 0%nat.
Proof.
  intros s p. destruct (Analyzer_init_spec s) as [Hbad Hok]. split.
  - apply Hbad. discriminate.
  - assert (Hg : st_games s !! 0%nat = Some {| dice := [0%nat]; _play_df := None |})
      by reflexivity.
    assert (Hp : p.1 = inr tt) by (vm_compute; reflexivity).
    assert (Hplay : play 0 3 s = (inr tt, p.2))
      by (apply injective_projections; [exact Hp|reflexivity]).
    destruct (Hok 0%nat _ 3 p.2 Hg Hplay) as (a & s2 & fa & df & H1 & H2 & _).
    exists a, s2. exact (conj H1 H2).
Defined.

(** ** The queries of an analyzer, one against the other *)

Lemma length_filter_ext_in {A} (P Q : A -> Prop) `{!forall x, Decision (P x)}
    `{!forall x, Decision (Q x)} (l : list A) :
  (forall x, x ∈ l -> P x <-> Q x) -> length (filter P l) = length (filter Q l).
Proof.
  induction l as [|x l IH]; intros HPQ; [done|].
  rewrite !filter_cons.
  assert (Hx : P x <-> Q x) by (apply HPQ; left).
  specialize (IH (fun y Hy => HPQ y (list_elem_of_further _ _ _ Hy))).
  destruct (decide (P x)), (decide (Q x)); simpl; rewrite ?IH; tauto || done.
Qed.

Lemma filter_length_all {A} (P : A -> Prop) `{!forall x, Decision (P x)} (l : list A) :
  length (filter P l) = length l -> Forall P l.
Proof.
  induction l as [|x l IH]; [constructor|].
  rewrite filter_cons. pose proof (length_filter P l).
  destruct (decide (P x)); simpl; intros Hlen; [|lia].
  constructor; [done|]. apply IH. lia.
Qed.

Lemma jackpot_row_counts (cols row : list label) :
  row <> [] -> (forall x, x ∈ row -> x ∈ cols) ->
  nunique row = 1%nat
  <-> Z.of_nat (length row)
      ∈ (fun l => Z.of_nat (length (filter (fun x => x = l) row))) <$> cols.
Proof.
  intros Hne Hcols. rewrite nunique_one, list_elem_of_fmap. split.
  - intros (x & Hx & Hall). exists x. split; [|by apply Hcols].
    rewrite filter_all; [done|]. by apply Forall_forall.
  - intros (l & Hl & _). apply Nat2Z.inj in Hl. symmetry in Hl.
    apply filter_length_all in Hl. rewrite Forall_forall in Hl.
    exists l. split; [|done]. destruct row as [|y row]; [done|].
    rewrite <-(Hl y) at 1 by left. left.
Qed.

(** X18: [jackpot] against [face_counts_per_roll], for a table with at
    least one round: a round is a jackpot exactly when one of its face
    counts is the number of dice, so that [jackpot] is the number of rows of
    [face_counts_per_roll] in which that number occurs. *)
Theorem jackpot_face_counts df :
  results_table df -> rows df <> [] ->
  let g := Z.of_nat (length (columns df)) in
  let fc := face_counts_per_roll_of df in
  (forall i row counts,
     rows df !! i = Some row -> rows fc !! i = Some counts ->
     nunique row = 1%nat <-> g ∈ counts)
  /\ jackpot_of df = Z.of_nat (length (filter (fun counts => g ∈ counts) (rows fc))).
Proof.
  intros (_ & Hlen & Hnil) Hrows g fc.
  assert (Hc : columns df <> []) by (by intros ?%Hnil).
  destruct (face_counts_per_roll_of_rows df Hc Hrows) as (cols & Hfc & _ & Hcols).
  unfold fc. rewrite Hfc. cbn [rows].
  assert (Hrow : forall row, row ∈ rows df ->
    nunique row = 1%nat
    <-> g ∈ (fun l => Z.of_nat (length (filter (fun x => x = l) row))) <$> cols).
  { intros row Hin. rewrite Forall_forall in Hlen. unfold g. rewrite <-(Hlen row Hin).
    apply jackpot_row_counts.
    - intros ->. specialize (Hlen [] Hin). by destruct (columns df).
    - intros x Hx. apply Hcols. eauto. }
  split.
  - intros i row counts Hi. rewrite list_lookup_fmap, Hi. intros [= <-].
    apply Hrow. by eapply list_elem_of_lookup_2.
  - unfold jackpot_of, apply_reduce. f_equal.
    rewrite (length_filter_fmap nunique (fun n => n = 1%nat) (fun row => nunique row = 1%nat))
      by done.
    rewrite (length_filter_fmap
               (fun row => (fun l => Z.of_nat (length (filter (fun x => x = l) row))) <$> cols)
               (fun counts => g ∈ counts)
               (fun row => g ∈ (fun l => Z.of_nat (length (filter (fun x => x = l) row))) <$> cols))
      by done.
    by apply length_filter_ext_in.
Qed.

Lemma jackpot_face_counts_witness :
  let df := Frame [0; 1] [[1; 1]; [3; 2]; [2; 2]] in
  jackpot_of df = 2
  /\ jackpot_of df
     = Z.of_nat (length (filter (fun counts => 2 ∈ counts)
                                (rows (face_counts_per_roll_of df)))).
Proof.
  intros df.
  assert (Hdf : results_table df) by (by repeat constructor).
  assert (Hr : rows df <> []) by discriminate.
  split; [reflexivity|]. exact (proj2 (jackpot_face_counts df Hdf Hr)).
Defined.

(** The jackpots among the permutations and the combinations. *)

Section Tally.
Context `{Countable K}.
Implicit Types (xs : list K) (P : K -> Prop).

Lemma total_filter_value_counts P `{!forall k, Decision (P k)} xs :
  total (filter (fun kc : K * nat => P kc.1) (value_counts xs)) = length (filter P xs).
Proof.
  induction xs as [|x xs IH]; [done|].
  cbn [value_counts foldr]. fold (value_counts xs). rewrite filter_cons.
  set (m := value_counts xs) in *.
  destruct (decide (P x)) as [HP|HP].
  - rewrite map_filter_insert_True by done. rewrite total_insert, IH.
    assert (Hm : filter (fun kc : K * nat => P kc.1) m !! x = m !! x).
    { destruct (m !! x) as [c|] eqn:Hx.
      - by apply map_lookup_filter_Some.
      - apply map_lookup_filter_None. by left. }
    rewrite Hm. cbn [length]. lia.
  - rewrite map_filter_insert_False by done. rewrite map_filter_delete, delete_id; [done|].
    apply map_lookup_filter_None. right. by intros c _.
Qed.

Lemma size_value_counts xs : size (value_counts xs) = length (remove_dups xs).
Proof.
  rewrite <-size_dom.
  assert (Hdom : dom (value_counts xs) = list_to_set (remove_dups xs)).
  { apply set_eq. intros k. rewrite elem_of_dom, value_counts_lookup.
    rewrite elem_of_list_to_set, elem_of_remove_dups.
    case_decide; split; (by eauto) || (by intros []) || done. }
  rewrite Hdom. apply size_list_to_set, NoDup_remove_dups.
Qed.

End Tally.

Lemma length_remove_dups_fmap {A B} `{EqDecision A} `{EqDecision B} (f : A -> B)
    (l : list A) :
  (length (remove_dups (f <$> l)) <= length (remove_dups l))%nat.
Proof.
  rewrite <-(length_fmap f (remove_dups l)). apply submseteq_length.
  apply NoDup_submseteq; [apply NoDup_remove_dups|].
  intros y Hy. apply elem_of_remove_dups, list_elem_of_fmap in Hy as (x & -> & Hx).
  apply list_elem_of_fmap. exists x. split; [done|]. by apply elem_of_remove_dups.
Qed.

Lemma nunique_sorted (row : list label) : nunique (merge_sort Z.le row) = nunique row.
Proof.
  unfold nunique. apply Permutation_length, NoDup_Permutation;
    try apply NoDup_remove_dups.
  intros x. by rewrite !elem_of_remove_dups, merge_sort_Permutation.
Qed.

(** X19: [jackpot] lies between 0 and the number of rounds, and it is the
    sum of the counts [permutation_count] gives to the tuples that hold one
    face only, and also the sum of the counts [combo_count] gives to
    them. *)
Theorem jackpot_among_counts df :
  0 <= jackpot_of df <= Z.of_nat (length (rows df))
  /\ jackpot_of df
     = Z.of_nat (total (filter (fun kc : list label * nat => nunique kc.1 = 1%nat)
                               (permutation_count_of df)))
  /\ jackpot_of df
     = Z.of_nat (total (filter (fun kc : list label * nat => nunique kc.1 = 1%nat)
                               (combo_count_of df))).
Proof.
  assert (Hj : jackpot_of df
               = Z.of_nat (length (filter (fun row => nunique row = 1%nat) (rows df)))).
  { unfold jackpot_of, apply_reduce. f_equal. by apply length_filter_fmap. }
  split; [|split].
  - rewrite Hj. pose proof (length_filter (fun row => nunique row = 1%nat) (rows df)). lia.
  - rewrite Hj. unfold permutation_count_of, apply_reduce.
    pose proof (total_filter_value_counts (fun k : list label => nunique k = 1%nat)
                  (map (fun row => row) (rows df))) as Ht.
    cbv beta in Ht. rewrite Ht. by rewrite map_id.
  - rewrite Hj. unfold combo_count_of, apply_reduce.
    pose proof (total_filter_value_counts (fun k : list label => nunique k = 1%nat)
                  (map (fun row => merge_sort Z.le row) (rows df))) as Ht.
    cbv beta in Ht. rewrite Ht.
    f_equal. symmetry. apply length_filter_fmap. intros row. by rewrite nunique_sorted.
Qed.

(** X20: every count of [combo_count] and of [permutation_count] is at
    least 1 and at most the number of rounds; there are no more combinations
    than permutations and no more permutations than rounds; and with at
    least one round neither table is empty. *)
Theorem count_bounds df :
  (forall k c, combo_count_of df !! k = Some c -> (1 <= c <= length (rows df))%nat)
  /\ (forall k c, permutation_count_of df !! k = Some c ->
        (1 <= c <= length (rows df))%nat)
  /\ (size (combo_count_of df) <= size (permutation_count_of df) <= length (rows df))%nat
  /\ (rows df <> [] -> combo_count_of df <> ∅ /\ permutation_count_of df <> ∅).
Proof.
  assert (Hc : forall (xs : list (list label)) k c,
    value_counts xs !! k = Some c -> (1 <= c <= length xs)%nat).
  { intros xs k c. rewrite value_counts_lookup. case_decide as Hk; [|done].
    intros [= <-]. split; [|apply length_filter].
    apply list_elem_of_split in Hk as (l1 & l2 & ->).
    rewrite filter_app, filter_cons_True, length_app by done. simpl. lia. }
  assert (Hne : forall xs : list (list label), xs <> [] -> value_counts xs <> ∅).
  { intros [|x xs] Hxs; [done|]. simpl. apply insert_non_empty. }
  unfold combo_count_of, permutation_count_of, apply_reduce.
  change (map ?f ?l) with (f <$> l). rewrite list_fmap_id.
  split; [|split; [|split]].
  - intros k c Hk. apply Hc in Hk. by rewrite length_fmap in Hk.
  - apply Hc.
  - rewrite !size_value_counts. split; [apply length_remove_dups_fmap|].
    apply length_remove_dups_le.
  - intros Hrows. split; apply Hne; [|done]. by destruct (rows df).
Qed.

Lemma count_bounds_witness :
  let df := Frame [0; 1] [[2; 3]; [1; 1]; [3; 2]] in
  (size (combo_count_of df) <= size (permutation_count_of df) <= 3)%nat
  /\ combo_count_of df <> ∅.
Proof.
  intros df. destruct (count_bounds df) as (_ & _ & Hsize & Hne).
  split; [exact Hsize|]. apply Hne. discriminate.
Defined.

(** Combinations are permutations exactly when every row is in order. *)
Lemma merge_sort_sorted (l : list label) : Sorted Z.le l -> merge_sort Z.le l = l.
Proof.
  intros Hl. apply (Sorted_unique Z.le); [apply Sorted_merge_sort, _|done|].
  apply merge_sort_Permutation.
Qed.

(** X21: [combo_count] and [permutation_count] are the same table exactly
    when every row of the results is in ascending order; they are the same
    for every table of a game with one die. *)
Theorem combo_is_permutation df :
  (combo_count_of df = permutation_count_of df <-> Forall (Sorted Z.le) (rows df))
  /\ (results_table df -> length (columns df) = 1%nat ->
      combo_count_of df = permutation_count_of df).
Proof.
  assert (Hiff : combo_count_of df = permutation_count_of df
                 <-> Forall (Sorted Z.le) (rows df)).
  { unfold combo_count_of, permutation_count_of, apply_reduce.
    change (map ?f ?l) with (f <$> l). rewrite list_fmap_id. split.
    - intros Heq. apply Forall_forall. intros row Hrow.
      assert (Hk : is_Some (value_counts (rows df) !! row)).
      { rewrite value_counts_lookup, decide_True by done. eauto. }
      rewrite <-Heq, value_counts_lookup in Hk. case_decide as Hin; [|by destruct Hk].
      apply list_elem_of_fmap in Hin as (r & -> & _). apply Sorted_merge_sort, _.
    - intros Hs. f_equal. rewrite <-(list_fmap_id (rows df)) at 2.
      apply Forall_fmap_ext_1. eapply Forall_impl; [done|].
      intros row. apply merge_sort_sorted. }
  split; [done|]. intros (_ & Hlen & _) Hc. apply Hiff.
  eapply Forall_impl; [done|]. intros row. simpl. rewrite Hc.
  destruct row as [|x [|??]]; try done. intros _. repeat constructor.
Qed.

Lemma combo_is_permutation_witness :
  let df := Frame [0] [[2]; [1]; [2]] in
  combo_count_of df = permutation_count_of df.
Proof.
  intros df.
  assert (Hdf : results_table df) by (by repeat constructor).
  assert (Hc : length (columns df) = 1%nat) by reflexivity.
  exact (proj2 (combo_is_permutation df) Hdf Hc).
Defined.

(** ** A die without faces *)

(** X2: an array without faces is accepted by [Die.__init__]; the die it
    gives cannot be rolled: for every number of rolls other than zero
    [np.random.choice] raises [ValueError], and so does the [play] of a
    game that has this die first.  Nothing is changed by these calls. *)
Theorem empty_die s :
  exists a s1,
    Die_init (NdArray []) s = (inr a, s1)
    /\ Die_show a s1 = (inr [], s1)
    /\ (forall times, times <> 0 ->
          roll a times s1
          = (inl (Raise ValueError "'a' cannot be empty unless no samples are taken"), s1))
    /\ (forall ga g ds n,
          st_games s1 !! ga = Some g -> dice g = a :: ds -> n <> 0 ->
          play ga n s1
          = (inl (Raise ValueError "'a' cannot be empty unless no samples are taken"), s1)).
Proof.
  eexists _, _. split; [reflexivity|].
  set (a := fresh (dom (st_dice s))).
  set (s1 := Store _ _ _ _).
  assert (Hd : st_dice s1 !! a = Some {| __df := [] |}) by apply lookup_insert_eq.
  assert (Hroll : forall times, times <> 0 ->
    roll a times s1
    = (inl (Raise ValueError "'a' cannot be empty unless no samples are taken"), s1)).
  { intros times Ht. unfold roll, bind, get_die. rewrite Hd.
    unfold np_random_choice. by rewrite decide_True. }
  split; [|split; [done|]].
  - unfold Die_show, bind, get_die. by rewrite Hd.
  - intros ga g ds n Hg Hdice Hn. unfold play, bind, get_game. rewrite Hg, Hdice.
    cbn [play_loop]. unfold bind. by rewrite Hroll.
Qed.

Lemma empty_die_witness :
  let s := Store ∅ ∅ ∅ {| rng_stream := fun _ => 0; rng_pos := 0 |} in
  exists a s1, Die_init (NdArray []) s = (inr a, s1)
    /\ roll a 3 s1
       = (inl (Raise ValueError "'a' cannot be empty unless no samples are taken"), s1).
Proof.
  intros s. destruct (empty_die s) as (a & s1 & H1 & _ & H2 & _).
  exists a, s1. split; [exact H1|]. apply H2. discriminate.
Defined.

(** ** Dice with all their weight on one face *)

(** X14: when every die of a game has weight zero on all faces but [face]
    (and a running total of probabilities that ends on a finite number
    other than zero), a [play] of [n] rolls leaves [n] rows that hold [face]
    in every cell, and the [jackpot] of an analyzer made then is [n]. *)
Theorem loaded_game_jackpot s ga g n s1 face :
  st_games s !! ga = Some g -> dice g <> [] ->
  Forall (fun da => exists d,
            st_dice s !! da = Some d
            /\ normalisable (probabilities d) = true
            /\ Forall (fun r => r.1 <> face -> F64.is_zero r.2 = true) (__df d))
         (dice g) ->
  play ga n s = (inr tt, s1) ->
  exists a s2 df,
    Analyzer_init (GameRef ga) s1 = (inr a, s2)
    /\ st_frames s2 !! results a = Some df
    /\ rows df = replicate (Z.to_nat n) (replicate (length (dice g)) face)
    /\ jackpot a s2 = (inr n, s2).
Proof.
  intros Hg Hdice Hloaded Hplay.
  destruct (play_ok_cells ga g n s s1 Hg Hplay) as (df & -> & Hcols & Hn & _ & Hcell).
  destruct (Hn Hdice) as [Hn0 Hrows].
  set (fa := fresh (dom (st_frames s))) in *.
  set (s1 := Store _ _ _ _).
  destruct (Analyzer_init_ok ga {| dice := dice g; _play_df := Some fa |} fa df s1)
    as (a & s2 & Hinit & _ & _ & Hres & _); [apply lookup_insert_eq|done|apply lookup_insert_eq|].
  assert (Hall : rows df = replicate (Z.to_nat n) (replicate (length (dice g)) face)).
  { symmetry. apply replicate_as_Forall. split; [done|].
    apply Forall_forall. intros row (i & Hi)%list_elem_of_lookup_1.
    destruct (Hcell i row Hi) as [Hlen Hv].
    apply replicate_as_Forall. split; [done|].
    apply Forall_forall. intros v (j & Hj)%list_elem_of_lookup_1.
    destruct (Hv j v Hj) as (da & d & Hda & Hd & Hacc & Hx).
    rewrite Forall_forall in Hloaded.
    destruct (Hloaded da) as (d' & Hd' & Hnorm & Hzero);
      [by eapply list_elem_of_lookup_2|].
    rewrite Hd in Hd'. injection Hd' as <-.
    apply drawn_face_weight in Hx as (w & Hw & Hnz); [|done..|].
    - rewrite Forall_forall in Hzero.
      destruct (decide (v = face)) as [|Hne]; [done|].
      specialize (Hzero _ Hw Hne). simpl in Hzero. congruence.
    - intros z Hz. by apply uniform_not_less_zero. }
  exists a, s2, df. do 3 (split; [done|]).
  unfold jackpot, bind, get_frame, ret. rewrite Hres. do 2 f_equal.
  unfold jackpot_of, apply_reduce. rewrite Hall.
  rewrite filter_all.
  - rewrite length_map, length_replicate. lia.
  - apply Forall_fmap, Forall_replicate. simpl.
    apply nunique_one. destruct (dice g) as [|d0 ds]; [done|]. simpl.
    exists face. split; [left|]. intros y [->|Hy%elem_of_replicate]%elem_of_cons; [done|].
    by destruct Hy.
Qed.

Lemma loaded_game_jackpot_witness :
  let g0 := {| rng_stream := fun i => Z.of_nat i * 3002399751580331; rng_pos := 0 |} in
  let d := {| __df := [(1, F64.zero); (2, F64.one)] |} in
  let g := {| dice := [0%nat; 0%nat]; _play_df := None |} in
  let s := Store {[ 0%nat := d ]} {[ 0%nat := g ]} ∅ g0 in
  let p := play 0 3 s in
  p.1 = inr tt
  /\ exists a s2 df, Analyzer_init (GameRef 0%nat) p.2 = (inr a, s2)
       /\ st_frames s2 !! results a = Some df
       /\ rows df = [[2; 2]; [2; 2]; [2; 2]]
       /\ jackpot a s2 = (inr 3, s2).
Proof.
  intros g0 d g s p.
  assert (Hp : p.1 = inr tt) by (vm_compute; reflexivity).
  split; [exact Hp|].
  assert (Hg : st_games s !! 0%nat = Some g) by reflexivity.
  assert (Hdice : dice g <> []) by discriminate.
  assert (Hplay : play 0 3 s = (inr tt, p.2))
    by (apply injective_projections; [exact Hp|reflexivity]).
  assert (Hd : st_dice s !! 0%nat = Some d) by reflexivity.
  assert (Hnorm : normalisable (probabilities d) = true) by (vm_compute; reflexivity).
  assert (Hz : Forall (fun r : label * float => r.1 <> 2 -> F64.is_zero r.2 = true) (__df d)).
  { repeat constructor; simpl; intros; (reflexivity || congruence). }
  assert (Hl : Forall (fun da => exists d,
            st_dice s !! da = Some d
            /\ normalisable (probabilities d) = true
            /\ Forall (fun r => r.1 <> 2 -> F64.is_zero r.2 = true) (__df d))
         (dice g)).
  { repeat constructor; exists d; exact (conj Hd (conj Hnorm Hz)). }
  exact (loaded_game_jackpot s 0%nat g 3 p.2 2 Hg Hdice Hl Hplay).
Defined.

(** ** Rolls, one after the other *)

Lemma take_ok_iff a idx s : forall xs s',
  take a idx s = (inr xs, s')
  <-> s' = s /\ Forall2 (fun i x => a !! i = Some x) idx xs.
Proof.
  induction idx as [|i idx IH]; intros xs s'; simpl.
  - unfold ret. split.
    + intros [= <- <-]. split; [done|constructor].
    + intros [-> Hxs]. by inversion_clear Hxs.
  - destruct (a !! i) as [x|] eqn:Hi.
    + unfold bind. destruct (take a idx s) as [[e|ys] s0] eqn:Ht.
      * split; [done|]. intros [-> Hxs]. inversion Hxs as [|? y ? ys' ? Hys]; subst.
        discriminate (proj2 (IH ys' s) (conj eq_refl Hys)).
      * destruct (proj1 (IH ys s0) eq_refl) as [-> Hys]. unfold ret. split.
        -- intros [= <- <-]. split; [done|]. by constructor.
        -- intros [-> Hxs]. inversion Hxs as [|? y ? ys' Hy Hys']; subst.
           pose proof (proj2 (IH ys' s) (conj eq_refl Hys')) as [= <-]. congruence.
    + split; [done|]. intros [_ Hxs]. inversion Hxs; congruence.
Qed.

Lemma roll_ok_iff self times s rolls s' :
  roll self times s = (inr rolls, s')
  <-> exists d,
        st_dice s !! self = Some d /\ 0 <= times
        /\ accepted (probabilities d) = true
        /\ s' = advance (Z.to_nat times) s
        /\ Forall2 (fun i x =>
                      (__df d).*1 !! searchsorted_right
                          (normalised_cdf (probabilities d))
                          (uniform (st_rng s) i) = Some x)
                   (seq 0 (Z.to_nat times)) rolls.
Proof.
  unfold roll, bind, get_die. destruct (st_dice s !! self) as [d|];
    [|split; [done|by intros (? & ? & _)]].
  fold (probabilities d).
  assert (Hlen : length (probabilities d) = length (__df d).*1)
    by (unfold probabilities, np_divide; by rewrite length_map, !length_fmap).
  unfold np_random_choice.
  destruct (accepted (probabilities d)) eqn:Hacc.
  - assert (Hne : probabilities d <> []) by (intros Hp; by rewrite Hp in Hacc).
    pose proof Hacc as Hacc'.
    unfold accepted in Hacc. apply andb_prop in Hacc as [Hacc H3].
    apply andb_prop in Hacc as [H1 H2]. apply negb_true_iff in H1, H2, H3.
    rewrite decide_False.
    2:{ intros [Ha _]. rewrite Ha in Hlen. by destruct (probabilities d). }
    rewrite decide_False by (by intros ?). rewrite H1, H2, H3.
    destruct (last (np_cumsum (probabilities d))) as [total|] eqn:Hlast.
    2:{ apply last_None in Hlast. apply (f_equal length) in Hlast.
        rewrite length_np_cumsum in Hlast. by destruct (probabilities d). }
    assert (Hcdf : normalised_cdf (probabilities d)
                   = np_divide (np_cumsum (probabilities d)) total)
      by (unfold normalised_cdf; by rewrite Hlast).
    case_decide as Hneg.
    { split; [done|]. intros (? & [= <-] & ? & _). lia. }
    unfold bind, random_sample. rewrite take_ok_iff. split.
    + intros [-> Hall]. exists d. split; [done|]. split; [lia|].
      split; [done|]. split; [reflexivity|]. rewrite Hcdf.
      rewrite map_map in Hall. change (map ?f ?l) with (f <$> l) in Hall.
      apply Forall2_fmap_l in Hall. exact Hall.
    + intros (? & [= <-] & _ & _ & -> & Hall). split; [done|]. rewrite Hcdf in Hall.
      rewrite map_map. change (map ?f ?l) with (f <$> l).
      apply Forall2_fmap_l. exact Hall.
  - split; [|intros (? & [= <-] & _ & ? & _); congruence].
    unfold accepted in Hacc.
    case_decide; [done|]. case_decide; [done|].
    destruct (F64.is_nan _); [done|]. destruct (existsb _ _); [done|].
    destruct (F64.ltb _ _); [done|]. discriminate Hacc.
Qed.

(** X7: rolling [m] times and then [n] times gives, one after the other,
    the faces of rolling [m + n] times at once, and leaves the same
    store. *)
Theorem roll_split s self m n r1 s1 r2 s2 :
  roll self m s = (inr r1, s1) -> roll self n s1 = (inr r2, s2) ->
  roll self (m + n) s = (inr (r1 ++ r2), s2).
Proof.
  rewrite !roll_ok_iff.
  intros (d & Hd & Hm & Hacc & -> & H1) (d' & Hd' & Hn & _ & -> & H2).
  cbn [advance st_dice] in Hd'. rewrite Hd in Hd'. injection Hd' as <-.
  exists d. split; [done|]. split; [lia|]. split; [done|].
  split; [rewrite advance_advance; f_equal; lia|].
  rewrite Z2Nat.inj_add, seq_app by lia. apply Forall2_app; [exact H1|].
  replace (seq (0 + Z.to_nat m) (Z.to_nat n))
    with ((fun i => Z.to_nat m + i)%nat <$> seq 0 (Z.to_nat n))
    by (rewrite fmap_add_seq; f_equal; lia).
  apply Forall2_fmap_l.
  eapply Forall2_impl; [exact H2|]. intros i x Hx. unfold compose.
  by rewrite <-uniform_advance.
Qed.

Lemma roll_split_witness :
  let g := {| rng_stream := fun i => Z.of_nat i * 3002399751580331; rng_pos := 0 |} in
  let d := {| __df := [(1, F64.one); (2, F64.one); (3, F64.one)] |} in
  let s := Store {[ 0%nat := d ]} ∅ ∅ g in
  roll 0 (1 + 3) s = (inr ([1] ++ [2; 3; 1]), advance 3 (advance 1 s)).
Proof.
  intros g d s.
  assert (H1 : roll 0 1 s = (inr [1], advance 1 s)) by (vm_compute; reflexivity).
  assert (H2 : roll 0 3 (advance 1 s) = (inr [2; 3; 1], advance 3 (advance 1 s)))
    by (vm_compute; reflexivity).
  exact (roll_split s 0%nat 1 3 _ _ _ _ H1 H2).
Defined.

(** Two rounds are the same combination exactly when their face counts
    agree. *)
Lemma count_occ_filter (row : list label) l :
  count_occ Z.eq_dec row l = length (filter (fun x => x = l) row).
Proof.
  induction row as [|x row IH]; [done|].
  rewrite filter_cons. simpl. destruct (Z.eq_dec x l), (decide (x = l)); simpl; congruence.
Qed.

Lemma Permutation_counts (r1 r2 : list label) :
  r1 ≡ₚ r2
  <-> forall l, length (filter (fun x => x = l) r1) = length (filter (fun x => x = l) r2).
Proof.
  rewrite (Permutation_count_occ Z.eq_dec).
  split; intros Hc l; specialize (Hc l); by rewrite ?count_occ_filter in *.
Qed.

(** X22: [combo_count] against [face_counts_per_roll], for a table with at
    least one round: two rounds fall under the same combination exactly when
    their rows of face counts are equal. *)
Theorem same_combination_same_counts df :
  results_table df -> rows df <> [] ->
  let fc := face_counts_per_roll_of df in
  forall i j ri rj ci cj,
    rows df !! i = Some ri -> rows df !! j = Some rj ->
    rows fc !! i = Some ci -> rows fc !! j = Some cj ->
    ci = cj <-> merge_sort Z.le ri = merge_sort Z.le rj.
Proof.
  intros (_ & _ & Hnil) Hrows fc i j ri rj ci cj Hi Hj.
  assert (Hc : columns df <> []) by (by intros ?%Hnil).
  destruct (face_counts_per_roll_of_rows df Hc Hrows) as (cols & Hfc & _ & Hcols).
  unfold fc. rewrite Hfc. cbn [rows]. rewrite !list_lookup_fmap, Hi, Hj.
  intros [= <-] [= <-]. rewrite sorted_eq_iff, Permutation_counts. split.
  - intros Heq l. destruct (decide (l ∈ cols)) as [Hl|Hl].
    + apply list_elem_of_lookup_1 in Hl as (k & Hk).
      apply (f_equal (.!! k)) in Heq. rewrite !list_lookup_fmap, Hk in Heq.
      simpl in Heq. injection Heq as Heq. lia.
    + rewrite !filter_eq_not_elem_of; [done|..]; intros Hin; apply Hl, Hcols;
        eexists; (split; [|done]); by eapply list_elem_of_lookup_2.
  - intros Heq. apply list_fmap_ext. intros _ l _. by rewrite Heq.
Qed.

Lemma same_combination_same_counts_witness :
  let df := Frame [0; 1] [[2; 3]; [1; 1]; [3; 2]] in
  exists ci cj,
    rows (face_counts_per_roll_of df) !! 0%nat = Some ci
    /\ rows (face_counts_per_roll_of df) !! 2%nat = Some cj
    /\ ci = cj.
Proof.
  intros df.
  assert (Hdf : results_table df) by (by repeat constructor).
  assert (Hr : rows df <> []) by discriminate.
  assert (H0 : rows df !! 0%nat = Some [2; 3]) by reflexivity.
  assert (H2 : rows df !! 2%nat = Some [3; 2]) by reflexivity.
  assert (C0 : rows (face_counts_per_roll_of df) !! 0%nat = Some [0; 1; 1]) by reflexivity.
  assert (C2 : rows (face_counts_per_roll_of df) !! 2%nat = Some [0; 1; 1]) by reflexivity.
  assert (Hs : merge_sort Z.le [2; 3] = merge_sort Z.le [3; 2]) by reflexivity.
  exists [0; 1; 1], [0; 1; 1]. split; [exact C0|]. split; [exact C2|].
  exact (proj2 (same_combination_same_counts df Hdf Hr 0%nat 2%nat _ _ _ _ H0 H2 C0 C2) Hs).
Defined.
